(** * LoRA adapter weights and their per-batch aggregation

    A shallow embedding of [server/lorax_server/adapters/lora.py]:
    the per-adapter weight object [LoraWeights] with its lazily flipped
    orientation, the loader [LoraWeights.load] that merges the scaling factor
    into B and pads the rank, and the per-layer, per-batch aggregation
    [BatchLoraWeights.load] that picks the kernel family and builds the
    pointer, segment and index tables.

    Conventions.
    - Python [int]s that are identifiers, token offsets, addresses or table
      entries are [Z]; tensor sizes (and so ranks) are [nat].
    - Tensor entries are real numbers: rounding of the device dtype is not
      part of the model.
    - A raised exception ([IndexError], [KeyError], [ZeroDivisionError], a
      torch [RuntimeError]) is [None] in the [option] monad; a function that
      itself returns [Optional[...]] then has type [option (option _)].
    - Objects that the code mutates ([LoraWeights] flips its orientation on
      access) live in a store keyed by adapter identifier, threaded through
      the computation together with the allocator state.
    - The allocator state covers the weight blocks only: it advances when
      [torch.stack] or [contiguous()] creates a block of adapter weights.
      The tensors an aggregation creates for itself (pointer tables, scratch
      buffers, boundary and index arrays) are values of the result; their
      allocation is not part of the model. *)

From Stdlib Require Import Reals Lra.
From stdpp Require Import gmap strings list.

Local Open Scope Z_scope.

(** ** Tensors *)

(** A 2-D tensor: its shape and its rows. *)
Record Tensor2 := mkTensor2 {
  size0 : nat;
  size1 : nat;
  elems : list (list R)
}.

(** The rows agree with the shape (always true of a torch tensor). *)
Definition wf_tensor2 (t : Tensor2) : Prop :=
  length (elems t) = size0 t ∧ Forall (λ row, length row = size1 t) (elems t).

(** [t.transpose(0, 1)] on a 2-D tensor. *)
Definition transpose_0_1 (t : Tensor2) : Tensor2 :=
  mkTensor2 (size1 t) (size0 t)
    (map (λ j, map (λ row, nth j row 0%R) (elems t)) (seq 0 (size1 t))).

(** [t * scale] for a Python float [scale], entry by entry; the product of
    two entries is the exact one, not the one rounded to the tensor's
    dtype. *)
Definition scale_tensor (scale : R) (t : Tensor2) : Tensor2 :=
  mkTensor2 (size0 t) (size1 t) (map (map (λ x, (x * scale)%R)) (elems t)).

(** A stacked 3-D block [num_layers, size0, size1] together with the device
    address [t.data_ptr()] of its storage. *)
Record Tensor3 := mkTensor3 {
  data_ptr : Z;
  layers : list Tensor2
}.

Definition wf_tensor3 (t : Tensor3) : Prop := Forall wf_tensor2 (layers t).

(** What the code takes from torch's allocator and from the module-level
    [EMPTY_TENSOR = torch.tensor([])]. [Heap] is the state of the allocator
    as far as blocks of adapter weights go: only [torch.stack] and
    [contiguous()] advance it. *)
Class Torch := {
  Heap : Type;
  (** [EMPTY_TENSOR.data_ptr()] *)
  EMPTY_PTR : Z;
  (** address of [x.transpose(1, 2).contiguous()] for the block stored at the
      given address: a new block, or the same storage when the transposed
      view is already contiguous *)
  contiguous_ptr : Heap → Z → Z * Heap;
  (** address of the block allocated by [torch.stack] *)
  stack_ptr : Heap → Z * Heap
}.

(** Constants and helpers imported from [lorax_server.utils.punica], which is
    not part of this file: they are parameters of the development. *)
Class Punica := {
  BGMV_MAX_RANK : nat;
  use_cutlass_shrink : nat → bool;
  orient_for_rank : Tensor2 → nat → Tensor2;
  (** [pad_rank(t, dim, world_size)] *)
  pad_rank : Tensor2 → nat → Z → Tensor2;
  (** [get_tmp_tensors(nsegments, rank, device)]; a scratch buffer is
      represented by an opaque handle *)
  get_tmp_tensors : nat → nat → Z * Z
}.

(** [t.transpose(1, 2).contiguous()] on a stacked block. *)
Definition transpose_1_2_contiguous `{Torch} (t : Tensor3) (h : Heap) : Tensor3 * Heap :=
  let '(p, h') := contiguous_ptr h (data_ptr t) in
  (mkTensor3 p (map transpose_0_1 (layers t)), h').

(** ** LoraConfig *)

Record LoraConfig := mkLoraConfig {
  base_model_name_or_path : string;
  r : Z;
  target_modules : option (list string);
  fan_in_fan_out : bool;
  lora_alpha : Z;
  use_rslora : bool
}.

Definition set_r (config : LoraConfig) (padded_rank : Z) : LoraConfig :=
  mkLoraConfig (base_model_name_or_path config) padded_rank (target_modules config)
    (fan_in_fan_out config) (lora_alpha config) (use_rslora config).

(** ** LoraWeights *)

Record LoraWeights := mkLoraWeights {
  lora_a_r : nat;
  lora_b_r : nat;
  _use_cutlass_shrink : bool;
  _is_transposed : bool;
  _weights_a : Tensor3;
  _weights_b : Tensor3;
  adapter_config : LoraConfig
}.

Definition wf_lora_weights (w : LoraWeights) : Prop :=
  wf_tensor3 (_weights_a w) ∧ wf_tensor3 (_weights_b w).

Section Orientation.
Context `{Torch}.

(** [LoraWeights._transpose_weights] *)
Definition _transpose_weights (w : LoraWeights) (h : Heap) : LoraWeights * Heap :=
  let '(a, h1) :=
    if _use_cutlass_shrink w
    then transpose_1_2_contiguous (_weights_a w) h
    else (_weights_a w, h) in
  let '(b, h2) := transpose_1_2_contiguous (_weights_b w) h1 in
  (mkLoraWeights (lora_a_r w) (lora_b_r w) (_use_cutlass_shrink w)
     (negb (_is_transposed w)) a b (adapter_config w), h2).

(** The four properties. Each returns the tensor, the object after the
    access and the allocator state. *)
Definition weights_a (w : LoraWeights) (h : Heap) : Tensor3 * LoraWeights * Heap :=
  let '(w', h') := if _is_transposed w then _transpose_weights w h else (w, h) in
  (_weights_a w', w', h').

Definition weights_b (w : LoraWeights) (h : Heap) : Tensor3 * LoraWeights * Heap :=
  let '(w', h') := if _is_transposed w then _transpose_weights w h else (w, h) in
  (_weights_b w', w', h').

Definition weights_a_t (w : LoraWeights) (h : Heap) : Tensor3 * LoraWeights * Heap :=
  let '(w', h') := if negb (_is_transposed w) then _transpose_weights w h else (w, h) in
  (_weights_a w', w', h').

Definition weights_b_t (w : LoraWeights) (h : Heap) : Tensor3 * LoraWeights * Heap :=
  let '(w', h') := if negb (_is_transposed w) then _transpose_weights w h else (w, h) in
  (_weights_b w', w', h').

End Orientation.

(** ** Scaling factor and the loader *)

(** [get_scaling_factor]. Python's [/] raises [ZeroDivisionError] for a zero
    divisor. The quotient is the exact real number: the rounding of a Python
    float and the [OverflowError] of an integer too large for one are not
    represented, so nothing below rests on the value of a quotient beyond
    which rank it was taken over. For a negative [r] the power [r**0.5] is
    a complex number, which the real-valued model does not represent: that
    case is [None] as well. *)
Definition get_scaling_factor (lora_alpha r : Z) (uses_rslora : bool) : option R :=
  if uses_rslora then
    if bool_decide (0 < r) then Some (IZR lora_alpha / sqrt (IZR r))%R else None
  else
    if bool_decide (r = 0) then None else Some (IZR lora_alpha / IZR r)%R.

(** [model.get_num_layers_for_type] returns an [int] or, for VLM models, a
    list of layer identifiers. *)
Inductive NumLayers :=
| NumLayersInt (n : Z)
| NumLayersList (ids : list Z).

(** The part of the base-model registry that [LoraWeights.load] consults. *)
Class Model := {
  get_num_layers_for_type : string → NumLayers;
  (** [model.target_to_layer[(layer_id, layer_type)]]: the weight name and
      the device of the layer's base weight; a missing key raises *)
  target_to_layer : Z → string → option (string * Z);
  (** [load_module_weight(name, module, device, model.dtype)] *)
  load_module_weight : string → Tensor2 → Z → Tensor2;
  world_size : Z;
  shard_lora_weights : list Tensor2 → list Tensor2 → string → list Tensor2 * list Tensor2
}.

(** An entry of the module map: the two tensors of a module with their
    checkpoint names. *)
Record ModuleEntry := mkModuleEntry {
  lora_A : Tensor2 * string;
  lora_B : Tensor2 * string
}.

Definition same_shape (t u : Tensor2) : bool :=
  bool_decide (size0 t = size0 u) && bool_decide (size1 t = size1 u).

Section Loader.
Context `{Torch} `{Punica} `{Model}.

(** [torch.stack]: raises on an empty list and on tensors of unequal shape. *)
Definition torch_stack (ts : list Tensor2) (h : Heap) : option (Tensor3 * Heap) :=
  match ts with
  | [] => None
  | t0 :: rest =>
    if forallb (same_shape t0) rest
    then let '(p, h') := stack_ptr h in Some (mkTensor3 p ts, h')
    else None
  end.

(** [LoraWeights.__init__] *)
Definition LoraWeights_init (weights_a weights_b : list Tensor2)
    (adapter_config : LoraConfig) (h : Heap) : option (LoraWeights * Heap) :=
  let lora_a_r := match weights_a with w :: _ => size1 w | [] => 1%nat end in
  lora_b_r ← match weights_a with
             | _ :: _ => size0 <$> head weights_b
             | [] => Some 1%nat
             end;
  let weights_a := map (λ w, orient_for_rank w (size1 w)) weights_a in
  '(a, h1) ← torch_stack weights_a h;
  '(b, h2) ← torch_stack weights_b h1;
  Some (mkLoraWeights lora_a_r lora_b_r (use_cutlass_shrink lora_a_r) false a b
          adapter_config, h2).

Definition layer_ids_of (nlayers : NumLayers) : list Z :=
  match nlayers with
  | NumLayersInt n => Z.of_nat <$> seq 0 (Z.to_nat n)
  | NumLayersList ids => ids
  end.

(** The two list entries one loop iteration of [LoraWeights.load] stores for
    a layer, given the tensors [load_module_weight] returned: A transposed, B
    transposed and multiplied by the scaling factor. *)
Definition merged_layer_weights (config : LoraConfig) (lora_a lora_b : Tensor2)
    : option (Tensor2 * Tensor2) :=
  scale ← get_scaling_factor (lora_alpha config) (r config) (use_rslora config);
  Some (transpose_0_1 lora_a, scale_tensor scale (transpose_0_1 lora_b)).

(** The loop of [LoraWeights.load] over the layers. The inner [None] is the
    early [return None] for a layer without LoRA weights; the set of unused
    weight names is updated on the way. *)
Fixpoint load_layers (config : LoraConfig) (module_map : gmap string ModuleEntry)
    (layer_type : string) (layer_ids : list Z) (unused_weight_names : gset string)
    : option (option (list Tensor2 * list Tensor2) * gset string) :=
  match layer_ids with
  | [] => Some (Some ([], []), unused_weight_names)
  | layer_id :: rest =>
    '(weight_name, base_device) ← target_to_layer layer_id layer_type;
    match module_map !! weight_name with
    | None => Some (None, unused_weight_names)
    | Some entry =>
      let '(lora_a, lora_a_name) := lora_A entry in
      let lora_a := load_module_weight lora_a_name lora_a base_device in
      let '(lora_b, lora_b_name) := lora_B entry in
      let lora_b := load_module_weight lora_b_name lora_b base_device in
      '(a_i, b_i) ← merged_layer_weights config lora_a lora_b;
      let unused_weight_names := unused_weight_names ∖ {[lora_a_name]} ∖ {[lora_b_name]} in
      '(res, unused_weight_names) ←
        load_layers config module_map layer_type rest unused_weight_names;
      Some (match res with
            | Some (lora_a_list, lora_b_list) => Some (a_i :: lora_a_list, b_i :: lora_b_list)
            | None => None
            end, unused_weight_names)
    end
  end.

(** The two lists handed to [LoraWeights.__init__]: padded, then sharded. *)
Definition padded_sharded (lora_a_list lora_b_list : list Tensor2) (layer_type : string)
    : list Tensor2 * list Tensor2 :=
  let lora_a_list := map (λ w, pad_rank w 1 world_size) lora_a_list in
  let lora_b_list := map (λ w, pad_rank w 0 world_size) lora_b_list in
  shard_lora_weights lora_a_list lora_b_list layer_type.

(** [LoraWeights.load]. Besides the weights it returns the config, whose [r]
    it overwrites with the padded rank, the set of unused names and the
    allocator state. *)
Definition LoraWeights_load (config : LoraConfig) (module_map : gmap string ModuleEntry)
    (layer_type : string) (unused_weight_names : gset string) (h : Heap)
    : option (option LoraWeights * LoraConfig * gset string * Heap) :=
  let layer_ids := layer_ids_of (get_num_layers_for_type layer_type) in
  '(res, unused_weight_names) ←
    load_layers config module_map layer_type layer_ids unused_weight_names;
  match res with
  | None => Some (None, config, unused_weight_names, h)
  | Some (lora_a_list, lora_b_list) =>
    let config :=
      match map (λ w, pad_rank w 1 world_size) lora_a_list with
      | w :: _ => set_r config (Z.of_nat (size1 w))
      | [] => config
      end in
    let '(weights_a, weights_b) := padded_sharded lora_a_list lora_b_list layer_type in
    '(w, h') ← LoraWeights_init weights_a weights_b config h;
    Some (Some w, config, unused_weight_names, h')
  end.

End Loader.

(** ** Batch metadata and the aggregation *)

(** What [BatchLoraWeights.load] may find as a value of its [adapter_weights]
    dict. *)
Inductive AdapterWeights :=
| LoraAdapter (w : LoraWeights)
    (** an instance of [LoraWeights] *)
| WrappedAdapter (lora_weights : AdapterWeights)
    (** an object with a [lora_weights] attribute *)
| OtherAdapter.
    (** any other object *)

(** [_convert_lora] *)
Definition _convert_lora (v : AdapterWeights) : AdapterWeights :=
  match v with
  | WrappedAdapter lora_weights => lora_weights
  | _ => v
  end.

(** [isinstance(v, LoraWeights)], with the instance when it holds. *)
Definition as_LoraWeights (v : AdapterWeights) : option LoraWeights :=
  match v with
  | LoraAdapter w => Some w
  | _ => None
  end.

(** The fields of [AdapterBatchMetadata] that the aggregation reads. *)
Record AdapterBatchMetadata := mkAdapterBatchMetadata {
  adapter_indices : list Z;
  segment_indices : list Z;
  adapter_segments : list Z
}.

Record RankSegments := mkRankSegments {
  rank : nat;
  lora_a_ptr : list Z;
  lora_b_ptr : list Z;
  tmp_shrink : option Z;
  tmp_expand : option Z;
  segment_starts : option (list Z);
  segment_ends : option (list Z);
  indices : option (list Z)
}.

Record BatchLoraWeights := mkBatchLoraWeights {
  lora_a : gmap Z Tensor3;
  lora_b : gmap Z Tensor3;
  adapter_index_configs : gmap Z LoraConfig;
  rank_data : gmap nat RankSegments;
  use_sgmv : bool;
  layer_name : string;
  prefill_head_indices : option (list Z)
}.

(** [BatchLoraWeights.has_adapter] *)
Definition has_adapter (self : BatchLoraWeights) (adapter_index : Z) : bool :=
  bool_decide (is_Some (adapter_index_configs self !! adapter_index)).

(** The first two statements of [BatchLoraWeights.load]: unwrap, then keep
    the [LoraWeights] instances. The dict is a list of items in insertion
    order, since the code takes its first value. *)
Definition lora_adapter_items (adapter_weights : list (Z * AdapterWeights))
    : list (Z * LoraWeights) :=
  let adapter_weights := map (λ kv, (kv.1, _convert_lora kv.2)) adapter_weights in
  omap (λ kv, (λ w, (kv.1, w)) <$> as_LoraWeights kv.2) adapter_weights.

(** The adapters with LoRA weights for this layer, as the dict the rest of
    [load] looks up. *)
Definition lora_adapters (adapter_weights : list (Z * AdapterWeights))
    : gmap Z LoraWeights :=
  list_to_map (lora_adapter_items adapter_weights).

(** [segment_ranks] *)
Definition segment_ranks_of (adapter_weights : gmap Z LoraWeights)
    (segment_indices : list Z) : list nat :=
  omap (λ idx, lora_a_r <$> adapter_weights !! idx) segment_indices.

(** [adapter_index_configs]: a dict comprehension over the segments. *)
Definition adapter_index_configs_of (adapter_weights : gmap Z LoraWeights)
    (segment_indices : list Z) : gmap Z LoraConfig :=
  foldl (λ acc idx,
           match adapter_weights !! idx with
           | Some w => <[idx := adapter_config w]> acc
           | None => acc
           end) ∅ segment_indices.

(** The loop filling [rank_indices], a [defaultdict(list)]; [segment_idx] is
    the position the enumeration has reached. *)
Fixpoint rank_indices_loop (adapter_weights : gmap Z LoraWeights)
    (segment_indices : list Z) (segment_idx : nat) (rank_indices : gmap nat (list nat))
    : gmap nat (list nat) :=
  match segment_indices with
  | [] => rank_indices
  | adapter_idx :: rest =>
    match adapter_weights !! adapter_idx with
    | None => rank_indices_loop adapter_weights rest (S segment_idx) rank_indices
    | Some w =>
      rank_indices_loop adapter_weights rest (S segment_idx)
        (<[lora_a_r w := rank_indices !!! lora_a_r w ++ [segment_idx]]> rank_indices)
    end
  end.

Definition rank_indices_of (adapter_weights : gmap Z LoraWeights)
    (segment_indices : list Z) : gmap nat (list nat) :=
  rank_indices_loop adapter_weights segment_indices 0 ∅.

(** The loop over [prefill_head_indices]: [j] is the next metadata boundary,
    the two lists are [prefill_head_segment_starts] and
    [prefill_head_segment_ends]. *)
Fixpoint prefill_head_loop (adapter_segments : list Z) (prefill_head_indices : list Z)
    (j : nat) (starts ends : list Z) : option (list Z * list Z) :=
  match prefill_head_indices with
  | [] => Some (starts, ends)
  | head_index :: rest =>
    bound ← adapter_segments !! j;
    last_end ← last ends;
    if bool_decide (head_index < bound) then
      prefill_head_loop adapter_segments rest j starts
        (<[pred (length ends) := last_end + 1]> ends)
    else
      prefill_head_loop adapter_segments rest (S j)
        (starts ++ [last_end]) (ends ++ [last_end + 1])
  end.

Definition prefill_head_segments (adapter_segments prefill_head_indices : list Z)
    : option (list Z * list Z) :=
  prefill_head_loop adapter_segments prefill_head_indices 1 [0] [0].

(** The loop that overwrites a rank group's boundaries with the filtered
    ones; [i] is the position the enumeration has reached. *)
Fixpoint overwrite_segments (head_starts head_ends : list Z) (indices : list nat)
    (i : nat) (segment_starts segment_ends : list Z) : option (list Z * list Z) :=
  match indices with
  | [] => Some (segment_starts, segment_ends)
  | segment_index :: rest =>
    s ← head_starts !! segment_index;
    e ← head_ends !! segment_index;
    overwrite_segments head_starts head_ends rest (S i)
      (<[i := s]> segment_starts) (<[i := e]> segment_ends)
  end.

(** The loop filling [idx_locs]: the first location in [indices] at which
    each adapter occurs. *)
Fixpoint idx_locs_loop (segment_indices : list Z) (indices : list nat) (loc : nat)
    (idx_locs : gmap Z nat) : option (gmap Z nat) :=
  match indices with
  | [] => Some idx_locs
  | idx :: rest =>
    adapter_idx ← segment_indices !! idx;
    idx_locs_loop segment_indices rest (S loc)
      (match idx_locs !! adapter_idx with
       | None => <[adapter_idx := loc]> idx_locs
       | Some _ => idx_locs
       end)
  end.

(** [batch_indices]: one entry per token of the batch. *)
Definition batch_indices_of (adapter_weights : gmap Z LoraWeights) (rank : nat)
    (idx_locs : gmap Z nat) (adapter_indices : list Z) : option (list Z) :=
  mapM (λ idx,
          match adapter_weights !! idx with
          | Some w =>
            if bool_decide (lora_a_r w = rank)
            then Z.of_nat <$> idx_locs !! idx
            else Some (-1)
          | None => Some (-1)
          end) adapter_indices.

Section Aggregation.
Context `{Torch} `{Punica}.

(** [adapter_weights[idx].<property>] on the store. *)
Definition access (property : LoraWeights → Heap → Tensor3 * LoraWeights * Heap)
    (idx : Z) (st : gmap Z LoraWeights * Heap)
    : option (Tensor3 * (gmap Z LoraWeights * Heap)) :=
  w ← st.1 !! idx;
  let '(t, w', h') := property w st.2 in
  Some (t, (<[idx := w']> st.1, h')).

(** [{idx: adapter_weights[idx].<property> for idx in segment_indices
      if idx in adapter_weights}] *)
Fixpoint tensor_dict (property : LoraWeights → Heap → Tensor3 * LoraWeights * Heap)
    (segment_indices : list Z) (acc : gmap Z Tensor3) (st : gmap Z LoraWeights * Heap)
    : gmap Z Tensor3 * (gmap Z LoraWeights * Heap) :=
  match segment_indices with
  | [] => (acc, st)
  | idx :: rest =>
    match access property idx st with
    | Some (t, st') => tensor_dict property rest (<[idx := t]> acc) st'
    | None => tensor_dict property rest acc st
    end
  end.

(** [[adapter_weights[idx].<property>.data_ptr() if idx in adapter_weights
      else EMPTY_TENSOR.data_ptr() for idx in segment_indices]] *)
Fixpoint ptr_table (property : LoraWeights → Heap → Tensor3 * LoraWeights * Heap)
    (segment_indices : list Z) (st : gmap Z LoraWeights * Heap)
    : list Z * (gmap Z LoraWeights * Heap) :=
  match segment_indices with
  | [] => ([], st)
  | idx :: rest =>
    match access property idx st with
    | Some (t, st') =>
      let '(ptrs, st'') := ptr_table property rest st' in (data_ptr t :: ptrs, st'')
    | None =>
      let '(ptrs, st') := ptr_table property rest st in (EMPTY_PTR :: ptrs, st')
    end
  end.

(** The local variables of [BatchLoraWeights.load] once the pointer tables
    are built (line 314 of the file). *)
Record LoadLocals := mkLoadLocals {
  l_adapter_weights : gmap Z LoraWeights;
  l_heap : Heap;
  l_lora_a : gmap Z Tensor3;
  l_lora_b : gmap Z Tensor3;
  l_segment_ranks : list nat;
  l_max_rank : nat;
  l_use_sgmv : bool;
  l_lora_a_ptr : list Z;
  l_lora_b_ptr : list Z
}.

(** [BatchLoraWeights.load] up to the pointer tables. [inl] is one of the
    two early [return None], with the store as the accesses made so far have
    left it. *)
Definition load_tables (adapter_weights : list (Z * AdapterWeights))
    (meta : AdapterBatchMetadata) (prefill : bool) (h : Heap)
    : (gmap Z LoraWeights * Heap) + LoadLocals :=
  match lora_adapter_items adapter_weights with
  | [] => inl (∅, h)
  | (first_key, _) :: _ =>
    let st := (lora_adapters adapter_weights, h) in
    (* device = first_weights.weights_a.device *)
    let st := match access weights_a first_key st with
              | Some (_, st') => st'
              | None => st
              end in
    let segment_indices := segment_indices meta in
    let '(lora_a, st) := tensor_dict weights_a segment_indices ∅ st in
    let '(lora_b, st) := tensor_dict weights_b segment_indices ∅ st in
    let segment_ranks := segment_ranks_of st.1 segment_indices in
    match segment_ranks with
    | [] => inl st
    | _ :: _ =>
      let max_rank := max_list segment_ranks in
      let use_sgmv := prefill || bool_decide (BGMV_MAX_RANK < max_rank)%nat in
      let '(lora_a_ptr, st) :=
        ptr_table (if use_sgmv then weights_a else weights_a_t) segment_indices st in
      let '(lora_b_ptr, st) :=
        ptr_table (if use_sgmv then weights_b else weights_b_t) segment_indices st in
      inr (mkLoadLocals st.1 st.2 lora_a lora_b segment_ranks max_rank use_sgmv
             lora_a_ptr lora_b_ptr)
    end
  end.

(** The body of the loop over [rank_indices.items()] for one rank group. *)
Definition rank_segments_of (L : LoadLocals) (meta : AdapterBatchMetadata)
    (head_segments : option (list Z * list Z)) (rank : nat) (indices : list nat)
    : option RankSegments :=
  lora_a_ptr_indices ← mapM (λ i, l_lora_a_ptr L !! i) indices;
  lora_b_ptr_indices ← mapM (λ i, l_lora_b_ptr L !! i) indices;
  if l_use_sgmv L then
    let '(tmp_shrink, tmp_expand) := get_tmp_tensors (length lora_a_ptr_indices) rank in
    segment_starts ← mapM (λ i, adapter_segments meta !! i) indices;
    segment_ends ← mapM (λ i, adapter_segments meta !! (i + 1)%nat) indices;
    '(segment_starts, segment_ends) ←
      match head_segments with
      | Some (head_starts, head_ends) =>
        overwrite_segments head_starts head_ends indices 0 segment_starts segment_ends
      | None => Some (segment_starts, segment_ends)
      end;
    Some (mkRankSegments rank lora_a_ptr_indices lora_b_ptr_indices
            (Some tmp_shrink) (Some tmp_expand)
            (Some segment_starts) (Some segment_ends) None)
  else
    idx_locs ← idx_locs_loop (segment_indices meta) indices 0 ∅;
    batch_indices ← batch_indices_of (l_adapter_weights L) rank idx_locs
                      (adapter_indices meta);
    Some (mkRankSegments rank lora_a_ptr_indices lora_b_ptr_indices
            None None None None (Some batch_indices)).

(** The loop building [rank_data]. *)
Definition rank_data_of (L : LoadLocals) (meta : AdapterBatchMetadata)
    (head_segments : option (list Z * list Z)) (rank_indices : gmap nat (list nat))
    : option (gmap nat RankSegments) :=
  list_to_map <$>
    mapM (λ kv, (λ rs, (kv.1, rs)) <$> rank_segments_of L meta head_segments kv.1 kv.2)
      (map_to_list rank_indices).

(** [BatchLoraWeights.load]. The result is paired with the store of adapter
    objects and the allocator state as the call leaves them; the allocator
    state records the blocks that the accesses to the adapters' weights
    created, not the tensors of the aggregation itself ([torch.tensor],
    [get_tmp_tensors], the indexed copies of [adapter_segments]). *)
Definition BatchLoraWeights_load (adapter_weights : list (Z * AdapterWeights))
    (meta : AdapterBatchMetadata) (layer_name : string) (prefill : bool)
    (prefill_head_indices : option (list Z)) (h : Heap)
    : option (option BatchLoraWeights) * (gmap Z LoraWeights * Heap) :=
  match load_tables adapter_weights meta prefill h with
  | inl st => (Some None, st)
  | inr L =>
    let adapter_weights := l_adapter_weights L in
    let adapter_index_configs :=
      adapter_index_configs_of adapter_weights (segment_indices meta) in
    let rank_indices := rank_indices_of adapter_weights (segment_indices meta) in
    (head_segments ←
       match prefill_head_indices with
       | Some head_indices =>
         Some <$> prefill_head_segments (adapter_segments meta) head_indices
       | None => Some None
       end;
     rank_data ← rank_data_of L meta head_segments rank_indices;
     Some (Some (mkBatchLoraWeights (l_lora_a L) (l_lora_b L) adapter_index_configs
                   rank_data (l_use_sgmv L) layer_name prefill_head_indices)),
     (adapter_weights, l_heap L))
  end.

End Aggregation.

(** ** A sample instantiation of the parameters

    The theorems below hold for every allocator, every kernel library and
    every base model. To run the definitions on concrete adapters and
    batches, the parameters are instantiated here. *)

(** A bump allocator handing out blocks of 4096 bytes above the sample
    adapters; its state counts the blocks handed out. The empty tensor has
    the null address. *)
Definition bump_torch : Torch :=
  {| Heap := nat;
     EMPTY_PTR := 0;
     contiguous_ptr := λ h _, (4096 * (Z.of_nat h + 2), S h);
     stack_ptr := λ h, (4096 * (Z.of_nat h + 2), S h) |}.

Definition pad_dim0 (target : nat) (t : Tensor2) : Tensor2 :=
  mkTensor2 (size0 t `max` target) (size1 t)
    (elems t ++ replicate (target - size0 t) (replicate (size1 t) 0%R)).

Definition pad_dim1 (target : nat) (t : Tensor2) : Tensor2 :=
  mkTensor2 (size0 t) (size1 t `max` target)
    (map (λ row, row ++ replicate (target - size1 t) 0%R) (elems t)).

Definition nearest_supported (supported : list nat) (n : nat) : nat :=
  default n (head (filter (λ s, n ≤ s)%nat supported)).

(** Modelled from the spec: [pad_rank] of [lorax_server.utils.punica], which
    is not part of the file. It pads the rank dimension [dim] with zeros up
    to the nearest rank size the kernels support; the supported sizes are an
    injected policy [supported_ranks world_size], sorted increasingly. *)
Definition spec_pad_rank (supported_ranks : Z → list nat)
    (t : Tensor2) (dim : nat) (world_size : Z) : Tensor2 :=
  match dim with
  | O => pad_dim0 (nearest_supported (supported_ranks world_size) (size0 t)) t
  | _ => pad_dim1 (nearest_supported (supported_ranks world_size) (size1 t)) t
  end.

Definition sample_supported_ranks (world_size : Z) : list nat :=
  map (λ k, k * Z.to_nat world_size)%nat [8; 16; 32; 64; 128]%nat.

Definition sample_punica : Punica :=
  {| BGMV_MAX_RANK := 64;
     use_cutlass_shrink := λ lora_rank, bool_decide (lora_rank < 16)%nat;
     orient_for_rank := λ t rank,
       if bool_decide (16 ≤ rank ≤ 128)%nat then transpose_0_1 t else t;
     pad_rank := spec_pad_rank sample_supported_ranks;
     get_tmp_tensors := λ nsegments rank, (0, 0) |}.

(** A base model with two layers per layer type on one device and one shard;
    loading a module weight and sharding leave the tensors as they are. *)
Definition sample_model : Model :=
  {| get_num_layers_for_type := λ _, NumLayersInt 2;
     target_to_layer := λ layer_id layer_type,
       if bool_decide (layer_id = 0) then Some ("layers.0.q_proj", 0)
       else if bool_decide (layer_id = 1) then Some ("layers.1.q_proj", 0)
       else None;
     load_module_weight := λ _ t _, t;
     world_size := 1;
     shard_lora_weights := λ a b _, (a, b) |}.

(** A rank-2 adapter over hidden size 3: A is [r, in], B is [out, r]. *)
Definition sample_A : Tensor2 :=
  mkTensor2 2 3 [[1; 2; 3]; [4; 5; 6]]%R.

Definition sample_B : Tensor2 :=
  mkTensor2 3 2 [[1; 0]; [0; 1]; [2; 2]]%R.

Definition sample_module_map : gmap string ModuleEntry :=
  {[ "layers.0.q_proj" := mkModuleEntry (sample_A, "l0.lora_A.weight") (sample_B, "l0.lora_B.weight");
     "layers.1.q_proj" := mkModuleEntry (sample_A, "l1.lora_A.weight") (sample_B, "l1.lora_B.weight") ]}.

Definition sample_config : LoraConfig :=
  mkLoraConfig "base" 2 (Some ["q_proj"]) false 16 false.

(** Adapter objects as [LoraWeights.__init__] leaves them: two layers, hidden
    size 2, not transposed. [sample_w8] has rank 8 in its metadata and uses
    the cutlass shrink; [sample_w16] does not. *)
Definition sample_block (p : Z) : Tensor3 :=
  mkTensor3 p [mkTensor2 2 2 [[1; 2]; [3; 4]]%R; mkTensor2 2 2 [[5; 6]; [7; 8]]%R].

Definition sample_w8 : LoraWeights :=
  mkLoraWeights 8 8 true false (sample_block 1000) (sample_block 2000) sample_config.

Definition sample_w16 : LoraWeights :=
  mkLoraWeights 16 16 false false (sample_block 3000) (sample_block 4000) sample_config.

Definition sample_w128 : LoraWeights :=
  mkLoraWeights 128 128 false false (sample_block 5000) (sample_block 6000) sample_config.

(** ** Notions used to state the properties *)

(** The fields of an adapter object that no access changes. *)
Definition static (w : LoraWeights) : nat * nat * bool * LoraConfig :=
  (lora_a_r w, lora_b_r w, _use_cutlass_shrink w, adapter_config w).

(** Two stores hold the same adapters, up to their orientation. *)
Definition store_sim (s s' : gmap Z LoraWeights) : Prop :=
  ∀ idx, static <$> s !! idx = static <$> s' !! idx.

(** The values of the two blocks in the orientation state [transposed],
    computed from an object in whatever state it is. *)
Definition flipped_a (w : LoraWeights) : list Tensor2 :=
  if _use_cutlass_shrink w
  then map transpose_0_1 (layers (_weights_a w))
  else layers (_weights_a w).

Definition flipped_b (w : LoraWeights) : list Tensor2 :=
  map transpose_0_1 (layers (_weights_b w)).

Definition values_a (transposed : bool) (w : LoraWeights) : list Tensor2 :=
  if bool_decide (_is_transposed w = transposed)
  then layers (_weights_a w) else flipped_a w.

Definition values_b (transposed : bool) (w : LoraWeights) : list Tensor2 :=
  if bool_decide (_is_transposed w = transposed)
  then layers (_weights_b w) else flipped_b w.

(** What an accessor returns and leaves behind: [target] is the orientation
    state the accessor asks for. *)
Definition accessor_spec `{Torch} (property : LoraWeights → Heap → Tensor3 * LoraWeights * Heap)
    (target : bool) (is_a : bool) : Prop :=
  ∀ w h,
    let '(t, w', h') := property w h in
    t = (if is_a then _weights_a w' else _weights_b w') ∧
    static w' = static w ∧
    _is_transposed w' = target ∧
    layers (_weights_a w') = values_a target w ∧
    layers (_weights_b w') = values_b target w ∧
    (_is_transposed w = target → w' = w ∧ h' = h).


(** [w'] is the adapter [w] brought to the orientation state [target]. *)
Definition in_state (target : bool) (w w' : LoraWeights) : Prop :=
  static w' = static w ∧
  _is_transposed w' = target ∧
  layers (_weights_a w') = values_a target w ∧
  layers (_weights_b w') = values_b target w.

(** The segment positions, counted from [k], whose adapter has weights of
    rank [rank]. *)
Fixpoint group_positions (adapter_weights : gmap Z LoraWeights)
    (segment_indices : list Z) (k : nat) (rank : nat) : list nat :=
  match segment_indices with
  | [] => []
  | adapter_idx :: rest =>
    match adapter_weights !! adapter_idx with
    | Some w =>
      if bool_decide (lora_a_r w = rank)
      then k :: group_positions adapter_weights rest (S k) rank
      else group_positions adapter_weights rest (S k) rank
    | None => group_positions adapter_weights rest (S k) rank
    end
  end.

(** The block an accessor hands out: A or B. *)
Definition selected (is_a : bool) (w : LoraWeights) : Tensor3 :=
  if is_a then _weights_a w else _weights_b w.

(** What a sweep of accesses asking for the state [target] over the segments
    [segs] does to the store: the adapters of the segments are brought to
    that state, and left as they are when they were in it already; the
    others are untouched. *)
Definition swept (target : bool) (segs : list Z) (s s' : gmap Z LoraWeights) : Prop :=
  ∀ idx,
    match s !! idx with
    | None => s' !! idx = None
    | Some w =>
      ∃ w', s' !! idx = Some w' ∧
        (idx ∈ segs → in_state target w w' ∧ (_is_transposed w = target → w' = w)) ∧
        (idx ∉ segs → w' = w)
    end.

(** The store [s'] holds the adapters of [s], each possibly in another
    orientation state. *)
Definition evolved (s s' : gmap Z LoraWeights) : Prop :=
  ∀ idx,
    match s !! idx with
    | None => s' !! idx = None
    | Some w =>
      ∃ w', s' !! idx = Some w' ∧ static w' = static w ∧
        (wf_lora_weights w → wf_lora_weights w' ∧ ∃ t, in_state t w w')
    end.

(** ** Sample batches *)

(** Adapter 1 has rank 8, adapter 2 (wrapped) rank 16, adapter 3 has no LoRA
    weights for the layer, adapter 4 is loaded but in no segment. *)
Definition sample_adapter_weights : list (Z * AdapterWeights) :=
  [(1, LoraAdapter sample_w8);
   (2, WrappedAdapter (LoraAdapter sample_w16));
   (3, OtherAdapter);
   (4, LoraAdapter sample_w8)].

(** A prefill batch: segments [1:0..5, 2:5..9, 1:9..12]. *)
Definition sample_prefill_meta : AdapterBatchMetadata :=
  mkAdapterBatchMetadata [1; 1; 1; 1; 1; 2; 2; 2; 2; 1; 1; 1] [1; 2; 1] [0; 5; 9; 12].

(** A decode batch: one token per segment, the last one without weights. *)
Definition sample_decode_meta : AdapterBatchMetadata :=
  mkAdapterBatchMetadata [1; 2; 1; 3] [1; 2; 1; 3] [0; 1; 2; 3; 4].

(** A batch whose only adapter has no LoRA weights for the layer. *)
Definition sample_idle_meta : AdapterBatchMetadata :=
  mkAdapterBatchMetadata [3; 3] [3] [0; 2].

(** Neither block of the adapter is stored at the address of the empty
    tensor. *)
Definition off_sentinel `{Torch} (w : LoraWeights) : Prop :=
  data_ptr (_weights_a w) ≠ EMPTY_PTR ∧ data_ptr (_weights_b w) ≠ EMPTY_PTR.

(** The accessor [property] keeps the property [P] of adapter objects. *)
Definition preserving `{Torch} (P : LoraWeights → Prop)
    (property : LoraWeights → Heap → Tensor3 * LoraWeights * Heap) : Prop :=
  ∀ w h, P w → P (property w h).1.2.

(** The first location, counted from [loc], at which the positions
    [indices] point to a segment of the adapter [adapter_idx]. *)
Fixpoint first_loc (segment_indices : list Z) (indices : list nat) (loc : nat)
    (adapter_idx : Z) : option nat :=
  match indices with
  | [] => None
  | idx :: rest =>
    if bool_decide (segment_indices !! idx = Some adapter_idx) then Some loc
    else first_loc segment_indices rest (S loc) adapter_idx
  end.

(** ** Well-formed selected positions and the loop invariant *)

(** The selected positions [pos] are increasing, lie in the batch, and every
    one of the [N] segments bounded by [segs] contains one of them. *)
Record head_indices_ok (segs pos : list Z) (N : nat) : Prop := {
  hio_length : length segs = S N;
  hio_segments : (0 < N)%nat;
  hio_sorted : ∀ i i' p p', (i ≤ i')%nat → pos !! i = Some p → pos !! i' = Some p' → p ≤ p';
  hio_in_batch : ∀ i p lo hi, pos !! i = Some p → segs !! 0%nat = Some lo →
                   segs !! N = Some hi → lo ≤ p < hi;
  hio_cover : ∀ k, (k < N)%nat →
                ∃ i p lo hi, pos !! i = Some p ∧ segs !! k = Some lo ∧
                  segs !! S k = Some hi ∧ lo ≤ p < hi
}.

(** The state of the loop over the selected positions once [m] of them are
    processed: [j - 1] is the segment being filled. *)
Record head_inv (segs pos : list Z) (N m j : nat) (starts ends : list Z) : Prop := {
  hi_j : (1 ≤ j ≤ N)%nat ∧ (j ≤ S m)%nat ∧ (m ≤ length pos)%nat;
  hi_length : length starts = j ∧ length ends = j;
  hi_first : starts !! 0%nat = Some 0;
  hi_chain : ∀ k, (S k < j)%nat → ends !! k = starts !! S k;
  hi_last : ends !! (j - 1)%nat = Some (Z.of_nat m);
  hi_bounds : ∀ k s e, starts !! k = Some s → ends !! k = Some e → 0 ≤ s ≤ e ∧ e ≤ Z.of_nat m;
  hi_run : ∀ k s e lo hi i p, starts !! k = Some s → ends !! k = Some e →
             s ≤ Z.of_nat i < e → pos !! i = Some p →
             segs !! k = Some lo → segs !! S k = Some hi → lo ≤ p < hi;
  hi_below : ∀ i p bd, (i < m)%nat → pos !! i = Some p → segs !! j = Some bd → p < bd;
  hi_above : ∀ p lo, (0 < m)%nat → pos !! (m - 1)%nat = Some p →
               segs !! (j - 1)%nat = Some lo → lo ≤ p;
  hi_total : ∀ i, (i < m)%nat →
               ∃ k s e, starts !! k = Some s ∧ ends !! k = Some e ∧ s ≤ Z.of_nat i < e
}.

(** A batch of one segment for the adapter 1. *)
Definition sample_single_meta : AdapterBatchMetadata :=
  mkAdapterBatchMetadata [1; 1; 1] [1] [0; 3].

(** The sample adapter as [LoraWeights.load] returns it for the sample
    model. *)
Definition sample_loaded_w : LoraWeights :=
  match @LoraWeights_load bump_torch sample_punica sample_model sample_config
          sample_module_map "q_proj" ∅ 0%nat with
  | Some (Some w, _, _, _) => w
  | _ => sample_w8
  end.

(** ** The remaining methods of the file *)

(** The two checkpoint names of a module:
    [f"base_model.model.{weight_name}.lora_A.weight"] and its B twin. *)
Definition lora_a_name_of (weight_name : string) : string :=
  "base_model.model." +:+ weight_name +:+ ".lora_A.weight".

Definition lora_b_name_of (weight_name : string) : string :=
  "base_model.model." +:+ weight_name +:+ ".lora_B.weight".

(** One iteration of the loop of [LoraConfig.map_weights_for_model] over
    [weight_names]. *)
Definition map_weights_step (adapter_weights : gmap string Tensor2)
    (acc : gmap string ModuleEntry * gset string) (weight_name : string)
    : gmap string ModuleEntry * gset string :=
  let '(module_map, adapter_weight_names) := acc in
  let lora_a_name := lora_a_name_of weight_name in
  let lora_b_name := lora_b_name_of weight_name in
  match adapter_weights !! lora_a_name, adapter_weights !! lora_b_name with
  | Some a, Some b =>
    (<[weight_name := mkModuleEntry (a, lora_a_name) (b, lora_b_name)]> module_map,
     adapter_weight_names ∪ {[lora_a_name]} ∪ {[lora_b_name]})
  | _, _ => (module_map, adapter_weight_names)
  end.

(** [LoraConfig.map_weights_for_model]: the module map and the set of
    checkpoint names it consumed. The method does not read [self]. *)
Definition map_weights_for_model (adapter_weights : gmap string Tensor2)
    (weight_names : list string) : gmap string ModuleEntry * gset string :=
  foldl (map_weights_step adapter_weights) (∅, ∅) weight_names.

(** [LoraConfig.load_batched_adapter_weights]: [self] is the config that
    [LoraWeights.load] reads and overwrites; [dynamic] is not used. *)
Definition load_batched_adapter_weights `{Torch} `{Punica} `{Model}
    (self : LoraConfig) (module_map : gmap string ModuleEntry) (layer_type : string)
    (unused_weight_names : gset string) (dynamic : bool) (h : Heap)
    : option (option LoraWeights * LoraConfig * gset string * Heap) :=
  LoraWeights_load self module_map layer_type unused_weight_names h.

(** [BatchLoraWeights.can_vectorize], with [pg.size()] as [pg_size].
    [MAX_RANK_CUSTOM] and [LM_HEAD] are constants of modules that are not
    part of the file. The division raises for a zero [pg_size] as soon as
    there is a rank group to divide. *)
Definition can_vectorize (MAX_RANK_CUSTOM : Z) (LM_HEAD : string)
    (self : BatchLoraWeights) (pg_size : Z) : option bool :=
  if bool_decide (pg_size = 0) && negb (bool_decide (rank_data self = ∅)) then None
  else
    Some (bool_decide (map_Forall (λ _ rank_data,
                         Z.of_nat (rank rank_data) `div` pg_size ≤ MAX_RANK_CUSTOM)
                         (rank_data self))
          && negb (bool_decide (layer_name self = LM_HEAD))).


(** A checkpoint with both tensors of the two [q_proj] modules, only the A
    tensor of a [k_proj] module, and a tensor that belongs to no module. *)
Definition sample_checkpoint : gmap string Tensor2 :=
  {[ "base_model.model.layers.0.q_proj.lora_A.weight" := sample_A;
     "base_model.model.layers.0.q_proj.lora_B.weight" := sample_B;
     "base_model.model.layers.1.q_proj.lora_A.weight" := sample_A;
     "base_model.model.layers.1.q_proj.lora_B.weight" := sample_B;
     "base_model.model.layers.0.k_proj.lora_A.weight" := sample_A;
     "extra.weight" := sample_B ]}.

Definition sample_weight_names : list string :=
  ["layers.0.q_proj"; "layers.1.q_proj"; "layers.0.k_proj"].

(** A decode batch with a token of the adapter 4, which has weights of rank
    8 but no segment. *)
Definition sample_stray_meta : AdapterBatchMetadata :=
  mkAdapterBatchMetadata [1; 4] [1] [0; 2].

(** A base model with one layer per layer type, named after the type, on one
    device and one shard. *)
Definition sample_typed_model : Model :=
  {| get_num_layers_for_type := λ _, NumLayersInt 1;
     target_to_layer := λ layer_id layer_type,
       if bool_decide (layer_id = 0) then Some ("layers.0." +:+ layer_type, 0) else None;
     load_module_weight := λ _ t _, t;
     world_size := 1;
     shard_lora_weights := λ a b _, (a, b) |}.

(** An adapter with the same rank-2 pair of tensors for the [q_proj] and the
    [v_proj] module of that layer. *)
Definition sample_typed_module_map : gmap string ModuleEntry :=
  {[ "layers.0.q_proj" :=
       mkModuleEntry (sample_A, "q.lora_A.weight") (sample_B, "q.lora_B.weight");
     "layers.0.v_proj" :=
       mkModuleEntry (sample_A, "v.lora_A.weight") (sample_B, "v.lora_B.weight") ]}.
(** ** Transposition is an involution on well-formed tensors *)

Lemma lookup_map_seq {A} (f : nat → A) n i :
  (i < n)%nat → map f (seq 0 n) !! i = Some (f i).
Proof. intros Hi. rewrite list_lookup_fmap, lookup_seq_lt by done. done. Qed.

Lemma lookup_map_seq_ge {A} (f : nat → A) n i :
  (n ≤ i)%nat → map f (seq 0 n) !! i = None.
Proof. intros Hi. apply lookup_ge_None. by rewrite length_map, length_seq. Qed.

Lemma transpose_0_1_wf t : wf_tensor2 t → wf_tensor2 (transpose_0_1 t).
Proof.
  intros [Hlen _]. split; simpl.
  - by rewrite length_map, length_seq.
  - apply Forall_forall. intros row Hrow.
    apply list_elem_of_In, in_map_iff in Hrow as (j & <- & _).
    by rewrite length_map.
Qed.

Lemma transpose_0_1_involutive t :
  wf_tensor2 t → transpose_0_1 (transpose_0_1 t) = t.
Proof.
  destruct t as [n m rows]. intros [Hlen Hrows]. simpl in *.
  unfold transpose_0_1. simpl. f_equal.
  apply list_eq. intros i.
  destruct (decide (i < n)%nat) as [Hi|Hi].
  - rewrite lookup_map_seq by done.
    destruct (lookup_lt_is_Some_2 rows i) as [row Hrow]; [lia|].
    rewrite Hrow. f_equal.
    assert (Hm : length row = m).
    { eapply (proj1 (Forall_forall _ _) Hrows), list_elem_of_lookup_2, Hrow. }
    apply list_eq. intros j.
    rewrite list_lookup_fmap.
    destruct (decide (j < m)%nat) as [Hj|Hj].
    + rewrite lookup_map_seq by done. simpl.
      rewrite nth_lookup, list_lookup_fmap, Hrow. simpl.
      rewrite nth_lookup.
      destruct (lookup_lt_is_Some_2 row j) as [x Hx]; [lia|].
      by rewrite Hx.
    + rewrite lookup_map_seq_ge by lia. simpl.
      symmetry. apply lookup_ge_None. lia.
  - rewrite lookup_map_seq_ge by lia.
    symmetry. apply lookup_ge_None. lia.
Qed.

Lemma map_transpose_0_1_involutive ts :
  Forall wf_tensor2 ts → map transpose_0_1 (map transpose_0_1 ts) = ts.
Proof.
  induction 1 as [|t ts Ht _ IH]; simpl; [done|].
  by rewrite transpose_0_1_involutive, IH.
Qed.

Lemma sample_block_wf p : wf_tensor3 (sample_block p).
Proof. unfold wf_tensor3, wf_tensor2. simpl. repeat constructor. Qed.

(** ** The orientation toggle *)

Section OrientationFacts.
Context `{Torch}.

Lemma _transpose_weights_spec w h :
  let w' := (_transpose_weights w h).1 in
  static w' = static w ∧
  _is_transposed w' = negb (_is_transposed w) ∧
  layers (_weights_a w') = flipped_a w ∧
  layers (_weights_b w') = flipped_b w.
Proof.
  unfold _transpose_weights, flipped_a, flipped_b, transpose_1_2_contiguous, static.
  destruct (_use_cutlass_shrink w) eqn:Hc.
  - destruct (contiguous_ptr h _) as [p1 h1].
    by destruct (contiguous_ptr h1 _) as [p2 h2].
  - by destruct (contiguous_ptr h _) as [p2 h2].
Qed.

Lemma _transpose_weights_wf w h :
  wf_lora_weights w → wf_lora_weights (_transpose_weights w h).1.
Proof.
  intros [Ha Hb].
  destruct (_transpose_weights_spec w h) as (_ & _ & Hla & Hlb).
  split; unfold wf_tensor3.
  - rewrite Hla. unfold flipped_a. destruct (_use_cutlass_shrink w); [|done].
    apply Forall_fmap. eapply Forall_impl; [exact Ha|].
    intros t Ht. by apply transpose_0_1_wf.
  - rewrite Hlb. apply Forall_fmap. eapply Forall_impl; [exact Hb|].
    intros t Ht. by apply transpose_0_1_wf.
Qed.

(** Two flips give back the values and the flag. *)
Lemma _transpose_weights_twice w h h' :
  wf_lora_weights w →
  let w2 := (_transpose_weights (_transpose_weights w h).1 h').1 in
  layers (_weights_a w2) = layers (_weights_a w) ∧
  layers (_weights_b w2) = layers (_weights_b w) ∧
  _is_transposed w2 = _is_transposed w ∧
  static w2 = static w.
Proof.
  intros [Ha Hb]. simpl.
  destruct (_transpose_weights_spec w h) as (Hs1 & Ht1 & Ha1 & Hb1).
  destruct (_transpose_weights_spec (_transpose_weights w h).1 h')
    as (Hs2 & Ht2 & Ha2 & Hb2).
  simpl in *.
  assert (Hc : _use_cutlass_shrink (_transpose_weights w h).1 = _use_cutlass_shrink w).
  { unfold static in Hs1. congruence. }
  unfold flipped_a, flipped_b in *. rewrite Hc in Ha2.
  rewrite Ha2, Hb2, Ht2, Ht1, Hs2, Hs1, Ha1, Hb1.
  split_and!; [|by apply map_transpose_0_1_involutive|by destruct (_is_transposed w)|done].
  destruct (_use_cutlass_shrink w); [|done].
  by apply map_transpose_0_1_involutive.
Qed.

Lemma accessor_spec_gen (target is_a : bool) :
  accessor_spec
    (λ w h,
       let '(w', h') :=
         if (if target then negb (_is_transposed w) else _is_transposed w)
         then _transpose_weights w h else (w, h) in
       ((if is_a then _weights_a w' else _weights_b w'), w', h'))
    target is_a.
Proof.
  intros w h.
  destruct (_transpose_weights_spec w h) as (Hs & Ht & Ha & Hb).
  unfold values_a, values_b.
  destruct target, (_is_transposed w) eqn:Hw; simpl in *;
    try (destruct (_transpose_weights w h) as [w' h'] eqn:Hflip; simpl in * );
    rewrite ?Hw; simpl; split_and!; try done.
Qed.

Lemma weights_a_spec : accessor_spec weights_a false true.
Proof. exact (accessor_spec_gen false true). Qed.

Lemma weights_b_spec : accessor_spec weights_b false false.
Proof. exact (accessor_spec_gen false false). Qed.

Lemma weights_a_t_spec : accessor_spec weights_a_t true true.
Proof. exact (accessor_spec_gen true true). Qed.

Lemma weights_b_t_spec : accessor_spec weights_b_t true false.
Proof. exact (accessor_spec_gen true false). Qed.

End OrientationFacts.

(** C8. Flipping the orientation twice is the identity on the weight values:
    reading the transposed accessors [weights_a_t], [weights_b_t] and then the
    original accessors [weights_a], [weights_b] of an adapter object in its
    load-time state returns A and B blocks whose layers are equal, shape and
    entry by entry, to the load-time ones, whether the object uses the cutlass
    shrink or not. On the flip the B block is transposed in both
    configurations and the A block only in the cutlass-shrink one. *)
Theorem C8_orientation_round_trip `{Torch} (w : LoraWeights) (h : Heap) :
  wf_lora_weights w →
  _is_transposed w = false →
  let '(a_t, w1, h1) := weights_a_t w h in
  let '(b_t, w2, h2) := weights_b_t w1 h1 in
  let '(a, w3, h3) := weights_a w2 h2 in
  let '(b, w4, h4) := weights_b w3 h3 in
  layers a = layers (_weights_a w) ∧
  layers b = layers (_weights_b w) ∧
  _is_transposed w4 = false ∧
  _is_transposed w2 = true ∧
  layers b_t = map transpose_0_1 (layers (_weights_b w)) ∧
  layers a_t = (if _use_cutlass_shrink w
                then map transpose_0_1 (layers (_weights_a w))
                else layers (_weights_a w)).
Proof.
  intros Hwf Hf.
  unfold weights_a_t, weights_b_t, weights_a, weights_b. rewrite Hf. simpl.
  pose proof (_transpose_weights_spec w h) as S1.
  destruct (_transpose_weights w h) as [w1 h1] eqn:E1. simpl in S1.
  destruct S1 as (Hs1 & Ht1 & Ha1 & Hb1).
  rewrite Hf in Ht1. simpl in Ht1. rewrite Ht1. simpl.
  pose proof (_transpose_weights_twice w h h1 Hwf) as S2.
  rewrite E1 in S2. simpl in S2.
  destruct (_transpose_weights w1 h1) as [w2 h2] eqn:E2. simpl in S2.
  destruct S2 as (Ha2 & Hb2 & Ht2 & Hs2).
  rewrite Hf in Ht2. rewrite Ht1. simpl. rewrite Ht2. simpl.
  by split_and!.
Qed.

(** The round trip on the sample adapters, one for each configuration. *)
Lemma C8_orientation_round_trip_witness :
  (let '(a_t, w1, h1) := @weights_a_t bump_torch sample_w8 0%nat in
   let '(b_t, w2, h2) := @weights_b_t bump_torch w1 h1 in
   let '(a, w3, h3) := @weights_a bump_torch w2 h2 in
   let '(b, w4, h4) := @weights_b bump_torch w3 h3 in
   layers a = layers (_weights_a sample_w8) ∧
   layers b = layers (_weights_b sample_w8) ∧
   _is_transposed w4 = false ∧
   _is_transposed w2 = true ∧
   layers b_t = map transpose_0_1 (layers (_weights_b sample_w8)) ∧
   layers a_t = (if _use_cutlass_shrink sample_w8
                 then map transpose_0_1 (layers (_weights_a sample_w8))
                 else layers (_weights_a sample_w8))) ∧
  (let '(a_t, w1, h1) := @weights_a_t bump_torch sample_w16 0%nat in
   let '(b_t, w2, h2) := @weights_b_t bump_torch w1 h1 in
   let '(a, w3, h3) := @weights_a bump_torch w2 h2 in
   let '(b, w4, h4) := @weights_b bump_torch w3 h3 in
   layers a = layers (_weights_a sample_w16) ∧
   layers b = layers (_weights_b sample_w16) ∧
   _is_transposed w4 = false ∧
   _is_transposed w2 = true ∧
   layers b_t = map transpose_0_1 (layers (_weights_b sample_w16)) ∧
   layers a_t = (if _use_cutlass_shrink sample_w16
                 then map transpose_0_1 (layers (_weights_a sample_w16))
                 else layers (_weights_a sample_w16))).
Proof.
  split.
  - apply (@C8_orientation_round_trip bump_torch sample_w8 0%nat).
    + split; apply sample_block_wf.
    + reflexivity.
  - apply (@C8_orientation_round_trip bump_torch sample_w16 0%nat).
    + split; apply sample_block_wf.
    + reflexivity.
Defined.

(** ** The scaling factor is merged into B *)

Section LoaderFacts.
Context `{Model}.

Lemma load_layers_entries config module_map layer_type layer_ids unused la lb unused' :
  load_layers config module_map layer_type layer_ids unused = Some (Some (la, lb), unused') →
  length la = length layer_ids ∧ length lb = length layer_ids ∧
  ∀ i layer_id, layer_ids !! i = Some layer_id →
    ∃ weight_name device entry,
      target_to_layer layer_id layer_type = Some (weight_name, device) ∧
      module_map !! weight_name = Some entry ∧
      ∃ a b,
        merged_layer_weights config
          (load_module_weight (lora_A entry).2 (lora_A entry).1 device)
          (load_module_weight (lora_B entry).2 (lora_B entry).1 device) = Some (a, b) ∧
        la !! i = Some a ∧ lb !! i = Some b.
Proof.
  revert unused la lb unused'.
  induction layer_ids as [|layer_id rest IH]; intros unused la lb unused' Hload; simpl in Hload.
  - simplify_eq. split_and!; [done..|]. intros i layer_id Hi. by rewrite lookup_nil in Hi.
  - destruct (target_to_layer layer_id layer_type) as [[weight_name device]|] eqn:Ht;
      simpl in Hload; [|done].
    destruct (module_map !! weight_name) as [entry|] eqn:Hm; [|by simplify_eq].
    destruct entry as [[lora_a lora_a_name] [lora_b lora_b_name]]. simpl in Hload.
    destruct (merged_layer_weights config _ _) as [[a_i b_i]|] eqn:Hmerge;
      simpl in Hload; [|done].
    destruct (load_layers config module_map layer_type rest _)
      as [[[[la' lb']|] u']|] eqn:Hrec; simpl in Hload; simplify_eq.
    destruct (IH _ _ _ _ Hrec) as (Hla & Hlb & Hent).
    split_and!; simpl; [lia..|].
    intros [|i] lid Hi; simpl in Hi.
    + simplify_eq. exists weight_name, device, (mkModuleEntry (lora_a, lora_a_name) (lora_b, lora_b_name)).
      split_and!; [done..|]. exists a_i, b_i. by split_and!.
    + by apply Hent.
Qed.

End LoaderFacts.

(** C6. The factor is computed from the rank that the config holds when the
    load starts, and a load overwrites that rank with the padded one. On the
    sample adapter (rank 2, alpha 16, no rank-stabilized scaling), whose
    [q_proj] and [v_proj] modules hold the same two tensors, loading
    [q_proj] and then [v_proj] through the same config pads the rank to 8
    and stores the same unscaled A twice, but B multiplied by [16 / 2] for
    [q_proj] and by [16 / 8] for [v_proj]: the second factor is alpha over
    the padded rank, not alpha over the rank of the adapter. *)
Theorem C6_scale_depends_on_load_order :
  ∃ wq config1 unused1 h1 wv config2 unused2 h2,
    @load_batched_adapter_weights bump_torch sample_punica sample_typed_model
      sample_config sample_typed_module_map "q_proj" ∅ false 0%nat
      = Some (Some wq, config1, unused1, h1) ∧
    @load_batched_adapter_weights bump_torch sample_punica sample_typed_model
      config1 sample_typed_module_map "v_proj" unused1 false h1
      = Some (Some wv, config2, unused2, h2) ∧
    lora_alpha sample_config = 16 ∧ r sample_config = 2 ∧
    use_rslora sample_config = false ∧
    size0 sample_A = 2%nat ∧ size1 sample_B = 2%nat ∧
    lora_alpha config1 = 16 ∧ r config1 = 8 ∧ use_rslora config1 = false ∧
    get_scaling_factor (lora_alpha sample_config) (r sample_config)
      (use_rslora sample_config) = Some (IZR 16 / IZR 2)%R ∧
    get_scaling_factor (lora_alpha config1) (r config1) (use_rslora config1)
      = Some (IZR 16 / IZR 8)%R ∧
    layers (_weights_b wq) =
      [@pad_rank sample_punica
         (scale_tensor (IZR 16 / IZR 2) (transpose_0_1 sample_B)) 0 1] ∧
    layers (_weights_b wv) =
      [@pad_rank sample_punica
         (scale_tensor (IZR 16 / IZR 8) (transpose_0_1 sample_B)) 0 1] ∧
    layers (_weights_a wq) = [@pad_rank sample_punica (transpose_0_1 sample_A) 1 1] ∧
    layers (_weights_a wv) = layers (_weights_a wq) ∧
    (IZR 16 / IZR 2 ≠ IZR 16 / IZR 8)%R ∧
    layers (_weights_b wv) ≠ layers (_weights_b wq).
Proof.
  eexists _, _, _, _, _, _, _, _. split_and!.
  - vm_compute. reflexivity.
  - vm_compute. reflexivity.
  - reflexivity.
  - reflexivity.
  - reflexivity.
  - reflexivity.
  - reflexivity.
  - reflexivity.
  - reflexivity.
  - reflexivity.
  - vm_compute. reflexivity.
  - vm_compute. reflexivity.
  - vm_compute. reflexivity.
  - vm_compute. reflexivity.
  - vm_compute. reflexivity.
  - vm_compute. reflexivity.
  - lra.
  - simpl. intros Heq.
    apply (f_equal (λ ts : list Tensor2,
             nth 0 (nth 0 (elems (nth 0 ts (mkTensor2 0 0 []))) []) 0%R)) in Heq.
    simpl in Heq. lra.
Qed.

(** ** Accesses to the store *)

Lemma store_sim_refl s : store_sim s s.
Proof. by intros idx. Qed.

Lemma store_sim_trans s1 s2 s3 : store_sim s1 s2 → store_sim s2 s3 → store_sim s1 s3.
Proof. intros H12 H23 idx. by rewrite H12. Qed.

Lemma store_sim_sym s1 s2 : store_sim s1 s2 → store_sim s2 s1.
Proof. intros H12 idx. by rewrite H12. Qed.

Lemma store_sim_insert s idx w w' :
  s !! idx = Some w → static w' = static w → store_sim s (<[idx := w']> s).
Proof.
  intros Hw Hs idx'. destruct (decide (idx = idx')) as [<-|Hne].
  - rewrite lookup_insert_eq, Hw. simpl. by rewrite Hs.
  - by rewrite lookup_insert_ne.
Qed.

Lemma store_sim_lookup s s' idx w :
  store_sim s s' → s !! idx = Some w →
  ∃ w', s' !! idx = Some w' ∧ static w' = static w.
Proof.
  intros Hsim Hw. specialize (Hsim idx). rewrite Hw in Hsim. simpl in Hsim.
  destruct (s' !! idx) as [w'|]; [|done]. exists w'. split; [done|]. simpl in Hsim. congruence.
Qed.

Lemma store_sim_lookup_None s s' idx :
  store_sim s s' → s !! idx = None → s' !! idx = None.
Proof.
  intros Hsim Hw. specialize (Hsim idx). rewrite Hw in Hsim.
  by destruct (s' !! idx).
Qed.

Lemma store_sim_rank s s' idx :
  store_sim s s' → lora_a_r <$> s !! idx = lora_a_r <$> s' !! idx.
Proof.
  intros Hsim. specialize (Hsim idx).
  destruct (s !! idx) as [w|], (s' !! idx) as [w'|]; simpl in *; try done.
  unfold static in Hsim. congruence.
Qed.

Lemma store_sim_config s s' idx :
  store_sim s s' → adapter_config <$> s !! idx = adapter_config <$> s' !! idx.
Proof.
  intros Hsim. specialize (Hsim idx).
  destruct (s !! idx) as [w|], (s' !! idx) as [w'|]; simpl in *; try done.
  unfold static in Hsim. congruence.
Qed.

Lemma values_flip_twice w : wf_lora_weights w →
  (if _use_cutlass_shrink w
   then map transpose_0_1 (flipped_a w) else flipped_a w) = layers (_weights_a w) ∧
  map transpose_0_1 (flipped_b w) = layers (_weights_b w).
Proof.
  intros [Ha Hb]. unfold flipped_a, flipped_b. split.
  - destruct (_use_cutlass_shrink w); [|done]. by apply map_transpose_0_1_involutive.
  - by apply map_transpose_0_1_involutive.
Qed.

Lemma in_state_refl w : in_state (_is_transposed w) w w.
Proof.
  unfold in_state, values_a, values_b. by rewrite bool_decide_eq_true_2.
Qed.

Lemma in_state_trans t1 t2 w0 w1 w2 :
  wf_lora_weights w0 →
  in_state t1 w0 w1 → in_state t2 w1 w2 → in_state t2 w0 w2.
Proof.
  intros Hwf (Hs1 & Ht1 & Ha1 & Hb1) (Hs2 & Ht2 & Ha2 & Hb2).
  destruct (values_flip_twice w0 Hwf) as [Hfa Hfb].
  assert (Hc : _use_cutlass_shrink w1 = _use_cutlass_shrink w0).
  { unfold static in Hs1. congruence. }
  unfold in_state. split_and!; [congruence|done|..].
  - rewrite Ha2. unfold values_a in *. rewrite Ht1.
    unfold flipped_a at 1. rewrite Hc, Ha1.
    destruct t1, t2, (_is_transposed w0); simpl in *; try done.
  - rewrite Hb2. unfold values_b in *. rewrite Ht1.
    unfold flipped_b at 1. rewrite Hb1.
    destruct t1, t2, (_is_transposed w0); simpl in *; try done.
Qed.

Lemma in_state_wf target w w' :
  wf_lora_weights w → in_state target w w' → wf_lora_weights w'.
Proof.
  intros [Ha Hb] (_ & _ & Hla & Hlb).
  assert (Ht : ∀ ts, Forall wf_tensor2 ts → Forall wf_tensor2 (map transpose_0_1 ts)).
  { intros ts Hts. apply Forall_fmap. eapply Forall_impl; [exact Hts|].
    intros t ?. by apply transpose_0_1_wf. }
  split; unfold wf_tensor3.
  - rewrite Hla. unfold values_a, flipped_a.
    case_bool_decide; [done|]. destruct (_use_cutlass_shrink w); [by apply Ht|done].
  - rewrite Hlb. unfold values_b, flipped_b.
    case_bool_decide; [done|]. by apply Ht.
Qed.

Section AccessFacts.
Context `{Torch}.
Variable property : LoraWeights → Heap → Tensor3 * LoraWeights * Heap.
Variables target is_a : bool.
Hypothesis property_spec : accessor_spec property target is_a.

Local Abbreviation selected := (selected is_a).
Local Abbreviation swept := (swept target).

Lemma access_None idx st : access property idx st = None ↔ st.1 !! idx = None.
Proof.
  unfold access. destruct (st.1 !! idx) as [w|]; simpl; [|done].
  by destruct (property w st.2) as [[t w'] h'].
Qed.

Lemma access_Some idx st t st' :
  access property idx st = Some (t, st') →
  ∃ w w', st.1 !! idx = Some w ∧ st'.1 = <[idx := w']> st.1 ∧
    t = selected w' ∧ in_state target w w' ∧
    (_is_transposed w = target → w' = w).
Proof.
  unfold access. destruct (st.1 !! idx) as [w|] eqn:Hw; simpl; [|done].
  pose proof (property_spec w st.2) as Hp.
  destruct (property w st.2) as [[t0 w'] h']. intros ?; simplify_eq/=.
  destruct Hp as (Ht & Hs & Hf & Ha & Hb & Hid).
  exists w, w'. split_and!; try done. intros Heq. by destruct (Hid Heq).
Qed.

Lemma swept_nil s : swept [] s s.
Proof.
  intros idx. destruct (s !! idx) as [w|]; [|done].
  exists w. split_and!; [done| |done]. intros Hin. by apply elem_of_nil in Hin.
Qed.

Lemma swept_cons idx0 w w' rest s s' :
  s !! idx0 = Some w → in_state target w w' → (_is_transposed w = target → w' = w) →
  swept rest (<[idx0 := w']> s) s' →
  swept (idx0 :: rest) s s' ∧ s' !! idx0 = Some w'.
Proof.
  intros Hw Hin Hid Hsw.
  assert (Hfin : s' !! idx0 = Some w').
  { specialize (Hsw idx0). rewrite lookup_insert_eq in Hsw.
    destruct Hsw as (w'' & Hw'' & Hyes & Hno).
    destruct (decide (idx0 ∈ rest)) as [Hr|Hr].
    - destruct (Hyes Hr) as [_ Hsame]. rewrite Hsame in Hw''; [done|]. apply Hin.
    - by rewrite (Hno Hr) in Hw''. }
  split; [|done]. intros idx. destruct (decide (idx = idx0)) as [->|Hne].
  - rewrite Hw. exists w'. split_and!; [done|done|].
    intros Hnot. exfalso. apply Hnot. by left.
  - specialize (Hsw idx). rewrite lookup_insert_ne in Hsw by done.
    destruct (s !! idx) as [v|]; [|done].
    destruct Hsw as (v' & Hv' & Hyes & Hno). exists v'. split_and!; [done|..].
    + intros Hin'. apply Hyes. apply elem_of_cons in Hin' as [?|?]; [done|done].
    + intros Hnot. apply Hno. intros ?. apply Hnot. by right.
Qed.

Lemma swept_cons_absent idx0 rest s s' :
  s !! idx0 = None → swept rest s s' → swept (idx0 :: rest) s s'.
Proof.
  intros Hnone Hsw idx. specialize (Hsw idx).
  destruct (s !! idx) as [v|] eqn:Hv; [|done].
  assert (idx ≠ idx0) by congruence.
  destruct Hsw as (v' & Hv' & Hyes & Hno). exists v'. split_and!; [done|..].
  - intros Hin'. apply Hyes. apply elem_of_cons in Hin' as [?|?]; [done|done].
  - intros Hnot. apply Hno. intros ?. apply Hnot. by right.
Qed.

Lemma ptr_table_spec segs st :
  let '(ptrs, st') := ptr_table property segs st in
  length ptrs = length segs ∧
  swept segs st.1 st'.1 ∧
  ∀ i idx, segs !! i = Some idx →
    ptrs !! i = Some (match st'.1 !! idx with
                      | Some w' => data_ptr (selected w')
                      | None => EMPTY_PTR
                      end).
Proof.
  revert st. induction segs as [|idx0 rest IH]; intros st; simpl.
  - split_and!; [done|apply swept_nil|]. intros i idx Hi. by rewrite lookup_nil in Hi.
  - destruct (access property idx0 st) as [[t st1]|] eqn:Hacc.
    + apply access_Some in Hacc as (w & w' & Hw & Hst1 & Ht & Hin & Hid).
      specialize (IH st1). destruct (ptr_table property rest st1) as [ptrs st'].
      destruct IH as (Hlen & Hsw & Hptr). rewrite Hst1 in Hsw.
      destruct (swept_cons _ _ _ _ _ _ Hw Hin Hid Hsw) as [Hsw' Hfin].
      split_and!; [simpl; lia|done|].
      intros [|i] idx Hi; simpl in *.
      * simplify_eq. by rewrite Hfin.
      * by apply Hptr.
    + apply access_None in Hacc.
      specialize (IH st). destruct (ptr_table property rest st) as [ptrs st'].
      destruct IH as (Hlen & Hsw & Hptr).
      pose proof (swept_cons_absent _ _ _ _ Hacc Hsw) as Hsw'.
      split_and!; [simpl; lia|done|].
      intros [|i] idx Hi; simpl in *.
      * simplify_eq. specialize (Hsw idx). rewrite Hacc in Hsw. by rewrite Hsw.
      * by apply Hptr.
Qed.

Lemma tensor_dict_spec segs acc st :
  let '(d, st') := tensor_dict property segs acc st in
  swept segs st.1 st'.1.
Proof.
  revert acc st. induction segs as [|idx0 rest IH]; intros acc st; simpl.
  - apply swept_nil.
  - destruct (access property idx0 st) as [[t st1]|] eqn:Hacc.
    + apply access_Some in Hacc as (w & w' & Hw & Hst1 & Ht & Hin & Hid).
      specialize (IH (<[idx0 := t]> acc) st1).
      destruct (tensor_dict property rest _ st1) as [d st'].
      rewrite Hst1 in IH.
      by destruct (swept_cons _ _ _ _ _ _ Hw Hin Hid IH).
    + apply access_None in Hacc.
      specialize (IH acc st). destruct (tensor_dict property rest acc st) as [d st'].
      by apply swept_cons_absent.
Qed.

Lemma swept_store_sim segs s s' : swept segs s s' → store_sim s s'.
Proof.
  intros Hsw idx. specialize (Hsw idx).
  destruct (s !! idx) as [w|]; [|by rewrite Hsw].
  destruct Hsw as (w' & -> & Hyes & Hno). simpl. f_equal.
  destruct (decide (idx ∈ segs)) as [Hin|Hin].
  - destruct (Hyes Hin) as [(Hs & _) _]. done.
  - by rewrite (Hno Hin).
Qed.

End AccessFacts.

Lemma evolved_refl s : evolved s s.
Proof.
  intros idx. destruct (s !! idx) as [w|]; [|done].
  exists w. split_and!; [done..|]. intros Hwf. split; [done|].
  exists (_is_transposed w). apply in_state_refl.
Qed.

Lemma evolved_trans s1 s2 s3 : evolved s1 s2 → evolved s2 s3 → evolved s1 s3.
Proof.
  intros H12 H23 idx. specialize (H12 idx). specialize (H23 idx).
  destruct (s1 !! idx) as [w1|].
  - destruct H12 as (w2 & Hw2 & Hs2 & Hwf2). rewrite Hw2 in H23.
    destruct H23 as (w3 & Hw3 & Hs3 & Hwf3).
    exists w3. split_and!; [done|congruence|].
    intros Hwf1. destruct (Hwf2 Hwf1) as (Hwfw2 & t2 & Hin2).
    destruct (Hwf3 Hwfw2) as (Hwfw3 & t3 & Hin3).
    split; [done|]. exists t3. by eapply in_state_trans.
  - by rewrite H12 in H23.
Qed.

Lemma swept_evolved target segs s s' : swept target segs s s' → evolved s s'.
Proof.
  intros Hsw idx. specialize (Hsw idx).
  destruct (s !! idx) as [w|]; [|done].
  destruct Hsw as (w' & Hw' & Hyes & Hno). exists w'.
  destruct (decide (idx ∈ segs)) as [Hin|Hin].
  - destruct (Hyes Hin) as [Hst _]. split_and!; [done|apply Hst|].
    intros Hwf. split; [by eapply in_state_wf|by exists target].
  - pose proof (Hno Hin) as ->. split_and!; [done..|]. intros Hwf. split; [done|].
    exists (_is_transposed w). apply in_state_refl.
Qed.

Lemma evolved_store_sim s s' : evolved s s' → store_sim s s'.
Proof.
  intros Hev idx. specialize (Hev idx).
  destruct (s !! idx) as [w|]; [|by rewrite Hev].
  destruct Hev as (w' & -> & Hs & _). simpl. by rewrite Hs.
Qed.

(** A second sweep for the same state over the same segments changes
    nothing. *)
Lemma swept_again target segs s1 s2 s3 :
  swept target segs s1 s2 → swept target segs s2 s3 → s3 = s2.
Proof.
  intros H12 H23. apply map_eq. intros idx.
  specialize (H12 idx). specialize (H23 idx).
  destruct (s1 !! idx) as [w1|].
  - destruct H12 as (w2 & Hw2 & Hyes & Hno). rewrite Hw2 in H23. rewrite Hw2.
    destruct H23 as (w3 & -> & Hyes3 & Hno3). f_equal.
    destruct (decide (idx ∈ segs)) as [Hin|Hin].
    + destruct (Hyes Hin) as [(_ & Ht & _) _].
      destruct (Hyes3 Hin) as [_ Hsame]. by apply Hsame.
    + by apply Hno3.
  - rewrite H12 in H23. by rewrite H12.
Qed.

Lemma segment_ranks_of_sim s s' segs :
  store_sim s s' → segment_ranks_of s segs = segment_ranks_of s' segs.
Proof.
  intros Hsim. unfold segment_ranks_of.
  induction segs as [|idx rest IH]; [done|]. cbn.
  rewrite (store_sim_rank _ _ idx Hsim). by destruct (s' !! idx); simpl; rewrite IH.
Qed.

Section TablesFacts.
Context `{Torch} `{Punica}.

Lemma load_tables_inl adapter_weights meta prefill h st :
  load_tables adapter_weights meta prefill h = inl st →
  lora_adapter_items adapter_weights = [] ∨
  segment_ranks_of (lora_adapters adapter_weights) (segment_indices meta) = [].
Proof.
  unfold load_tables.
  destruct (lora_adapter_items adapter_weights) as [|[first_key w0] items] eqn:Hitems;
    [by left|].
  intros Hload. right.
  set (st0 := (lora_adapters adapter_weights, h)) in *.
  assert (∃ st1, swept false [first_key] st0.1 st1.1 ∧
            match access weights_a first_key st0 with
            | Some (_, st') => st'
            | None => st0
            end = st1) as (st1 & Hsw1 & Hst1).
  { destruct (access weights_a first_key st0) as [[t st1]|] eqn:Hacc.
    - exists st1. split; [|done].
      apply (access_Some _ _ _ weights_a_spec) in Hacc
        as (w & w' & Hw & Hs1 & _ & Hin & Hid).
      rewrite Hs1. eapply swept_cons; [done..|]. apply swept_nil.
    - exists st0. split; [|done].
      apply (access_None weights_a) in Hacc.
      apply swept_cons_absent; [done|apply swept_nil]. }
  rewrite Hst1 in Hload. clear Hst1.
  pose proof (tensor_dict_spec _ _ _ weights_a_spec (segment_indices meta) ∅ st1) as Hsw2.
  destruct (tensor_dict weights_a (segment_indices meta) ∅ st1) as [la st2].
  pose proof (tensor_dict_spec _ _ _ weights_b_spec (segment_indices meta) ∅ st2) as Hsw3.
  destruct (tensor_dict weights_b (segment_indices meta) ∅ st2) as [lb st3].
  assert (Hsim : store_sim st0.1 st3.1).
  { apply evolved_store_sim.
    eapply evolved_trans; [by eapply swept_evolved|].
    eapply evolved_trans; by eapply swept_evolved. }
  rewrite (segment_ranks_of_sim _ _ _ Hsim).
  destruct (segment_ranks_of st3.1 (segment_indices meta)) as [|r0 rs]; [done|].
  destruct (ptr_table _ _ st3) as [pa st4].
  by destruct (ptr_table _ _ st4) as [pb st5].
Qed.

Lemma load_tables_inr adapter_weights meta prefill h L :
  load_tables adapter_weights meta prefill h = inr L →
  let aw0 := lora_adapters adapter_weights in
  let segs := segment_indices meta in
  lora_adapter_items adapter_weights ≠ [] ∧
  evolved aw0 (l_adapter_weights L) ∧
  (∀ idx w, l_adapter_weights L !! idx = Some w → idx ∈ segs →
     _is_transposed w = negb (l_use_sgmv L)) ∧
  (∀ idx w0 w, aw0 !! idx = Some w0 → l_adapter_weights L !! idx = Some w →
     idx ∈ segs → wf_lora_weights w0 → in_state (negb (l_use_sgmv L)) w0 w) ∧
  l_segment_ranks L = segment_ranks_of aw0 segs ∧
  l_segment_ranks L ≠ [] ∧
  l_max_rank L = max_list (l_segment_ranks L) ∧
  l_use_sgmv L = prefill || bool_decide (BGMV_MAX_RANK < l_max_rank L)%nat ∧
  length (l_lora_a_ptr L) = length segs ∧
  length (l_lora_b_ptr L) = length segs ∧
  ∀ i idx, segs !! i = Some idx →
    l_lora_a_ptr L !! i =
      Some (match l_adapter_weights L !! idx with
            | Some w => data_ptr (_weights_a w)
            | None => EMPTY_PTR
            end) ∧
    l_lora_b_ptr L !! i =
      Some (match l_adapter_weights L !! idx with
            | Some w => data_ptr (_weights_b w)
            | None => EMPTY_PTR
            end).
Proof.
  unfold load_tables.
  destruct (lora_adapter_items adapter_weights) as [|[first_key w0] items] eqn:Hitems;
    [done|].
  intros Hload. cbv zeta.
  set (st0 := (lora_adapters adapter_weights, h)) in *.
  assert (∃ st1, swept false [first_key] st0.1 st1.1 ∧
            match access weights_a first_key st0 with
            | Some (_, st') => st'
            | None => st0
            end = st1) as (st1 & Hsw1 & Hst1).
  { destruct (access weights_a first_key st0) as [[t st1]|] eqn:Hacc.
    - exists st1. split; [|done].
      apply (access_Some _ _ _ weights_a_spec) in Hacc
        as (w & w' & Hw & Hs1 & _ & Hin & Hid).
      rewrite Hs1. eapply swept_cons; [done..|]. apply swept_nil.
    - exists st0. split; [|done].
      apply (access_None weights_a) in Hacc.
      apply swept_cons_absent; [done|apply swept_nil]. }
  rewrite Hst1 in Hload. clear Hst1.
  pose proof (tensor_dict_spec _ _ _ weights_a_spec (segment_indices meta) ∅ st1) as Hsw2.
  destruct (tensor_dict weights_a (segment_indices meta) ∅ st1) as [la st2].
  pose proof (tensor_dict_spec _ _ _ weights_b_spec (segment_indices meta) ∅ st2) as Hsw3.
  destruct (tensor_dict weights_b (segment_indices meta) ∅ st2) as [lb st3].
  assert (Hev : evolved st0.1 st3.1).
  { eapply evolved_trans; [by eapply swept_evolved|].
    eapply evolved_trans; by eapply swept_evolved. }
  pose proof (evolved_store_sim _ _ Hev) as Hsim.
  destruct (segment_ranks_of st3.1 (segment_indices meta)) as [|r0 rs] eqn:Hranks; [done|].
  set (max_rank := max_list (r0 :: rs)) in *.
  set (sgmv := prefill || bool_decide (BGMV_MAX_RANK < max_rank)%nat) in *.
  assert (∃ pa pb : LoraWeights → Heap → Tensor3 * LoraWeights * Heap,
            pa = (if sgmv then weights_a else weights_a_t) ∧
            pb = (if sgmv then weights_b else weights_b_t) ∧
            accessor_spec pa (negb sgmv) true ∧ accessor_spec pb (negb sgmv) false)
    as (pa & pb & Hpa & Hpb & Hspa & Hspb).
  { eexists _, _. split_and!; [done..| |]; destruct sgmv; simpl.
    - apply weights_a_spec.
    - apply weights_a_t_spec.
    - apply weights_b_spec.
    - apply weights_b_t_spec. }
  rewrite <- Hpa, <- Hpb in Hload.
  pose proof (ptr_table_spec _ _ _ Hspa (segment_indices meta) st3) as Hta.
  destruct (ptr_table pa (segment_indices meta) st3) as [ptra st4].
  destruct Hta as (Hlena & Hsw4 & Hptra).
  pose proof (ptr_table_spec _ _ _ Hspb (segment_indices meta) st4) as Htb.
  destruct (ptr_table pb (segment_indices meta) st4) as [ptrb st5].
  destruct Htb as (Hlenb & Hsw5 & Hptrb).
  pose proof (swept_again _ _ _ _ _ Hsw4 Hsw5) as Heq45.
  simplify_eq/=. rewrite Heq45 in *.
  split_and!; try done.
  - eapply evolved_trans; [exact Hev|]. by eapply swept_evolved.
  - intros idx w Hw Hin. specialize (Hsw4 idx).
    destruct (st3.1 !! idx) as [w3|]; [|congruence].
    destruct Hsw4 as (w' & Hw' & Hyes & _). destruct (Hyes Hin) as [(_ & Ht & _) _].
    congruence.
  - intros idx v0 w Hv0 Hw Hin Hwf. specialize (Hsw4 idx). specialize (Hev idx).
    simpl in Hev. rewrite Hv0 in Hev.
    destruct Hev as (w3 & Hw3 & _ & Hwf3). rewrite Hw3 in Hsw4.
    destruct Hsw4 as (w' & Hw' & Hyes & _). destruct (Hyes Hin) as [Hst _].
    destruct (Hwf3 Hwf) as (_ & t & Hin3).
    assert (w' = w) as -> by congruence.
    by eapply in_state_trans.
  - rewrite <- Hranks. symmetry. by apply segment_ranks_of_sim.
  - intros i idx Hi. split.
    + rewrite (Hptra i idx Hi). done.
    + rewrite (Hptrb i idx Hi). done.
Qed.

End TablesFacts.

(** ** The tables computed from the store *)

Lemma segment_ranks_of_nil (s : gmap Z LoraWeights) (segs : list Z) :
  segment_ranks_of s segs = [] ↔ ∀ idx, idx ∈ segs → s !! idx = None.
Proof.
  unfold segment_ranks_of. induction segs as [|idx rest IH]; cbn.
  - split; [|done]. intros _ idx Hin. by apply elem_of_nil in Hin.
  - destruct (s !! idx) as [w|] eqn:Hw; simpl.
    + split; [done|]. intros Hall. specialize (Hall idx). rewrite Hw in Hall.
      discriminate Hall. by left.
    + rewrite IH. split.
      * intros Hall idx' [->|Hin]%elem_of_cons; [done|by apply Hall].
      * intros Hall idx' Hin. apply Hall. by right.
Qed.

Lemma segment_ranks_of_elem (s : gmap Z LoraWeights) (segs : list Z) (rk : nat) :
  rk ∈ segment_ranks_of s segs ↔
  ∃ i idx w, segs !! i = Some idx ∧ s !! idx = Some w ∧ lora_a_r w = rk.
Proof.
  unfold segment_ranks_of. rewrite list_elem_of_omap. split.
  - intros (idx & Hin & Hr). apply list_elem_of_lookup in Hin as [i Hi].
    destruct (s !! idx) as [w|] eqn:Hw; simplify_eq/=. by exists i, idx, w.
  - intros (i & idx & w & Hi & Hw & Hr). exists idx. split.
    + by eapply list_elem_of_lookup_2.
    + by rewrite Hw; simpl; rewrite Hr.
Qed.

Lemma adapter_index_configs_of_sim s s' segs :
  store_sim s s' → adapter_index_configs_of s segs = adapter_index_configs_of s' segs.
Proof.
  intros Hsim. unfold adapter_index_configs_of. generalize (∅ : gmap Z LoraConfig).
  induction segs as [|idx rest IH]; intros acc; simpl; [done|].
  pose proof (store_sim_config _ _ idx Hsim) as Hc.
  destruct (s !! idx) as [w|], (s' !! idx) as [w'|]; simpl in Hc; try done.
  injection Hc as Hc. by rewrite Hc, IH.
Qed.

Lemma adapter_index_configs_loop_lookup (s : gmap Z LoraWeights) (segs : list Z)
    (acc : gmap Z LoraConfig) (i : Z) :
  foldl (λ acc idx,
           match s !! idx with
           | Some w => <[idx := adapter_config w]> acc
           | None => acc
           end) acc segs !! i =
  match s !! i with
  | Some w => if decide (i ∈ segs) then Some (adapter_config w) else acc !! i
  | None => acc !! i
  end.
Proof.
  revert acc. induction segs as [|idx rest IH]; intros acc; cbn [foldl].
  - destruct (s !! i); [|done].
    destruct (decide (i ∈ [])) as [Hin|Hin]; [by apply elem_of_nil in Hin|done].
  - rewrite IH. destruct (s !! i) as [w|] eqn:Hw.
    + destruct (decide (i = idx)) as [->|Hne].
      * rewrite Hw, lookup_insert_eq.
        destruct (decide (idx ∈ rest)), (decide (idx ∈ idx :: rest)) as [|Hn];
          try done; exfalso; apply Hn; by left.
      * assert (Hacc : match s !! idx with
                       | Some w0 => <[idx := adapter_config w0]> acc
                       | None => acc
                       end !! i = acc !! i).
        { destruct (s !! idx); [by rewrite lookup_insert_ne|done]. }
        rewrite Hacc.
        destruct (decide (i ∈ rest)) as [Hin|Hin], (decide (i ∈ idx :: rest)) as [Hin'|Hin'];
          try done.
        -- exfalso. apply Hin'. by right.
        -- exfalso. apply elem_of_cons in Hin' as [?|?]; done.
    + destruct (s !! idx) as [w|] eqn:Hidx; [|done].
      rewrite lookup_insert_ne; [done|]. intros ->. congruence.
Qed.

Lemma adapter_index_configs_of_lookup (s : gmap Z LoraWeights) segs (i : Z) :
  is_Some (adapter_index_configs_of s segs !! i) ↔ i ∈ segs ∧ is_Some (s !! i).
Proof.
  unfold adapter_index_configs_of. rewrite adapter_index_configs_loop_lookup.
  rewrite lookup_empty. destruct (s !! i) as [w|].
  - destruct (decide (i ∈ segs)); split.
    + by intros _.
    + by intros _.
    + by intros [? ?].
    + by intros [? _].
  - split; [by intros [? ?]|by intros [_ [? ?]]].
Qed.

Lemma group_positions_sim s s' segs k rk :
  store_sim s s' → group_positions s segs k rk = group_positions s' segs k rk.
Proof.
  intros Hsim. revert k. induction segs as [|idx rest IH]; intros k; simpl; [done|].
  pose proof (store_sim_rank _ _ idx Hsim) as Hr.
  destruct (s !! idx) as [w|], (s' !! idx) as [w'|]; simpl in Hr; try done.
  injection Hr as Hr. by rewrite Hr, !IH.
Qed.

Lemma group_positions_elem (s : gmap Z LoraWeights) segs k rk p :
  p ∈ group_positions s segs k rk ↔
  ∃ i idx w, p = (k + i)%nat ∧ segs !! i = Some idx ∧ s !! idx = Some w ∧ lora_a_r w = rk.
Proof.
  revert k. induction segs as [|idx0 rest IH]; intros k; simpl.
  - split; [by intros ?%elem_of_nil|]. intros (i & idx & w & _ & Hi & _).
    by rewrite lookup_nil in Hi.
  - assert (Hrest : p ∈ group_positions s rest (S k) rk ↔
              ∃ i idx w, p = (k + S i)%nat ∧ rest !! i = Some idx ∧
                s !! idx = Some w ∧ lora_a_r w = rk).
    { rewrite IH. split; intros (i & idx & w & Hp & Hrest); exists i, idx, w;
        (split; [lia|done]). }
    assert (Hskip : (∃ i idx w, p = (k + S i)%nat ∧ rest !! i = Some idx ∧
                       s !! idx = Some w ∧ lora_a_r w = rk) →
              ∃ i idx w, p = (k + i)%nat ∧ (idx0 :: rest) !! i = Some idx ∧
                s !! idx = Some w ∧ lora_a_r w = rk).
    { intros (i & idx & w & Hp & Hi & Hw). by exists (S i), idx, w. }
    destruct (s !! idx0) as [w0|] eqn:Hw0; [case_bool_decide as Hr|].
    + rewrite elem_of_cons, Hrest. split.
      * intros [->|Hin]; [|by apply Hskip].
        exists 0%nat, idx0, w0. split_and!; [lia|done..].
      * intros ([|i] & idx & w & Hp & Hi & Hw); simpl in Hi.
        -- left. lia.
        -- right. by exists i, idx, w.
    + rewrite Hrest. split; [apply Hskip|].
      intros ([|i] & idx & w & Hp & Hi & Hw & Hrk); simpl in Hi.
      * simplify_eq.
      * by exists i, idx, w.
    + rewrite Hrest. split; [apply Hskip|].
      intros ([|i] & idx & w & Hp & Hi & Hw & Hrk); simpl in Hi.
      * simplify_eq.
      * by exists i, idx, w.
Qed.

Lemma group_positions_ge (s : gmap Z LoraWeights) segs k rk p :
  p ∈ group_positions s segs k rk → (k ≤ p)%nat.
Proof. rewrite group_positions_elem. intros (i & _ & _ & -> & _). lia. Qed.

Lemma group_positions_NoDup (s : gmap Z LoraWeights) segs k rk :
  NoDup (group_positions s segs k rk).
Proof.
  revert k. induction segs as [|idx0 rest IH]; intros k; simpl; [constructor|].
  destruct (s !! idx0) as [w0|]; [case_bool_decide|]; try apply IH.
  constructor; [|apply IH]. intros Hin%group_positions_ge. lia.
Qed.

Lemma rank_indices_loop_lookup (s : gmap Z LoraWeights) (segs : list Z) (k : nat)
    (acc : gmap nat (list nat)) (rk : nat) :
  rank_indices_loop s segs k acc !! rk =
  match acc !! rk, group_positions s segs k rk with
  | None, [] => None
  | o, l => Some (default [] o ++ l)
  end.
Proof.
  revert k acc. induction segs as [|idx0 rest IH]; intros k acc; simpl.
  - destruct (acc !! rk) as [l|]; simpl; [by rewrite app_nil_r|done].
  - destruct (s !! idx0) as [w0|]; [|apply IH].
    rewrite IH. case_bool_decide as Hr.
    + rewrite Hr, lookup_insert_eq, lookup_total_alt. simpl.
      rewrite <- app_assoc. simpl.
      by destruct (acc !! rk), (group_positions s rest (S k) rk).
    + by rewrite lookup_insert_ne.
Qed.

Lemma rank_indices_of_lookup (s : gmap Z LoraWeights) segs rk l :
  rank_indices_of s segs !! rk = Some l ↔
  l = group_positions s segs 0 rk ∧ l ≠ [].
Proof.
  unfold rank_indices_of. rewrite rank_indices_loop_lookup, lookup_empty.
  destruct (group_positions s segs 0 rk) as [|p ps]; simpl.
  - split; [done|by intros [-> ?]].
  - split; [by intros [= <-]|by intros [-> _]].
Qed.

Lemma rank_indices_of_sim s s' segs :
  store_sim s s' → rank_indices_of s segs = rank_indices_of s' segs.
Proof.
  intros Hsim. apply map_eq. intros rk. unfold rank_indices_of.
  by rewrite !rank_indices_loop_lookup, (group_positions_sim _ _ _ _ _ Hsim).
Qed.

Section RankData.
Context `{Torch} `{Punica}.

Lemma rank_data_of_lookup L meta hs ri rd :
  rank_data_of L meta hs ri = Some rd →
  ∀ rk rs, rd !! rk = Some rs ↔
    ∃ l, ri !! rk = Some l ∧ rank_segments_of L meta hs rk l = Some rs.
Proof.
  unfold rank_data_of. intros Hrd.
  destruct (mapM _ (map_to_list ri)) as [ys|] eqn:Hys; simplify_eq/=.
  apply mapM_Some in Hys.
  assert (Hfst : ys.*1 = (map_to_list ri).*1).
  { clear -Hys. induction Hys as [|[k l] [k' rs] xs ys' Hxy _ IH]; [done|].
    rewrite !fmap_cons, IH. simpl in *.
    destruct (rank_segments_of L meta hs k l); by simplify_eq/=. }
  assert (Hnd : NoDup ys.*1) by (rewrite Hfst; apply NoDup_fst_map_to_list).
  intros rk rs. rewrite <- (elem_of_list_to_map ys) by done. split.
  - intros Hin. apply list_elem_of_lookup in Hin as [i Hi].
    destruct (Forall2_lookup_r _ _ _ _ _ Hys Hi) as ([k l] & Hkl & Hf). simpl in Hf.
    destruct (rank_segments_of L meta hs k l) as [rs'|] eqn:Hrs; simplify_eq/=.
    exists l. split; [|done]. apply elem_of_map_to_list. by eapply list_elem_of_lookup_2.
  - intros (l & Hl & Hrs). apply elem_of_map_to_list, list_elem_of_lookup in Hl as [i Hi].
    destruct (Forall2_lookup_l _ _ _ _ _ Hys Hi) as ([k' rs'] & Hy & Hf). simpl in Hf.
    rewrite Hrs in Hf. simplify_eq/=. by eapply list_elem_of_lookup_2.
Qed.

Lemma rank_data_of_Some_all L meta hs ri rd :
  rank_data_of L meta hs ri = Some rd →
  ∀ rk l, ri !! rk = Some l → is_Some (rank_segments_of L meta hs rk l).
Proof.
  unfold rank_data_of. intros Hrd rk l Hl.
  destruct (mapM _ (map_to_list ri)) as [ys|] eqn:Hys; [|done].
  apply mapM_Some in Hys.
  apply elem_of_map_to_list, list_elem_of_lookup in Hl as [i Hi].
  destruct (Forall2_lookup_l _ _ _ _ _ Hys Hi) as (y & _ & Hf). simpl in Hf.
  by destruct (rank_segments_of L meta hs rk l).
Qed.

Lemma rank_data_of_total L meta hs ri :
  (∀ rk l, ri !! rk = Some l → is_Some (rank_segments_of L meta hs rk l)) →
  is_Some (rank_data_of L meta hs ri).
Proof.
  intros Hall. unfold rank_data_of.
  apply fmap_is_Some, mapM_is_Some, Forall_forall.
  intros [rk l] Hin%elem_of_map_to_list. simpl.
  apply fmap_is_Some. by apply Hall.
Qed.

(** What a call that returns an aggregation has gone through. *)
Lemma load_Some adapter_weights meta name prefill head_indices h b st :
  BatchLoraWeights_load adapter_weights meta name prefill head_indices h
    = (Some (Some b), st) →
  ∃ L hs,
    load_tables adapter_weights meta prefill h = inr L ∧
    st = (l_adapter_weights L, l_heap L) ∧
    match head_indices with
    | Some head_indices =>
      Some <$> prefill_head_segments (adapter_segments meta) head_indices
    | None => Some None
    end = Some hs ∧
    rank_data_of L meta hs
      (rank_indices_of (lora_adapters adapter_weights) (segment_indices meta))
      = Some (rank_data b) ∧
    adapter_index_configs b =
      adapter_index_configs_of (lora_adapters adapter_weights) (segment_indices meta) ∧
    use_sgmv b = l_use_sgmv L ∧
    lora_a b = l_lora_a L ∧ lora_b b = l_lora_b L ∧
    layer_name b = name ∧ prefill_head_indices b = head_indices.
Proof.
  unfold BatchLoraWeights_load.
  destruct (load_tables adapter_weights meta prefill h) as [st'|L] eqn:Htab; [done|].
  intros Hload. injection Hload as Hres Hst.
  destruct (load_tables_inr _ _ _ _ _ Htab) as (_ & Hev & _).
  apply evolved_store_sim in Hev.
  rewrite <- (rank_indices_of_sim _ _ _ Hev) in Hres.
  rewrite <- (adapter_index_configs_of_sim _ _ _ Hev) in Hres.
  destruct (match head_indices with Some _ => _ | None => _ end) as [hs|] eqn:Hhs;
    simpl in Hres; [|done].
  destruct (rank_data_of L meta hs _) as [rd|] eqn:Hrd; simpl in Hres; [|done].
  simplify_eq/=. by exists L, hs.
Qed.

Lemma load_None_result adapter_weights meta name prefill head_indices h :
  (BatchLoraWeights_load adapter_weights meta name prefill head_indices h).1 = Some None ↔
  ∃ st, load_tables adapter_weights meta prefill h = inl st.
Proof.
  unfold BatchLoraWeights_load.
  destruct (load_tables adapter_weights meta prefill h) as [st'|L] eqn:Htab; simpl.
  - split; [by exists st'|done].
  - split; [|by intros [? ?]].
    destruct (match head_indices with Some _ => _ | None => _ end) as [hs|];
      simpl; [|done].
    by destruct (rank_data_of L meta hs _).
Qed.

End RankData.

(** ** Kernel choice, the empty result and [has_adapter] *)

(** C1. When [BatchLoraWeights.load] returns an aggregation, its single flag
    [use_sgmv] is true exactly when the step is a prefill step or the
    greatest rank among the adapters of the segments that have weights for
    the layer exceeds [BGMV_MAX_RANK]: with [prefill] it is true whatever the
    ranks, without [prefill] it is false for a greatest rank within the
    capacity and true above it. *)
Theorem C1_kernel_choice `{Torch} `{Punica}
    (adapter_weights : list (Z * AdapterWeights)) (meta : AdapterBatchMetadata)
    (name : string) (prefill : bool) (head_indices : option (list Z)) (h : Heap)
    (b : BatchLoraWeights) (st : gmap Z LoraWeights * Heap) :
  BatchLoraWeights_load adapter_weights meta name prefill head_indices h
    = (Some (Some b), st) →
  ∃ max_rank : nat,
    (∃ i idx w, segment_indices meta !! i = Some idx ∧
       lora_adapters adapter_weights !! idx = Some w ∧ lora_a_r w = max_rank) ∧
    (∀ i idx w, segment_indices meta !! i = Some idx →
       lora_adapters adapter_weights !! idx = Some w → (lora_a_r w ≤ max_rank)%nat) ∧
    (use_sgmv b = true ↔ prefill = true ∨ (BGMV_MAX_RANK < max_rank)%nat) ∧
    (prefill = true → use_sgmv b = true) ∧
    (prefill = false → (max_rank ≤ BGMV_MAX_RANK)%nat → use_sgmv b = false) ∧
    (prefill = false → (BGMV_MAX_RANK < max_rank)%nat → use_sgmv b = true).
Proof.
  intros Hload.
  destruct (load_Some _ _ _ _ _ _ _ _ Hload) as (L & hs & Htab & _ & _ & _ & _ & Hsgmv & _).
  destruct (load_tables_inr _ _ _ _ _ Htab)
    as (_ & _ & _ & _ & Hranks & Hne & Hmax & Huse & _).
  exists (l_max_rank L). rewrite Hsgmv, Huse.
  split_and!.
  - apply segment_ranks_of_elem. rewrite <- Hranks, Hmax. by apply max_list_elem_of.
  - intros i idx w Hi Hw. rewrite Hmax. apply max_list_elem_of_le.
    rewrite Hranks. apply segment_ranks_of_elem. by exists i, idx, w.
  - rewrite orb_true_iff, bool_decide_eq_true. done.
  - by intros ->.
  - intros -> Hle. simpl. apply bool_decide_eq_false. lia.
  - intros -> Hlt. simpl. by apply bool_decide_eq_true.
Qed.

(** C7. When no adapter of the mapping is a [LoraWeights] after unwrapping,
    or no segment's adapter is among those that are, [BatchLoraWeights.load]
    returns [None], and it does so from one of its two early returns, before
    any pointer table, rank group or scratch buffer is built. *)
Theorem C7_no_adapters_active `{Torch} `{Punica}
    (adapter_weights : list (Z * AdapterWeights)) (meta : AdapterBatchMetadata)
    (name : string) (prefill : bool) (head_indices : option (list Z)) (h : Heap) :
  lora_adapter_items adapter_weights = [] ∨
  (∀ idx, idx ∈ segment_indices meta → lora_adapters adapter_weights !! idx = None) →
  ∃ st,
    BatchLoraWeights_load adapter_weights meta name prefill head_indices h = (Some None, st) ∧
    load_tables adapter_weights meta prefill h = inl st.
Proof.
  intros Hcond. unfold BatchLoraWeights_load.
  destruct (load_tables adapter_weights meta prefill h) as [st|L] eqn:Htab.
  - by exists st.
  - exfalso. destruct (load_tables_inr _ _ _ _ _ Htab)
      as (Hitems & _ & _ & _ & Hranks & Hne & _).
    destruct Hcond as [Hnil|Hnone]; [done|].
    apply Hne. rewrite Hranks. by apply segment_ranks_of_nil.
Qed.

(** The converse: [None] is returned in no other case. *)
Lemma load_None_only `{Torch} `{Punica}
    (adapter_weights : list (Z * AdapterWeights)) (meta : AdapterBatchMetadata)
    (name : string) (prefill : bool) (head_indices : option (list Z)) (h : Heap) :
  (BatchLoraWeights_load adapter_weights meta name prefill head_indices h).1 = Some None →
  lora_adapter_items adapter_weights = [] ∨
  (∀ idx, idx ∈ segment_indices meta → lora_adapters adapter_weights !! idx = None).
Proof.
  intros [st Htab]%load_None_result.
  destruct (load_tables_inl _ _ _ _ _ Htab) as [?|Hnil]; [by left|right].
  by apply segment_ranks_of_nil.
Qed.

(** C10. On a returned aggregation, [has_adapter i] holds exactly when [i]
    occurs in the batch's [segment_indices] and the adapter [i] has LoRA
    weights for the layer; an adapter with weights that occupies no segment
    of the batch reports false. *)
Theorem C10_has_adapter `{Torch} `{Punica}
    (adapter_weights : list (Z * AdapterWeights)) (meta : AdapterBatchMetadata)
    (name : string) (prefill : bool) (head_indices : option (list Z)) (h : Heap)
    (b : BatchLoraWeights) (st : gmap Z LoraWeights * Heap) :
  BatchLoraWeights_load adapter_weights meta name prefill head_indices h
    = (Some (Some b), st) →
  (∀ i, has_adapter b i = true ↔
     i ∈ segment_indices meta ∧ is_Some (lora_adapters adapter_weights !! i)) ∧
  (∀ i, is_Some (lora_adapters adapter_weights !! i) →
     i ∉ segment_indices meta → has_adapter b i = false).
Proof.
  intros Hload.
  destruct (load_Some _ _ _ _ _ _ _ _ Hload) as (L & hs & _ & _ & _ & _ & Hcfg & _).
  assert (Hiff : ∀ i, has_adapter b i = true ↔
            i ∈ segment_indices meta ∧ is_Some (lora_adapters adapter_weights !! i)).
  { intros i. unfold has_adapter. rewrite bool_decide_eq_true, Hcfg.
    apply adapter_index_configs_of_lookup. }
  split; [done|]. intros i Hsome Hnot.
  apply not_true_is_false. rewrite Hiff. by intros [? _].
Qed.

Lemma C1_kernel_choice_witness :
  ∃ b st,
    @BatchLoraWeights_load bump_torch sample_punica sample_adapter_weights
      sample_prefill_meta "q_proj" true None 0%nat = (Some (Some b), st) ∧
    ∃ max_rank : nat,
      (∃ i idx w, segment_indices sample_prefill_meta !! i = Some idx ∧
         lora_adapters sample_adapter_weights !! idx = Some w ∧ lora_a_r w = max_rank) ∧
      (∀ i idx w, segment_indices sample_prefill_meta !! i = Some idx →
         lora_adapters sample_adapter_weights !! idx = Some w → (lora_a_r w ≤ max_rank)%nat) ∧
      (use_sgmv b = true ↔ true = true ∨ (@BGMV_MAX_RANK sample_punica < max_rank)%nat) ∧
      (true = true → use_sgmv b = true) ∧
      (true = false → (max_rank ≤ @BGMV_MAX_RANK sample_punica)%nat → use_sgmv b = false) ∧
      (true = false → (@BGMV_MAX_RANK sample_punica < max_rank)%nat → use_sgmv b = true).
Proof.
  eexists _, _. split.
  - vm_compute. reflexivity.
  - eapply (@C1_kernel_choice bump_torch sample_punica sample_adapter_weights
              sample_prefill_meta "q_proj" true None 0%nat).
    vm_compute. reflexivity.
Defined.

(** ** Properties of the adapters that every access preserves *)

Section Preserved.
Context `{Torch} `{Punica}.
Variable P : LoraWeights → Prop.
Hypothesis P_flip : ∀ w h, P w → P (_transpose_weights w h).1.

Local Abbreviation preserving := (preserving P).

Lemma preserved_accessor (target is_a : bool) (w : LoraWeights) (h : Heap) :
  P w →
  P ((let '(w', h') :=
        if (if target then negb (_is_transposed w) else _is_transposed w)
        then _transpose_weights w h else (w, h) in
      ((if is_a then _weights_a w' else _weights_b w'), w', h'))
     : Tensor3 * LoraWeights * Heap).1.2.
Proof.
  intros Hw. pose proof (P_flip w h Hw) as Hf.
  destruct target, (_is_transposed w); simpl; try done;
    by destruct (_transpose_weights w h).
Qed.

Lemma preserving_weights_a : preserving weights_a.
Proof. intros w h. apply (preserved_accessor false true). Qed.

Lemma preserving_weights_b : preserving weights_b.
Proof. intros w h. apply (preserved_accessor false false). Qed.

Lemma preserving_weights_a_t : preserving weights_a_t.
Proof. intros w h. apply (preserved_accessor true true). Qed.

Lemma preserving_weights_b_t : preserving weights_b_t.
Proof. intros w h. apply (preserved_accessor true false). Qed.

Lemma preserved_access property idx st t st' :
  preserving property → map_Forall (λ _, P) st.1 →
  access property idx st = Some (t, st') → map_Forall (λ _, P) st'.1.
Proof.
  intros Hp Hall. unfold access.
  destruct (st.1 !! idx) as [w|] eqn:Hw; simpl; [|done].
  pose proof (Hp w st.2 (Hall _ _ Hw)) as Hw'.
  destruct (property w st.2) as [[t0 w'] h']. intros ?; simplify_eq/=.
  by apply map_Forall_insert_2.
Qed.

Lemma preserved_tensor_dict property segs acc st :
  preserving property → map_Forall (λ _, P) st.1 →
  map_Forall (λ _, P) (tensor_dict property segs acc st).2.1.
Proof.
  intros Hp. revert acc st. induction segs as [|idx rest IH]; intros acc st Hall; simpl.
  - done.
  - destruct (access property idx st) as [[t st1]|] eqn:Hacc.
    + apply IH. by eapply preserved_access.
    + by apply IH.
Qed.

Lemma preserved_ptr_table property segs st :
  preserving property → map_Forall (λ _, P) st.1 →
  map_Forall (λ _, P) (ptr_table property segs st).2.1.
Proof.
  intros Hp. revert st. induction segs as [|idx rest IH]; intros st Hall; simpl.
  - done.
  - destruct (access property idx st) as [[t st1]|] eqn:Hacc.
    + specialize (IH st1 (preserved_access _ _ _ _ _ Hp Hall Hacc)).
      by destruct (ptr_table property rest st1).
    + specialize (IH st Hall). by destruct (ptr_table property rest st).
Qed.

Lemma preserved_load_tables adapter_weights meta prefill h L :
  map_Forall (λ _, P) (lora_adapters adapter_weights) →
  load_tables adapter_weights meta prefill h = inr L →
  map_Forall (λ _, P) (l_adapter_weights L).
Proof.
  intros Hall. unfold load_tables.
  destruct (lora_adapter_items adapter_weights) as [|[first_key w0] items]; [done|].
  set (st0 := (lora_adapters adapter_weights, h)).
  assert (Hall1 : map_Forall (λ _, P)
            (match access weights_a first_key st0 with
             | Some (_, st') => st'
             | None => st0
             end).1).
  { destruct (access weights_a first_key st0) as [[t st1]|] eqn:Hacc; [|done].
    eapply preserved_access; [apply preserving_weights_a| |exact Hacc]. done. }
  revert Hall1. generalize (match access weights_a first_key st0 with
                            | Some (_, st') => st'
                            | None => st0
                            end). intros st1 Hall1.
  pose proof (preserved_tensor_dict weights_a (segment_indices meta) ∅ st1
                preserving_weights_a Hall1) as Hall2.
  destruct (tensor_dict weights_a (segment_indices meta) ∅ st1) as [la st2].
  pose proof (preserved_tensor_dict weights_b (segment_indices meta) ∅ st2
                preserving_weights_b Hall2) as Hall3.
  destruct (tensor_dict weights_b (segment_indices meta) ∅ st2) as [lb st3].
  destruct (segment_ranks_of st3.1 (segment_indices meta)) as [|r0 rs]; [done|].
  set (sgmv := prefill || bool_decide (BGMV_MAX_RANK < max_list (r0 :: rs))%nat).
  assert (Hpa : preserving (if sgmv then weights_a else weights_a_t)).
  { destruct sgmv; [apply preserving_weights_a|apply preserving_weights_a_t]. }
  assert (Hpb : preserving (if sgmv then weights_b else weights_b_t)).
  { destruct sgmv; [apply preserving_weights_b|apply preserving_weights_b_t]. }
  pose proof (preserved_ptr_table _ (segment_indices meta) st3 Hpa Hall3) as Hall4.
  destruct (ptr_table _ (segment_indices meta) st3) as [pa st4].
  pose proof (preserved_ptr_table _ (segment_indices meta) st4 Hpb Hall4) as Hall5.
  destruct (ptr_table _ (segment_indices meta) st4) as [pb st5].
  intros ?; by simplify_eq/=.
Qed.

End Preserved.

Lemma off_sentinel_flip `{Torch} (w : LoraWeights) (h : Heap) :
  (∀ h p, (contiguous_ptr h p).1 ≠ EMPTY_PTR) →
  off_sentinel w → off_sentinel (_transpose_weights w h).1.
Proof.
  intros Halloc [Ha Hb]. unfold off_sentinel, _transpose_weights, transpose_1_2_contiguous.
  destruct (_use_cutlass_shrink w).
  - pose proof (Halloc h (data_ptr (_weights_a w))) as H1.
    destruct (contiguous_ptr h _) as [p1 h1].
    pose proof (Halloc h1 (data_ptr (_weights_b w))) as H2.
    by destruct (contiguous_ptr h1 _) as [p2 h2].
  - pose proof (Halloc h (data_ptr (_weights_b w))) as H2.
    by destruct (contiguous_ptr h _) as [p2 h2].
Qed.

(** C3. The A and B pointer tables that [BatchLoraWeights.load] builds have
    one entry per segment, in segment order. Entry [i] is the address of the
    empty tensor exactly when the adapter of segment [i] is not among the
    adapters with LoRA weights for the layer. For a segment whose adapter
    has weights, the entries are the addresses of the A and B blocks that
    the adapter object holds when the tables are built; the object is then
    in the load-time orientation state when [use_sgmv] is true and in the
    transposed state when it is false, and the blocks hold the weight values
    of that state. The adapters are well-formed tensors stored away from the
    empty tensor's address, and the allocator never hands out that
    address. *)
Theorem C3_pointer_tables `{Torch} `{Punica}
    (adapter_weights : list (Z * AdapterWeights)) (meta : AdapterBatchMetadata)
    (prefill : bool) (h : Heap) (L : LoadLocals) :
  load_tables adapter_weights meta prefill h = inr L →
  (∀ idx w, lora_adapters adapter_weights !! idx = Some w →
     wf_lora_weights w ∧ off_sentinel w) →
  (∀ h p, (contiguous_ptr h p).1 ≠ EMPTY_PTR) →
  length (l_lora_a_ptr L) = length (segment_indices meta) ∧
  length (l_lora_b_ptr L) = length (segment_indices meta) ∧
  ∀ i idx, segment_indices meta !! i = Some idx →
    (l_lora_a_ptr L !! i = Some EMPTY_PTR ↔ lora_adapters adapter_weights !! idx = None) ∧
    (l_lora_b_ptr L !! i = Some EMPTY_PTR ↔ lora_adapters adapter_weights !! idx = None) ∧
    ∀ w0, lora_adapters adapter_weights !! idx = Some w0 →
      ∃ w, l_adapter_weights L !! idx = Some w ∧
        l_lora_a_ptr L !! i = Some (data_ptr (_weights_a w)) ∧
        l_lora_b_ptr L !! i = Some (data_ptr (_weights_b w)) ∧
        _is_transposed w = negb (l_use_sgmv L) ∧
        layers (_weights_a w) = values_a (negb (l_use_sgmv L)) w0 ∧
        layers (_weights_b w) = values_b (negb (l_use_sgmv L)) w0.
Proof.
  intros Htab Hin Halloc.
  destruct (load_tables_inr _ _ _ _ _ Htab)
    as (_ & Hev & Hflag & Hstate & _ & _ & _ & _ & Hlena & Hlenb & Hptr).
  assert (Hoff : map_Forall (λ _, off_sentinel) (l_adapter_weights L)).
  { eapply (preserved_load_tables off_sentinel); [|by intros ?? []%Hin|exact Htab].
    intros w h0. by apply off_sentinel_flip. }
  split_and!; [done..|]. intros i idx Hi.
  destruct (Hptr i idx Hi) as [Ha Hb]. rewrite Ha, Hb.
  assert (Hseg : idx ∈ segment_indices meta) by by eapply list_elem_of_lookup_2.
  specialize (Hev idx).
  destruct (lora_adapters adapter_weights !! idx) as [w0|] eqn:Hw0.
  - destruct Hev as (w & Hw & _). rewrite Hw.
    destruct (Hoff _ _ Hw) as [Hoa Hob].
    split_and!; [split; [intros [=]|]; done..|].
    intros ? [= <-]. exists w. destruct (Hin _ _ Hw0) as [Hwf _].
    destruct (Hstate idx w0 w Hw0 Hw Hseg Hwf) as (_ & Ht & Hla & Hlb).
    by split_and!.
  - rewrite Hev. by split_and!.
Qed.

Lemma sample_adapters_ok :
  ∀ idx w, lora_adapters sample_adapter_weights !! idx = Some w →
    wf_lora_weights w ∧ @off_sentinel bump_torch w.
Proof.
  change (map_Forall (λ _ w, wf_lora_weights w ∧ @off_sentinel bump_torch w)
            (lora_adapters sample_adapter_weights)).
  unfold lora_adapters, sample_adapter_weights. simpl.
  repeat apply map_Forall_insert_2; try apply map_Forall_empty;
    (split; [split; apply sample_block_wf|split; simpl; lia]).
Qed.

Lemma bump_torch_off_sentinel :
  ∀ (h : @Heap bump_torch) (p : Z), (@contiguous_ptr bump_torch h p).1 ≠ @EMPTY_PTR bump_torch.
Proof. intros h p. simpl. lia. Qed.

(** The tables of the sample decode batch: four segments, the last one
    without weights. *)
Lemma C3_pointer_tables_witness :
  ∃ L,
    @load_tables bump_torch sample_punica sample_adapter_weights sample_decode_meta
      false 0%nat = inr L ∧
    length (l_lora_a_ptr L) = length (segment_indices sample_decode_meta) ∧
    length (l_lora_b_ptr L) = length (segment_indices sample_decode_meta) ∧
    ∀ i idx, segment_indices sample_decode_meta !! i = Some idx →
      (l_lora_a_ptr L !! i = Some (@EMPTY_PTR bump_torch) ↔
         lora_adapters sample_adapter_weights !! idx = None) ∧
      (l_lora_b_ptr L !! i = Some (@EMPTY_PTR bump_torch) ↔
         lora_adapters sample_adapter_weights !! idx = None) ∧
      ∀ w0, lora_adapters sample_adapter_weights !! idx = Some w0 →
        ∃ w, l_adapter_weights L !! idx = Some w ∧
          l_lora_a_ptr L !! i = Some (data_ptr (_weights_a w)) ∧
          l_lora_b_ptr L !! i = Some (data_ptr (_weights_b w)) ∧
          _is_transposed w = negb (l_use_sgmv L) ∧
          layers (_weights_a w) = values_a (negb (l_use_sgmv L)) w0 ∧
          layers (_weights_b w) = values_b (negb (l_use_sgmv L)) w0.
Proof.
  eexists. split.
  - vm_compute. reflexivity.
  - apply (@C3_pointer_tables bump_torch sample_punica sample_adapter_weights
             sample_decode_meta false 0%nat).
    + vm_compute. reflexivity.
    + exact sample_adapters_ok.
    + exact bump_torch_off_sentinel.
Defined.

Lemma C7_no_adapters_active_witness :
  ∃ st,
    @BatchLoraWeights_load bump_torch sample_punica sample_adapter_weights sample_idle_meta
      "q_proj" true None 0%nat = (Some None, st) ∧
    @load_tables bump_torch sample_punica sample_adapter_weights sample_idle_meta
      true 0%nat = inl st.
Proof.
  apply (@C7_no_adapters_active bump_torch sample_punica sample_adapter_weights
           sample_idle_meta "q_proj" true None 0%nat).
  right. intros idx Hin. simpl in Hin.
  apply list_elem_of_singleton in Hin as ->. vm_compute. reflexivity.
Defined.

Lemma C10_has_adapter_witness :
  ∃ b st,
    @BatchLoraWeights_load bump_torch sample_punica sample_adapter_weights
      sample_prefill_meta "q_proj" true None 0%nat = (Some (Some b), st) ∧
    (∀ i, has_adapter b i = true ↔
       i ∈ segment_indices sample_prefill_meta ∧
       is_Some (lora_adapters sample_adapter_weights !! i)) ∧
    (∀ i, is_Some (lora_adapters sample_adapter_weights !! i) →
       i ∉ segment_indices sample_prefill_meta → has_adapter b i = false).
Proof.
  eexists _, _. split.
  - vm_compute. reflexivity.
  - eapply (@C10_has_adapter bump_torch sample_punica sample_adapter_weights
              sample_prefill_meta "q_proj" true None 0%nat).
    vm_compute. reflexivity.
Defined.

(** ** Rank groups *)

Lemma mapM_lookup {A B} (f : A → option B) (l : list A) (k : list B) :
  mapM f l = Some k →
  length k = length l ∧ ∀ j x, l !! j = Some x → f x = k !! j ∧ is_Some (k !! j).
Proof.
  intros Hm%mapM_Some. split.
  - symmetry. by eapply Forall2_length.
  - intros j x Hx. destruct (Forall2_lookup_l _ _ _ _ _ Hm Hx) as (y & Hy & Hf).
    rewrite Hy, Hf. eauto.
Qed.

Lemma overwrite_segments_spec (hst hen : list Z) (l : list nat) (i : nat)
    (ss se ss' se' : list Z) :
  overwrite_segments hst hen l i ss se = Some (ss', se') →
  (i + length l ≤ length ss)%nat → (i + length l ≤ length se)%nat →
  length ss' = length ss ∧ length se' = length se ∧
  (∀ k, (k < i)%nat → ss' !! k = ss !! k ∧ se' !! k = se !! k) ∧
  (∀ j p, l !! j = Some p →
     ss' !! (i + j)%nat = hst !! p ∧ se' !! (i + j)%nat = hen !! p ∧
     is_Some (hst !! p) ∧ is_Some (hen !! p)).
Proof.
  revert i ss se. induction l as [|p0 rest IH]; intros i ss se Hov Hls Hle; simpl in *.
  - simplify_eq. split_and!; [done..|]. intros j p Hj. by rewrite lookup_nil in Hj.
  - destruct (hst !! p0) as [s|] eqn:Hs; simpl in Hov; [|done].
    destruct (hen !! p0) as [e|] eqn:He; simpl in Hov; [|done].
    apply IH in Hov; [|rewrite length_insert; lia..].
    rewrite !length_insert in Hov. destruct Hov as (Hl1 & Hl2 & Hlow & Hnew).
    split_and!; [done..| |].
    + intros k Hk. destruct (Hlow k) as [H1 H2]; [lia|].
      rewrite H1, H2. rewrite !list_lookup_insert_ne by lia. done.
    + intros [|j] p Hj; simpl in Hj.
      * simplify_eq. destruct (Hlow i) as [H1 H2]; [lia|].
        rewrite Nat.add_0_r, H1, H2.
        rewrite !list_lookup_insert_eq by lia. rewrite Hs, He. eauto.
      * replace (i + S j)%nat with (S i + j)%nat by lia. by apply Hnew.
Qed.

Section RankSegmentsFacts.
Context `{Torch} `{Punica}.

Lemma rank_segments_of_Some L meta hs rk l rs :
  rank_segments_of L meta hs rk l = Some rs →
  rank rs = rk ∧
  mapM (λ i, l_lora_a_ptr L !! i) l = Some (lora_a_ptr rs) ∧
  mapM (λ i, l_lora_b_ptr L !! i) l = Some (lora_b_ptr rs) ∧
  if l_use_sgmv L then
    indices rs = None ∧
    tmp_shrink rs = Some (get_tmp_tensors (length l) rk).1 ∧
    tmp_expand rs = Some (get_tmp_tensors (length l) rk).2 ∧
    ∃ ss se ss0 se0,
      segment_starts rs = Some ss ∧ segment_ends rs = Some se ∧
      mapM (λ i, adapter_segments meta !! i) l = Some ss0 ∧
      mapM (λ i, adapter_segments meta !! (i + 1)%nat) l = Some se0 ∧
      match hs with
      | Some (head_starts, head_ends) =>
        overwrite_segments head_starts head_ends l 0 ss0 se0 = Some (ss, se)
      | None => ss = ss0 ∧ se = se0
      end
  else
    segment_starts rs = None ∧ segment_ends rs = None ∧
    tmp_shrink rs = None ∧ tmp_expand rs = None ∧
    ∃ locs bi,
      idx_locs_loop (segment_indices meta) l 0 ∅ = Some locs ∧
      batch_indices_of (l_adapter_weights L) rk locs (adapter_indices meta) = Some bi ∧
      indices rs = Some bi.
Proof.
  unfold rank_segments_of. intros Hrs.
  destruct (mapM (λ i, l_lora_a_ptr L !! i) l) as [pa|] eqn:Hpa; simpl in Hrs; [|done].
  destruct (mapM (λ i, l_lora_b_ptr L !! i) l) as [pb|] eqn:Hpb; simpl in Hrs; [|done].
  destruct (mapM_lookup _ _ _ Hpa) as [Hlen _].
  destruct (l_use_sgmv L).
  - rewrite Hlen in Hrs.
    destruct (get_tmp_tensors (length l) rk) as [ts te].
    destruct (mapM (λ i, adapter_segments meta !! i) l) as [ss0|] eqn:Hss0;
      simpl in Hrs; [|done].
    destruct (mapM (λ i, adapter_segments meta !! (i + 1)%nat) l) as [se0|] eqn:Hse0;
      simpl in Hrs; [|done].
    destruct hs as [[head_starts head_ends]|].
    + destruct (overwrite_segments head_starts head_ends l 0 ss0 se0) as [[ss se]|] eqn:Hov;
        simpl in Hrs; [|done].
      simplify_eq/=. split_and!; try done. by exists ss, se, ss0, se0.
    + simplify_eq/=. split_and!; try done. by exists ss0, se0, ss0, se0.
  - destruct (idx_locs_loop (segment_indices meta) l 0 ∅) as [locs|] eqn:Hlocs;
      simpl in Hrs; [|done].
    destruct (batch_indices_of (l_adapter_weights L) rk locs (adapter_indices meta))
      as [bi|] eqn:Hbi; simpl in Hrs; [|done].
    simplify_eq/=. split_and!; try done. by exists locs, bi.
Qed.

End RankSegmentsFacts.

(** Membership in the rank groups. *)
Lemma rank_indices_members (aw : gmap Z LoraWeights) (segs : list Z) :
  let rank_indices := rank_indices_of aw segs in
  (∀ p, (∃ rk l, rank_indices !! rk = Some l ∧ p ∈ l) ↔
        (∃ idx, segs !! p = Some idx ∧ is_Some (aw !! idx))) ∧
  (∀ rk l p, rank_indices !! rk = Some l → p ∈ l →
     ∃ idx w, segs !! p = Some idx ∧ aw !! idx = Some w ∧ lora_a_r w = rk).
Proof.
  cbv zeta.
  assert (Hmem : ∀ rk l p, rank_indices_of aw segs !! rk = Some l → p ∈ l →
            ∃ idx w, segs !! p = Some idx ∧ aw !! idx = Some w ∧ lora_a_r w = rk).
  { intros rk l p [-> _]%rank_indices_of_lookup
      (i & idx & w & -> & Hi & Hw & Hr)%group_positions_elem.
    by exists idx, w. }
  split; [|exact Hmem].
  intros p. split.
  - intros (rk & l & Hl & Hp). destruct (Hmem _ _ _ Hl Hp) as (idx & w & Hi & Hw & _).
    exists idx. by rewrite Hw.
  - intros (idx & Hi & [w Hw]).
    assert (Hin : p ∈ group_positions aw segs 0 (lora_a_r w)).
    { apply group_positions_elem. by exists p, idx, w. }
    exists (lora_a_r w), (group_positions aw segs 0 (lora_a_r w)).
    split; [|done]. apply rank_indices_of_lookup. split; [done|].
    intros Hnil. rewrite Hnil in Hin. by apply elem_of_nil in Hin.
Qed.

Section RankKeys.
Context `{Torch} `{Punica}.

(** The keys of [rank_data] are those of [rank_indices]. *)
Lemma rank_data_keys adapter_weights meta name prefill head_indices h b st :
  BatchLoraWeights_load adapter_weights meta name prefill head_indices h
    = (Some (Some b), st) →
  ∀ rk, is_Some (rank_data b !! rk) ↔
        is_Some (rank_indices_of (lora_adapters adapter_weights)
                   (segment_indices meta) !! rk).
Proof.
  intros Hload rk.
  destruct (load_Some _ _ _ _ _ _ _ _ Hload) as (L & hs & Htab & _ & _ & Hrd & _).
  pose proof (rank_data_of_lookup _ _ _ _ _ Hrd) as Hlook. split.
  - intros [rs Hrs]. apply Hlook in Hrs as (l & Hl & _). by exists l.
  - intros [l Hl].
    destruct (rank_data_of_Some_all _ _ _ _ _ Hrd rk l Hl) as [rs Hrs].
    exists rs. apply Hlook. by exists l.
Qed.

End RankKeys.

(** C5. On a returned aggregation the rank groups partition the positions of
    the segments whose adapter has LoRA weights for the layer: the keys of
    [rank_data] are the keys of [rank_indices]; a position lies in some group
    exactly when its segment's adapter has weights; no group lists a position
    twice and no position lies in two groups. The per-group pointer slices
    have one entry per position of the group, read from the tables at that
    position, so a segment without weights contributes to no group and to no
    per-group table. *)
Theorem C5_rank_groups_partition `{Torch} `{Punica}
    (adapter_weights : list (Z * AdapterWeights)) (meta : AdapterBatchMetadata)
    (name : string) (prefill : bool) (head_indices : option (list Z)) (h : Heap)
    (b : BatchLoraWeights) (st : gmap Z LoraWeights * Heap) :
  BatchLoraWeights_load adapter_weights meta name prefill head_indices h
    = (Some (Some b), st) →
  let aw := lora_adapters adapter_weights in
  let segs := segment_indices meta in
  let rank_indices := rank_indices_of aw segs in
  (∀ rk, is_Some (rank_data b !! rk) ↔ is_Some (rank_indices !! rk)) ∧
  (∀ p, (∃ rk l, rank_indices !! rk = Some l ∧ p ∈ l) ↔
        (∃ idx, segs !! p = Some idx ∧ is_Some (aw !! idx))) ∧
  (∀ rk l p, rank_indices !! rk = Some l → p ∈ l →
     ∃ idx w, segs !! p = Some idx ∧ aw !! idx = Some w ∧ lora_a_r w = rk) ∧
  (∀ rk l, rank_indices !! rk = Some l → NoDup l) ∧
  (∀ rk1 rk2 l1 l2 p, rank_indices !! rk1 = Some l1 → rank_indices !! rk2 = Some l2 →
     p ∈ l1 → p ∈ l2 → rk1 = rk2) ∧
  (∀ rk rs, rank_data b !! rk = Some rs →
     ∃ l L, load_tables adapter_weights meta prefill h = inr L ∧
       rank_indices !! rk = Some l ∧ rank rs = rk ∧
       length (lora_a_ptr rs) = length l ∧ length (lora_b_ptr rs) = length l ∧
       (∀ ss, segment_starts rs = Some ss → length ss = length l) ∧
       (∀ se, segment_ends rs = Some se → length se = length l) ∧
       ∀ j p, l !! j = Some p →
         l_lora_a_ptr L !! p = lora_a_ptr rs !! j ∧
         l_lora_b_ptr L !! p = lora_b_ptr rs !! j).
Proof.
  intros Hload. cbv zeta.
  destruct (load_Some _ _ _ _ _ _ _ _ Hload) as (L & hs & Htab & _ & _ & Hrd & _).
  pose proof (rank_data_of_lookup _ _ _ _ _ Hrd) as Hlook.
  destruct (rank_indices_members (lora_adapters adapter_weights) (segment_indices meta))
    as [Hcover Hmem].
  split_and!.
  - by eapply rank_data_keys.
  - exact Hcover.
  - exact Hmem.
  - intros rk l [-> _]%rank_indices_of_lookup. apply group_positions_NoDup.
  - intros rk1 rk2 l1 l2 p Hl1 Hl2 Hp1 Hp2.
    destruct (Hmem _ _ _ Hl1 Hp1) as (idx1 & w1 & Hi1 & Hw1 & <-).
    destruct (Hmem _ _ _ Hl2 Hp2) as (idx2 & w2 & Hi2 & Hw2 & <-).
    congruence.
  - intros rk rs Hrs. apply Hlook in Hrs as (l & Hl & Hrs).
    exists l, L. split_and!; [done..| | | | | |].
    + by destruct (rank_segments_of_Some _ _ _ _ _ _ Hrs) as (? & _).
    + destruct (rank_segments_of_Some _ _ _ _ _ _ Hrs) as (_ & Hpa & _).
      by destruct (mapM_lookup _ _ _ Hpa).
    + destruct (rank_segments_of_Some _ _ _ _ _ _ Hrs) as (_ & _ & Hpb & _).
      by destruct (mapM_lookup _ _ _ Hpb).
    + intros ss Hss.
      destruct (rank_segments_of_Some _ _ _ _ _ _ Hrs) as (_ & _ & _ & Hrest).
      destruct (l_use_sgmv L); [|destruct Hrest as (? & _); congruence].
      destruct Hrest as (_ & _ & _ & ss' & se & ss0 & se0 & Hs & He & Hs0 & He0 & Hhs).
      destruct (mapM_lookup _ _ _ Hs0) as [Hl0 _]. destruct (mapM_lookup _ _ _ He0) as [Hl1 _].
      assert (ss' = ss) as -> by congruence.
      destruct hs as [[hst hen]|]; [|by destruct Hhs as [-> _]].
      apply overwrite_segments_spec in Hhs; [|lia..]. destruct Hhs as (-> & _). done.
    + intros se Hse.
      destruct (rank_segments_of_Some _ _ _ _ _ _ Hrs) as (_ & _ & _ & Hrest).
      destruct (l_use_sgmv L); [|destruct Hrest as (_ & ? & _); congruence].
      destruct Hrest as (_ & _ & _ & ss & se' & ss0 & se0 & Hs & He & Hs0 & He0 & Hhs).
      destruct (mapM_lookup _ _ _ Hs0) as [Hl0 _]. destruct (mapM_lookup _ _ _ He0) as [Hl1 _].
      assert (se' = se) as -> by congruence.
      destruct hs as [[hst hen]|]; [|by destruct Hhs as [_ ->]].
      apply overwrite_segments_spec in Hhs; [|lia..]. destruct Hhs as (_ & -> & _). done.
    + intros j p Hj.
      destruct (rank_segments_of_Some _ _ _ _ _ _ Hrs) as (_ & Hpa & Hpb & _).
      destruct (mapM_lookup _ _ _ Hpa) as [_ Ha]. destruct (mapM_lookup _ _ _ Hpb) as [_ Hb].
      split; [by apply Ha|by apply Hb].
Qed.

(** The sample decode batch: groups {0, 2} of rank 8 and {1} of rank 16;
    position 3, whose adapter has no weights, is in neither. *)
Lemma C5_rank_groups_partition_witness :
  ∃ b st,
    @BatchLoraWeights_load bump_torch sample_punica sample_adapter_weights
      sample_decode_meta "q_proj" false None 0%nat = (Some (Some b), st) ∧
    let aw := lora_adapters sample_adapter_weights in
    let segs := segment_indices sample_decode_meta in
    let rank_indices := rank_indices_of aw segs in
    (∀ rk, is_Some (rank_data b !! rk) ↔ is_Some (rank_indices !! rk)) ∧
    (∀ p, (∃ rk l, rank_indices !! rk = Some l ∧ p ∈ l) ↔
          (∃ idx, segs !! p = Some idx ∧ is_Some (aw !! idx))) ∧
    (∀ rk l p, rank_indices !! rk = Some l → p ∈ l →
       ∃ idx w, segs !! p = Some idx ∧ aw !! idx = Some w ∧ lora_a_r w = rk) ∧
    (∀ rk l, rank_indices !! rk = Some l → NoDup l) ∧
    (∀ rk1 rk2 l1 l2 p, rank_indices !! rk1 = Some l1 → rank_indices !! rk2 = Some l2 →
       p ∈ l1 → p ∈ l2 → rk1 = rk2) ∧
    (∀ rk rs, rank_data b !! rk = Some rs →
       ∃ l L, @load_tables bump_torch sample_punica sample_adapter_weights
                sample_decode_meta false 0%nat = inr L ∧
         rank_indices !! rk = Some l ∧ rank rs = rk ∧
         length (lora_a_ptr rs) = length l ∧ length (lora_b_ptr rs) = length l ∧
         (∀ ss, segment_starts rs = Some ss → length ss = length l) ∧
         (∀ se, segment_ends rs = Some se → length se = length l) ∧
         ∀ j p, l !! j = Some p →
           l_lora_a_ptr L !! p = lora_a_ptr rs !! j ∧
           l_lora_b_ptr L !! p = lora_b_ptr rs !! j).
Proof.
  eexists _, _. split.
  - vm_compute. reflexivity.
  - eapply (@C5_rank_groups_partition bump_torch sample_punica sample_adapter_weights
              sample_decode_meta "q_proj" false None 0%nat).
    vm_compute. reflexivity.
Defined.

(** ** The per-token index arrays *)

Lemma idx_locs_loop_lookup (segs : list Z) (l : list nat) (loc : nat)
    (acc locs : gmap Z nat) (a : Z) :
  idx_locs_loop segs l loc acc = Some locs →
  locs !! a = match acc !! a with
              | Some v => Some v
              | None => first_loc segs l loc a
              end.
Proof.
  revert loc acc. induction l as [|p rest IH]; intros loc acc Hloop; simpl in *.
  - simplify_eq. by destruct (locs !! a).
  - destruct (segs !! p) as [a0|] eqn:Hp; simpl in Hloop; [|done].
    rewrite (IH _ _ Hloop). clear IH Hloop.
    destruct (decide (a0 = a)) as [->|Hne].
    + rewrite bool_decide_eq_true_2 by done.
      destruct (acc !! a) as [v|] eqn:Hacc; [by rewrite Hacc|].
      by rewrite lookup_insert_eq.
    + rewrite bool_decide_eq_false_2 by congruence.
      destruct (acc !! a0); [done|]. by rewrite lookup_insert_ne.
Qed.

Lemma first_loc_Some (segs : list Z) (l : list nat) (loc : nat) (a : Z) (n : nat) :
  first_loc segs l loc a = Some n →
  ∃ j p, n = (loc + j)%nat ∧ l !! j = Some p ∧ segs !! p = Some a ∧
    ∀ j' p', (j' < j)%nat → l !! j' = Some p' → segs !! p' ≠ Some a.
Proof.
  revert loc. induction l as [|p0 rest IH]; intros loc Hf; simpl in Hf; [done|].
  case_bool_decide as Hp0.
  - simplify_eq. exists 0%nat, p0. split_and!; [lia|done..|]. intros j' p' Hj'. lia.
  - destruct (IH _ Hf) as (j & p & -> & Hj & Hp & Hfirst).
    exists (S j), p. split_and!; [lia|done..|].
    intros [|j'] p' Hlt Hj'; simpl in Hj'; [by simplify_eq|].
    eapply Hfirst; [|done]. lia.
Qed.

Lemma first_loc_None (segs : list Z) (l : list nat) (loc : nat) (a : Z) :
  first_loc segs l loc a = None → ∀ j p, l !! j = Some p → segs !! p ≠ Some a.
Proof.
  revert loc. induction l as [|p0 rest IH]; intros loc Hf j p Hj; simpl in *.
  - by rewrite lookup_nil in Hj.
  - case_bool_decide as Hp0; [done|].
    destruct j as [|j]; simpl in Hj; [by simplify_eq|]. by eapply IH.
Qed.

(** C4. On the per-token path ([use_sgmv] false), for a token [t] of adapter
    [a] and a rank group [rk] of the returned aggregation, with [l] the
    segment positions of the group: when [a] has weights of rank [rk], the
    group's index array maps [t] to the first location [loc] of [l] that
    points to a segment of [a], and the group's pointer slices hold at [loc]
    the table entries of that segment; when [a] has no weights for the layer
    or weights of another rank, the array maps [t] to -1. The group of the
    rank of [a] is there: when [a] has weights, the aggregation has a group
    for their rank exactly when [a] occurs in a segment, and then that
    group's index array holds for [t] the first location of [a], inside the
    group's pointer slices. *)
Theorem C4_per_token_indices `{Torch} `{Punica}
    (adapter_weights : list (Z * AdapterWeights)) (meta : AdapterBatchMetadata)
    (name : string) (prefill : bool) (head_indices : option (list Z)) (h : Heap)
    (b : BatchLoraWeights) (st : gmap Z LoraWeights * Heap) :
  BatchLoraWeights_load adapter_weights meta name prefill head_indices h
    = (Some (Some b), st) →
  use_sgmv b = false →
  ∀ t a, adapter_indices meta !! t = Some a →
  (∀ rk rs, rank_data b !! rk = Some rs →
    ∃ l bi L,
      load_tables adapter_weights meta prefill h = inr L ∧
      rank_indices_of (lora_adapters adapter_weights) (segment_indices meta) !! rk = Some l ∧
      indices rs = Some bi ∧
      length bi = length (adapter_indices meta) ∧
      ((∃ w, lora_adapters adapter_weights !! a = Some w ∧ lora_a_r w = rk) →
         ∃ loc p,
           bi !! t = Some (Z.of_nat loc) ∧
           l !! loc = Some p ∧ segment_indices meta !! p = Some a ∧
           (∀ loc' p', (loc' < loc)%nat → l !! loc' = Some p' →
              segment_indices meta !! p' ≠ Some a) ∧
           lora_a_ptr rs !! loc = l_lora_a_ptr L !! p ∧
           lora_b_ptr rs !! loc = l_lora_b_ptr L !! p) ∧
      (¬ (∃ w, lora_adapters adapter_weights !! a = Some w ∧ lora_a_r w = rk) →
         bi !! t = Some (-1))) ∧
  (∀ w, lora_adapters adapter_weights !! a = Some w →
     (is_Some (rank_data b !! lora_a_r w) ↔ a ∈ segment_indices meta) ∧
     (a ∈ segment_indices meta →
        ∃ rs l bi loc p,
          rank_data b !! lora_a_r w = Some rs ∧
          rank_indices_of (lora_adapters adapter_weights) (segment_indices meta)
            !! lora_a_r w = Some l ∧
          indices rs = Some bi ∧
          bi !! t = Some (Z.of_nat loc) ∧
          l !! loc = Some p ∧ segment_indices meta !! p = Some a ∧
          (∀ loc' p', (loc' < loc)%nat → l !! loc' = Some p' →
             segment_indices meta !! p' ≠ Some a) ∧
          is_Some (lora_a_ptr rs !! loc) ∧ is_Some (lora_b_ptr rs !! loc))).
Proof.
  intros Hload Hbgmv t a Ht.
  destruct (load_Some _ _ _ _ _ _ _ _ Hload)
    as (L & hs & Htab & _ & _ & Hrd & _ & Hsgmv & _).
  destruct (load_tables_inr _ _ _ _ _ Htab) as (_ & Hev & _).
  assert (Hmain : ∀ rk rs, rank_data b !! rk = Some rs →
    ∃ l bi,
      rank_indices_of (lora_adapters adapter_weights) (segment_indices meta) !! rk = Some l ∧
      indices rs = Some bi ∧
      length bi = length (adapter_indices meta) ∧
      length (lora_a_ptr rs) = length l ∧ length (lora_b_ptr rs) = length l ∧
      ((∃ w, lora_adapters adapter_weights !! a = Some w ∧ lora_a_r w = rk) →
         ∃ loc p,
           bi !! t = Some (Z.of_nat loc) ∧
           l !! loc = Some p ∧ segment_indices meta !! p = Some a ∧
           (∀ loc' p', (loc' < loc)%nat → l !! loc' = Some p' →
              segment_indices meta !! p' ≠ Some a) ∧
           lora_a_ptr rs !! loc = l_lora_a_ptr L !! p ∧
           lora_b_ptr rs !! loc = l_lora_b_ptr L !! p) ∧
      (¬ (∃ w, lora_adapters adapter_weights !! a = Some w ∧ lora_a_r w = rk) →
         bi !! t = Some (-1))).
  { intros rk rs Hrs.
    destruct (proj1 (rank_data_of_lookup _ _ _ _ _ Hrd rk rs) Hrs) as (l & Hl & Hrs').
    destruct (rank_segments_of_Some _ _ _ _ _ _ Hrs') as (_ & Hpa & Hpb & Hrest).
    rewrite <- Hsgmv, Hbgmv in Hrest.
    destruct Hrest as (_ & _ & _ & _ & locs & bi & Hlocs & Hbi & Hind).
    destruct (mapM_lookup _ _ _ Hbi) as [Hlen Hent].
    destruct (Hent t a Ht) as [Hf [v Hv]]. rewrite Hv in Hf.
    pose proof (store_sim_rank _ _ a (evolved_store_sim _ _ Hev)) as Hrank.
    destruct (mapM_lookup _ _ _ Hpa) as [Hlpa Ha]. destruct (mapM_lookup _ _ _ Hpb) as [Hlpb Hb].
    exists l, bi. split_and!; [done..| |].
    - intros (w & Hw & Hr). rewrite Hw in Hrank. simpl in Hrank.
      destruct (l_adapter_weights L !! a) as [w'|]; [|done].
      injection Hrank as Hrank. rewrite <- Hrank, Hr in Hf.
      rewrite bool_decide_eq_true_2 in Hf by done.
      rewrite (idx_locs_loop_lookup _ _ _ _ _ a Hlocs), lookup_empty in Hf.
      destruct (first_loc (segment_indices meta) l 0 a) as [loc|] eqn:Hfirst; [|done].
      simpl in Hf. injection Hf as <-.
      destruct (first_loc_Some _ _ _ _ _ Hfirst) as (j & p & -> & Hj & Hp & Hmin).
      exists j, p. simpl. split_and!; [by rewrite Hv|done..| |].
      + symmetry. by apply Ha.
      + symmetry. by apply Hb.
    - intros Hnot. rewrite Hv.
      destruct (lora_adapters adapter_weights !! a) as [w|] eqn:Hw.
      + simpl in Hrank. destruct (l_adapter_weights L !! a) as [w'|]; [|done].
        injection Hrank as Hrank.
        rewrite bool_decide_eq_false_2 in Hf; [done|].
        intros Hr. apply Hnot. exists w. split; [done|]. congruence.
      + simpl in Hrank. by destruct (l_adapter_weights L !! a). }
  split.
  - intros rk rs Hrs.
    destruct (Hmain rk rs Hrs) as (l & bi & Hl & Hi & Hlen & _ & _ & Hyes & Hno).
    by exists l, bi, L.
  - intros w Hw.
    assert (Hgroup : a ∈ segment_indices meta → is_Some (rank_data b !! lora_a_r w)).
    { intros [p Hp]%list_elem_of_lookup.
      apply (rank_data_keys _ _ _ _ _ _ _ _ Hload).
      exists (group_positions (lora_adapters adapter_weights) (segment_indices meta) 0
                (lora_a_r w)).
      apply rank_indices_of_lookup. split; [done|].
      assert (Hin : p ∈ group_positions (lora_adapters adapter_weights)
                      (segment_indices meta) 0 (lora_a_r w)).
      { apply group_positions_elem. exists p, a, w. split_and!; [lia|done..]. }
      intros Hnil. rewrite Hnil in Hin. by apply elem_of_nil in Hin. }
    assert (Hfull : ∀ rs, rank_data b !! lora_a_r w = Some rs →
      ∃ l bi loc p,
        rank_indices_of (lora_adapters adapter_weights) (segment_indices meta)
          !! lora_a_r w = Some l ∧
        indices rs = Some bi ∧
        bi !! t = Some (Z.of_nat loc) ∧
        l !! loc = Some p ∧ segment_indices meta !! p = Some a ∧
        (∀ loc' p', (loc' < loc)%nat → l !! loc' = Some p' →
           segment_indices meta !! p' ≠ Some a) ∧
        is_Some (lora_a_ptr rs !! loc) ∧ is_Some (lora_b_ptr rs !! loc)).
    { intros rs Hrs.
      destruct (Hmain _ rs Hrs) as (l & bi & Hl & Hi & _ & Hla & Hlb & Hyes & _).
      destruct Hyes as (loc & p & Hbt & Hloc & Hp & Hmin & _); [by exists w|].
      pose proof (lookup_lt_Some _ _ _ Hloc) as Hlt.
      exists l, bi, loc, p. split_and!; try done; apply lookup_lt_is_Some; lia. }
    split; [split|].
    + intros [rs Hrs]. destruct (Hfull rs Hrs) as (l & bi & loc & p & _ & _ & _ & _ & Hp & _).
      by eapply list_elem_of_lookup_2.
    + exact Hgroup.
    + intros Hin. destruct (Hgroup Hin) as [rs Hrs].
      destruct (Hfull rs Hrs) as (l & bi & loc & p & ? & ? & ? & ? & ? & ? & ? & ?).
      by exists rs, l, bi, loc, p.
Qed.

Lemma C4_per_token_indices_witness :
  ∃ b st,
    @BatchLoraWeights_load bump_torch sample_punica sample_adapter_weights
      sample_decode_meta "q_proj" false None 0%nat = (Some (Some b), st) ∧
    ∀ t a, adapter_indices sample_decode_meta !! t = Some a →
    (∀ rk rs, rank_data b !! rk = Some rs →
      ∃ l bi L,
        @load_tables bump_torch sample_punica sample_adapter_weights sample_decode_meta
          false 0%nat = inr L ∧
        rank_indices_of (lora_adapters sample_adapter_weights)
          (segment_indices sample_decode_meta) !! rk = Some l ∧
        indices rs = Some bi ∧
        length bi = length (adapter_indices sample_decode_meta) ∧
        ((∃ w, lora_adapters sample_adapter_weights !! a = Some w ∧ lora_a_r w = rk) →
           ∃ loc p,
             bi !! t = Some (Z.of_nat loc) ∧
             l !! loc = Some p ∧ segment_indices sample_decode_meta !! p = Some a ∧
             (∀ loc' p', (loc' < loc)%nat → l !! loc' = Some p' →
                segment_indices sample_decode_meta !! p' ≠ Some a) ∧
             lora_a_ptr rs !! loc = l_lora_a_ptr L !! p ∧
             lora_b_ptr rs !! loc = l_lora_b_ptr L !! p) ∧
        (¬ (∃ w, lora_adapters sample_adapter_weights !! a = Some w ∧ lora_a_r w = rk) →
           bi !! t = Some (-1))) ∧
    (∀ w, lora_adapters sample_adapter_weights !! a = Some w →
       (is_Some (rank_data b !! lora_a_r w) ↔ a ∈ segment_indices sample_decode_meta) ∧
       (a ∈ segment_indices sample_decode_meta →
          ∃ rs l bi loc p,
            rank_data b !! lora_a_r w = Some rs ∧
            rank_indices_of (lora_adapters sample_adapter_weights)
              (segment_indices sample_decode_meta) !! lora_a_r w = Some l ∧
            indices rs = Some bi ∧
            bi !! t = Some (Z.of_nat loc) ∧
            l !! loc = Some p ∧ segment_indices sample_decode_meta !! p = Some a ∧
            (∀ loc' p', (loc' < loc)%nat → l !! loc' = Some p' →
               segment_indices sample_decode_meta !! p' ≠ Some a) ∧
            is_Some (lora_a_ptr rs !! loc) ∧ is_Some (lora_b_ptr rs !! loc))).
Proof.
  eexists _, _. split.
  - vm_compute. reflexivity.
  - eapply (@C4_per_token_indices bump_torch sample_punica sample_adapter_weights
              sample_decode_meta "q_proj" false None 0%nat).
    + vm_compute. reflexivity.
    + vm_compute. reflexivity.
Defined.

(** ** The position-filtered segment boundaries *)

Local Ltac merge_lookups :=
  repeat match goal with
  | H1 : ?x = Some ?a, H2 : ?x = Some ?b |- _ =>
    let E := fresh "E" in
    assert (E : a = b) by congruence; clear H2; first [subst b | subst a | idtac]
  | H : Some ?a = Some ?b |- _ =>
    let E := fresh "E" in
    assert (E : a = b) by congruence; clear H; first [subst b | subst a | idtac]
  end.

Section HeadLoop.
Variables (segs pos : list Z) (N : nat).
Hypothesis Hok : head_indices_ok segs pos N.

Lemma head_inv_init : head_inv segs pos N 0 1 [0] [0].
Proof.
  destruct Hok. constructor; simpl; try done.
  - lia.
  - intros k Hk. lia.
  - intros [|k] s e Hs He; simpl in *; [|done]. simplify_eq. lia.
  - intros [|k] s e lo hi i p Hs He Hi; simpl in *; [|done]. simplify_eq. lia.
  - intros i p bd Hi. lia.
  - intros p lo Hm. lia.
  - intros i Hi. lia.
Qed.

Lemma segs_lookup k : (k ≤ N)%nat → is_Some (segs !! k).
Proof. intros Hk. apply lookup_lt_is_Some. destruct Hok. lia. Qed.

Lemma head_inv_low m j starts ends p lo :
  head_inv segs pos N m j starts ends →
  pos !! m = Some p → segs !! (j - 1)%nat = Some lo → lo ≤ p.
Proof.
  intros Hinv Hp Hlo. destruct Hinv. destruct Hok.
  destruct (decide (j = 1%nat)) as [->|Hj].
  - destruct (segs_lookup N) as [hi Hhi]; [lia|].
    simpl in Hlo. by destruct (hio_in_batch0 m p lo hi Hp Hlo Hhi).
  - assert (Hm : (0 < m)%nat) by lia.
    destruct (lookup_lt_is_Some_2 pos (m - 1)) as [q Hq].
    { apply lookup_lt_Some in Hp. lia. }
    pose proof (hi_above0 q lo Hm Hq Hlo).
    pose proof (hio_sorted0 (m - 1)%nat m q p ltac:(lia) Hq Hp). lia.
Qed.

Lemma head_inv_stay m j starts ends p bd :
  head_inv segs pos N m j starts ends →
  pos !! m = Some p → segs !! j = Some bd → p < bd →
  head_inv segs pos N (S m) j starts (<[pred (length ends) := Z.of_nat m + 1]> ends).
Proof.
  intros Hinv Hp Hbd Hlt.
  destruct (segs_lookup (j - 1)) as [lo Hlo]; [destruct Hinv; lia|].
  pose proof (head_inv_low _ _ _ _ _ _ Hinv Hp Hlo) as Hlow.
  destruct Hinv. destruct hi_j0 as (Hj & Hjm & Hm). destruct hi_length0 as [Hls Hle].
  rewrite Hle. replace (pred j) with (j - 1)%nat by lia.
  assert (Hnew : <[(j - 1)%nat := Z.of_nat m + 1]> ends !! (j - 1)%nat
                   = Some (Z.of_nat m + 1)).
  { apply list_lookup_insert_eq. lia. }
  assert (Hold : ∀ k, k ≠ (j - 1)%nat →
            <[(j - 1)%nat := Z.of_nat m + 1]> ends !! k = ends !! k).
  { intros k Hk. by apply list_lookup_insert_ne. }
  constructor.
  - apply lookup_lt_Some in Hp. lia.
  - by rewrite length_insert.
  - done.
  - intros k Hk. rewrite Hold by lia. by apply hi_chain0.
  - rewrite Hnew. f_equal. lia.
  - intros k s e Hs He. destruct (decide (k = (j - 1)%nat)) as [->|Hk].
    + rewrite Hnew in He. merge_lookups.
      destruct (hi_bounds0 _ _ _ Hs hi_last0). lia.
    + rewrite Hold in He by done. destruct (hi_bounds0 _ _ _ Hs He). lia.
  - intros k s e lo' hi' i p' Hs He Hi Hp' Hlo' Hhi'.
    destruct (decide (k = (j - 1)%nat)) as [->|Hk].
    + rewrite Hnew in He. merge_lookups.
      destruct (decide (i = m)) as [->|Hi'].
      * replace (S (j - 1)) with j in Hhi' by lia. merge_lookups. lia.
      * eapply (hi_run0 (j - 1)%nat s (Z.of_nat m)); try done. lia.
    + rewrite Hold in He by done. by eapply hi_run0.
  - intros i p' bd' Hi Hp' Hbd'. destruct (decide (i = m)) as [->|Hi'].
    + merge_lookups; lia.
    + eapply hi_below0; [|done..]. lia.
  - intros p' lo' _ Hp' Hlo'. replace (S m - 1)%nat with m in Hp' by lia. merge_lookups; lia.
  - intros i Hi. destruct (decide (i = m)) as [->|Hi'].
    + destruct (lookup_lt_is_Some_2 starts (j - 1)) as [s Hs]; [lia|].
      destruct (hi_bounds0 _ _ _ Hs hi_last0).
      exists (j - 1)%nat, s, (Z.of_nat m + 1). split_and!; [done|done|lia|lia].
    + destruct (hi_total0 i) as (k & s & e & Hs & He & Hie); [lia|].
      destruct (decide (k = (j - 1)%nat)) as [->|Hk].
      * rewrite hi_last0 in He. merge_lookups.
        exists (j - 1)%nat, s, (Z.of_nat m + 1). split_and!; [done|done|lia|lia].
      * exists k, s, e. by rewrite Hold.
Qed.

Lemma head_inv_open m j starts ends p bd :
  head_inv segs pos N m j starts ends →
  pos !! m = Some p → segs !! j = Some bd → ¬ p < bd →
  head_inv segs pos N (S m) (S j) (starts ++ [Z.of_nat m]) (ends ++ [Z.of_nat m + 1]).
Proof.
  intros Hinv Hp Hbd Hge.
  destruct Hinv. destruct hi_j0 as (Hj & Hjm & Hm). destruct hi_length0 as [Hls Hle].
  destruct Hok.
  assert (HjN : (j < N)%nat).
  { destruct (decide (j = N)) as [->|?]; [|lia].
    destruct (segs_lookup 0) as [lo Hlo]; [lia|].
    destruct (hio_in_batch0 m p lo bd Hp Hlo Hbd). lia. }
  destruct (hio_cover0 j HjN) as (i' & q & lo' & hi' & Hq & Hlo' & Hhi' & Hqin).
  assert (Hi' : (m ≤ i')%nat).
  { destruct (decide (m ≤ i')%nat); [done|].
    pose proof (hi_below0 i' q bd ltac:(lia) Hq Hbd). merge_lookups. lia. }
  assert (Hphi : p < hi').
  { pose proof (hio_sorted0 m i' p q Hi' Hp Hq). lia. }
  assert (Hsl : ∀ k x, starts !! k = Some x → (starts ++ [Z.of_nat m]) !! k = Some x).
  { intros k x Hx. by apply lookup_app_l_Some. }
  assert (Hel : ∀ k x, ends !! k = Some x → (ends ++ [Z.of_nat m + 1]) !! k = Some x).
  { intros k x Hx. by apply lookup_app_l_Some. }
  assert (Hsn : (starts ++ [Z.of_nat m]) !! j = Some (Z.of_nat m)).
  { rewrite lookup_app_r by lia. by rewrite Hls, Nat.sub_diag. }
  assert (Hen : (ends ++ [Z.of_nat m + 1]) !! j = Some (Z.of_nat m + 1)).
  { rewrite lookup_app_r by lia. by rewrite Hle, Nat.sub_diag. }
  assert (Hso : ∀ k, (k < j)%nat → (starts ++ [Z.of_nat m]) !! k = starts !! k).
  { intros k Hk. apply lookup_app_l. lia. }
  assert (Heo : ∀ k, (k < j)%nat → (ends ++ [Z.of_nat m + 1]) !! k = ends !! k).
  { intros k Hk. apply lookup_app_l. lia. }
  assert (Hrange : ∀ k x, (starts ++ [Z.of_nat m]) !! k = Some x → (k ≤ j)%nat).
  { intros k x Hx. apply lookup_lt_Some in Hx. rewrite length_app in Hx. simpl in Hx. lia. }
  constructor.
  - apply lookup_lt_Some in Hp. lia.
  - rewrite !length_app. simpl. lia.
  - by apply Hsl.
  - intros k Hk. destruct (decide (S k = j)) as [<-|Hkj].
    + rewrite Heo by lia. rewrite Hsn.
      replace (S k - 1)%nat with k in hi_last0 by lia. done.
    + rewrite Heo, Hso by lia. apply hi_chain0. lia.
  - replace (S j - 1)%nat with j by lia. rewrite Hen. f_equal. lia.
  - intros k s e Hs He. pose proof (Hrange _ _ Hs) as Hk.
    destruct (decide (k = j)) as [->|Hkj].
    + rewrite Hsn in Hs. rewrite Hen in He. merge_lookups. lia.
    + rewrite Hso in Hs by lia. rewrite Heo in He by lia.
      destruct (hi_bounds0 _ _ _ Hs He). lia.
  - intros k s e lo hi i p' Hs He Hi Hp' Hlo Hhi. pose proof (Hrange _ _ Hs) as Hk.
    destruct (decide (k = j)) as [->|Hkj].
    + rewrite Hsn in Hs. rewrite Hen in He. merge_lookups.
      assert (i = m) as -> by lia. merge_lookups. lia.
    + rewrite Hso in Hs by lia. rewrite Heo in He by lia. by eapply hi_run0.
  - intros i p' bd' Hi Hp' Hbd'. merge_lookups.
    pose proof (hio_sorted0 i m p' p ltac:(lia) Hp' Hp). lia.
  - intros p' lo _ Hp' Hlo. replace (S m - 1)%nat with m in Hp' by lia.
    replace (S j - 1)%nat with j in Hlo by lia. merge_lookups. lia.
  - intros i Hi. destruct (decide (i = m)) as [->|Hi''].
    + exists j, (Z.of_nat m), (Z.of_nat m + 1). split_and!; [done|done|lia|lia].
    + destruct (hi_total0 i) as (k & s & e & Hs & He & Hie); [lia|].
      exists k, s, e. split_and!; [by apply Hsl|by apply Hel|lia|lia].
Qed.

Lemma prefill_head_loop_inv rest m j starts ends :
  drop m pos = rest →
  head_inv segs pos N m j starts ends →
  ∃ j' starts' ends',
    prefill_head_loop segs rest j starts ends = Some (starts', ends') ∧
    head_inv segs pos N (length pos) j' starts' ends'.
Proof.
  revert m j starts ends.
  induction rest as [|p rest IH]; intros m j starts ends Hdrop Hinv; simpl.
  - exists j, starts, ends. split; [done|].
    assert (m = length pos) as <-; [|done].
    apply drop_nil_inv in Hdrop. destruct Hinv. lia.
  - assert (Hp : pos !! m = Some p).
    { pose proof (lookup_drop pos m 0) as Hl. rewrite Hdrop, Nat.add_0_r in Hl. done. }
    assert (Hrest : drop (S m) pos = rest).
    { rewrite (drop_S _ _ _ Hp) in Hdrop. by injection Hdrop. }
    destruct (segs_lookup j) as [bd Hbd]; [destruct Hinv; lia|].
    rewrite Hbd. simpl.
    assert (Hlast : last ends = Some (Z.of_nat m)).
    { rewrite last_lookup. destruct Hinv. destruct hi_length0 as [_ ->].
      replace (pred j) with (j - 1)%nat by lia. done. }
    rewrite Hlast. simpl. case_bool_decide as Hlt.
    + eapply IH; [exact Hrest|]. by eapply head_inv_stay.
    + eapply IH; [exact Hrest|]. by eapply head_inv_open.
Qed.

End HeadLoop.

Lemma segs_increasing (segs pos : list Z) (N : nat) :
  head_indices_ok segs pos N →
  ∀ d k lo hi, (k + S d ≤ N)%nat → segs !! k = Some lo → segs !! (k + S d)%nat = Some hi →
    lo < hi.
Proof.
  intros Hok. induction d as [|d IH]; intros k lo hi Hk Hlo Hhi.
  - destruct (hio_cover _ _ _ Hok k) as (i & p & lo' & hi' & _ & Hlo' & Hhi' & Hp); [lia|].
    replace (k + 1)%nat with (S k) in Hhi by lia. simplify_eq. lia.
  - destruct (hio_cover _ _ _ Hok (k + S d)%nat)
      as (i & p & lo' & hi' & _ & Hlo' & Hhi' & Hp); [lia|].
    replace (k + S (S d))%nat with (S (k + S d)) in Hhi by lia. simplify_eq.
    pose proof (IH k lo lo' ltac:(lia) Hlo Hlo'). lia.
Qed.

(** The loop over well-formed selected positions ends with one run per
    segment. *)
Lemma prefill_head_segments_ok (segs pos : list Z) (N : nat) :
  head_indices_ok segs pos N →
  ∃ starts ends,
    prefill_head_segments segs pos = Some (starts, ends) ∧
    length starts = N ∧ length ends = N ∧
    starts !! 0%nat = Some 0 ∧
    ends !! (N - 1)%nat = Some (Z.of_nat (length pos)) ∧
    (∀ k, (S k < N)%nat → ends !! k = starts !! S k) ∧
    ∀ k, (k < N)%nat →
      ∃ s e lo hi,
        starts !! k = Some s ∧ ends !! k = Some e ∧
        segs !! k = Some lo ∧ segs !! S k = Some hi ∧
        0 ≤ s ∧ s < e ∧ e ≤ Z.of_nat (length pos) ∧
        ∀ i p, pos !! i = Some p → (s ≤ Z.of_nat i < e ↔ lo ≤ p < hi).
Proof.
  intros Hok.
  destruct (prefill_head_loop_inv segs pos N Hok pos 0 1 [0] [0] eq_refl
              (head_inv_init segs pos N Hok)) as (j & starts & ends & Hloop & Hinv).
  exists starts, ends. split; [exact Hloop|].
  pose proof (segs_increasing _ _ _ Hok) as Hmono.
  destruct Hinv. destruct hi_j0 as (Hj & _ & _). destruct hi_length0 as [Hls Hle].
  assert (HjN : j = N).
  { destruct (decide (j = N)) as [|Hne]; [done|]. exfalso.
    destruct (hio_cover _ _ _ Hok j) as (i & p & lo & hi & Hp & Hlo & _ & Hin); [lia|].
    pose proof (lookup_lt_Some _ _ _ Hp) as Hi.
    pose proof (hi_below0 i p lo Hi Hp Hlo). lia. }
  rewrite HjN in *. clear HjN.
  assert (Hchar : ∀ k s e lo hi i p,
            starts !! k = Some s → ends !! k = Some e →
            segs !! k = Some lo → segs !! S k = Some hi →
            pos !! i = Some p → lo ≤ p < hi → s ≤ Z.of_nat i < e).
  { intros k s e lo hi i p Hs He Hlo Hhi Hp Hin.
    destruct (hi_total0 i) as (k' & s' & e' & Hs' & He' & Hi'); [by eapply lookup_lt_Some|].
    pose proof (lookup_lt_Some _ _ _ Hs) as Hk. pose proof (lookup_lt_Some _ _ _ Hs') as Hk'.
    destruct (lookup_lt_is_Some_2 segs k') as [lo' Hlo']; [destruct Hok; lia|].
    destruct (lookup_lt_is_Some_2 segs (S k')) as [hi' Hhi']; [destruct Hok; lia|].
    pose proof (hi_run0 k' s' e' lo' hi' i p Hs' He' Hi' Hp Hlo' Hhi') as Hin'.
    destruct (decide (k' = k)) as [->|Hne]; [by simplify_eq|]. exfalso.
    destruct (decide (k' < k)%nat) as [Hlt|Hge].
    - destruct (decide (S k' = k)) as [<-|Hne'].
      + simplify_eq. lia.
      + pose proof (Hmono (k - S k' - 1)%nat (S k') hi' lo ltac:(lia) Hhi') as Hm.
        replace (S k' + S (k - S k' - 1))%nat with k in Hm by lia. specialize (Hm Hlo). lia.
    - destruct (decide (S k = k')) as [<-|Hne'].
      + simplify_eq. lia.
      + pose proof (Hmono (k' - S k - 1)%nat (S k) hi lo' ltac:(lia) Hhi) as Hm.
        replace (S k + S (k' - S k - 1))%nat with k' in Hm by lia. specialize (Hm Hlo'). lia. }
  split_and!; [lia|lia|done|done|done|].
  intros k Hk.
  destruct (lookup_lt_is_Some_2 starts k) as [s Hs]; [lia|].
  destruct (lookup_lt_is_Some_2 ends k) as [e He]; [lia|].
  destruct (lookup_lt_is_Some_2 segs k) as [lo Hlo]; [destruct Hok; lia|].
  destruct (lookup_lt_is_Some_2 segs (S k)) as [hi Hhi]; [destruct Hok; lia|].
  exists s, e, lo, hi.
  destruct (hi_bounds0 _ _ _ Hs He) as [Hse Hem].
  destruct (hio_cover _ _ _ Hok k Hk) as (i & p & lo' & hi' & Hp & Hlo' & Hhi' & Hin).
  simplify_eq.
  pose proof (Hchar k s e lo hi i p Hs He Hlo Hhi Hp Hin) as Hne.
  split_and!; [done..|lia|lia|lia|].
  intros i' p' Hp'. split.
  - intros Hi'. by eapply hi_run0.
  - intros Hin'. by eapply Hchar.
Qed.

Lemma overwrite_segments_total (hst hen : list Z) (l : list nat) (i : nat) (ss se : list Z) :
  (∀ p, p ∈ l → is_Some (hst !! p) ∧ is_Some (hen !! p)) →
  is_Some (overwrite_segments hst hen l i ss se).
Proof.
  revert i ss se. induction l as [|p0 rest IH]; intros i ss se Hall; simpl; [done|].
  destruct (Hall p0) as [[s ->] [e ->]]; [by left|]. simpl.
  apply IH. intros p Hp. apply Hall. by right.
Qed.

Section SgmvFacts.
Context `{Torch} `{Punica}.

(** On the variable-length path a rank group's tables can always be built
    from metadata of the right length. *)
Lemma rank_segments_of_sgmv_total L meta hs rk l :
  l_use_sgmv L = true →
  length (l_lora_a_ptr L) = length (segment_indices meta) →
  length (l_lora_b_ptr L) = length (segment_indices meta) →
  length (adapter_segments meta) = S (length (segment_indices meta)) →
  match hs with
  | Some (hst, hen) =>
    length hst = length (segment_indices meta) ∧ length hen = length (segment_indices meta)
  | None => True
  end →
  (∀ p, p ∈ l → (p < length (segment_indices meta))%nat) →
  is_Some (rank_segments_of L meta hs rk l).
Proof.
  intros Hsgmv Hla Hlb Hseg Hhs Hl. unfold rank_segments_of.
  assert (Hm : ∀ g : nat → option Z,
            (∀ p, p ∈ l → is_Some (g p)) → is_Some (mapM g l)).
  { intros g Hg. apply mapM_is_Some, Forall_forall. intros p Hp. simpl. by apply Hg. }
  destruct (Hm (λ i, l_lora_a_ptr L !! i)) as [pa ->].
  { intros p Hp. specialize (Hl p Hp). apply lookup_lt_is_Some. lia. }
  destruct (Hm (λ i, l_lora_b_ptr L !! i)) as [pb ->].
  { intros p Hp. specialize (Hl p Hp). apply lookup_lt_is_Some. lia. }
  simpl. rewrite Hsgmv. destruct (get_tmp_tensors (length pa) rk) as [ts te].
  destruct (Hm (λ i, adapter_segments meta !! i)) as [ss0 ->].
  { intros p Hp. specialize (Hl p Hp). apply lookup_lt_is_Some. lia. }
  destruct (Hm (λ i, adapter_segments meta !! (i + 1)%nat)) as [se0 ->].
  { intros p Hp. specialize (Hl p Hp). apply lookup_lt_is_Some. lia. }
  simpl. destruct hs as [[hst hen]|]; [|done].
  destruct (overwrite_segments_total hst hen l 0 ss0 se0) as [[ss se] ->]; [|done].
  intros p Hp. specialize (Hl p Hp). destruct Hhs as [Hl1 Hl2].
  split; apply lookup_lt_is_Some; lia.
Qed.

End SgmvFacts.

(** C9. Let selected positions be given that increase, lie in the batch and
    hit every one of the [N] segments. The loop over them ends with one
    [start, end) range of indices into the position list per segment, in
    metadata order: the ranges start at 0, each begins where the one before
    ends, the last ends at the number of positions, and the range of segment
    [k] holds exactly the indices whose position lies in segment [k], that
    is, below its next metadata boundary and not below its own. On the
    variable-length path load does not raise, and every rank group's
    [segment_starts] and [segment_ends] are these ranges at the group's
    segment positions, not the raw metadata boundaries. Such groups are
    there: a prefill call on a batch with a segment whose adapter has LoRA
    weights returns an aggregation on the variable-length path, and for every
    segment [p] whose adapter has weights the aggregation has the group of
    that adapter's rank, which lists [p] at a location [j] and holds at [j]
    the range of segment [p]. *)
Theorem C9_filtered_boundaries `{Torch} `{Punica}
    (adapter_weights : list (Z * AdapterWeights)) (meta : AdapterBatchMetadata)
    (name : string) (prefill : bool) (pos : list Z) (h : Heap) (N : nat) :
  head_indices_ok (adapter_segments meta) pos N →
  length (segment_indices meta) = N →
  ∃ starts ends,
    prefill_head_segments (adapter_segments meta) pos = Some (starts, ends) ∧
    length starts = N ∧ length ends = N ∧
    starts !! 0%nat = Some 0 ∧
    ends !! (N - 1)%nat = Some (Z.of_nat (length pos)) ∧
    (∀ k, (S k < N)%nat → ends !! k = starts !! S k) ∧
    (∀ k, (k < N)%nat →
       ∃ s e lo hi,
         starts !! k = Some s ∧ ends !! k = Some e ∧
         adapter_segments meta !! k = Some lo ∧ adapter_segments meta !! S k = Some hi ∧
         0 ≤ s ∧ s < e ∧ e ≤ Z.of_nat (length pos) ∧
         ∀ i p, pos !! i = Some p → (s ≤ Z.of_nat i < e ↔ lo ≤ p < hi)) ∧
    (∀ L, load_tables adapter_weights meta prefill h = inr L → l_use_sgmv L = true →
       ∃ b, BatchLoraWeights_load adapter_weights meta name prefill (Some pos) h
              = (Some (Some b), (l_adapter_weights L, l_heap L))) ∧
    (∀ b st,
       BatchLoraWeights_load adapter_weights meta name prefill (Some pos) h
         = (Some (Some b), st) →
       use_sgmv b = true →
       ∀ rk rs, rank_data b !! rk = Some rs →
         ∃ l ss se,
           rank_indices_of (lora_adapters adapter_weights) (segment_indices meta) !! rk
             = Some l ∧
           segment_starts rs = Some ss ∧ segment_ends rs = Some se ∧
           length ss = length l ∧ length se = length l ∧
           ∀ j p, l !! j = Some p → ss !! j = starts !! p ∧ se !! j = ends !! p) ∧
    (prefill = true →
     (∃ idx, idx ∈ segment_indices meta ∧ is_Some (lora_adapters adapter_weights !! idx)) →
       ∃ b st,
         BatchLoraWeights_load adapter_weights meta name prefill (Some pos) h
           = (Some (Some b), st) ∧
         use_sgmv b = true) ∧
    (∀ b st,
       BatchLoraWeights_load adapter_weights meta name prefill (Some pos) h
         = (Some (Some b), st) →
       use_sgmv b = true →
       ∀ p idx w, segment_indices meta !! p = Some idx →
         lora_adapters adapter_weights !! idx = Some w →
         ∃ rs l j ss se s e lo hi,
           rank_data b !! lora_a_r w = Some rs ∧
           rank_indices_of (lora_adapters adapter_weights) (segment_indices meta)
             !! lora_a_r w = Some l ∧
           l !! j = Some p ∧
           segment_starts rs = Some ss ∧ segment_ends rs = Some se ∧
           ss !! j = Some s ∧ se !! j = Some e ∧
           starts !! p = Some s ∧ ends !! p = Some e ∧
           adapter_segments meta !! p = Some lo ∧ adapter_segments meta !! S p = Some hi ∧
           s < e ∧
           ∀ i q, pos !! i = Some q → (s ≤ Z.of_nat i < e ↔ lo ≤ q < hi)).
Proof.
  intros Hok HN.
  destruct (prefill_head_segments_ok _ _ _ Hok)
    as (starts & ends & Hhead & Hls & Hle & Hfirst & Hlast & Hchain & Hchar).
  assert (Htotal : ∀ L, load_tables adapter_weights meta prefill h = inr L →
            l_use_sgmv L = true →
            ∃ b, BatchLoraWeights_load adapter_weights meta name prefill (Some pos) h
                   = (Some (Some b), (l_adapter_weights L, l_heap L))).
  { intros L Htab Hsgmv.
    destruct (load_tables_inr _ _ _ _ _ Htab)
      as (_ & Hev & _ & _ & _ & _ & _ & _ & Hla & Hlb & _).
    pose proof (evolved_store_sim _ _ Hev) as Hsim.
    unfold BatchLoraWeights_load. rewrite Htab, Hhead. simpl.
    rewrite <- (rank_indices_of_sim _ _ _ Hsim).
    destruct (rank_data_of_total L meta (Some (starts, ends))
                (rank_indices_of (lora_adapters adapter_weights) (segment_indices meta)))
      as [rd Hrd].
    { intros rk l [-> _]%rank_indices_of_lookup.
      apply rank_segments_of_sgmv_total; try done.
      - rewrite (hio_length _ _ _ Hok). lia.
      - split; lia.
      - intros p (i & idx & w & -> & Hi & _)%group_positions_elem.
        apply lookup_lt_Some in Hi. lia. }
    rewrite Hrd. simpl. eauto. }
  assert (Hgroups : ∀ b st,
            BatchLoraWeights_load adapter_weights meta name prefill (Some pos) h
              = (Some (Some b), st) →
            use_sgmv b = true →
            ∀ rk rs, rank_data b !! rk = Some rs →
              ∃ l ss se,
                rank_indices_of (lora_adapters adapter_weights) (segment_indices meta) !! rk
                  = Some l ∧
                segment_starts rs = Some ss ∧ segment_ends rs = Some se ∧
                length ss = length l ∧ length se = length l ∧
                ∀ j p, l !! j = Some p → ss !! j = starts !! p ∧ se !! j = ends !! p).
  { intros b st Hload Hsgmv rk rs Hrs.
    destruct (load_Some _ _ _ _ _ _ _ _ Hload)
      as (L & hs & Htab & _ & Hhs & Hrd & _ & Hsg & _).
    rewrite Hhead in Hhs. simpl in Hhs. injection Hhs as <-.
    destruct (proj1 (rank_data_of_lookup _ _ _ _ _ Hrd rk rs) Hrs) as (l & Hl & Hrs').
    destruct (rank_segments_of_Some _ _ _ _ _ _ Hrs') as (_ & _ & _ & Hrest).
    rewrite <- Hsg, Hsgmv in Hrest.
    destruct Hrest as (_ & _ & _ & ss & se & ss0 & se0 & Hss & Hse & Hss0 & Hse0 & Hov).
    destruct (mapM_lookup _ _ _ Hss0) as [Hl0 _]. destruct (mapM_lookup _ _ _ Hse0) as [Hl1 _].
    apply overwrite_segments_spec in Hov; [|lia..].
    destruct Hov as (Hlss & Hlse & _ & Hent).
    exists l, ss, se. split_and!; [done|done|done|lia|lia|].
    intros j p Hj. destruct (Hent j p Hj) as (Hs & He & _). by split. }
  exists starts, ends. split_and!; try done.
  - intros -> (idx & Hidx & [w Hw]).
    destruct (load_tables adapter_weights meta true h) as [st0|L] eqn:Htab.
    { exfalso. apply load_tables_inl in Htab as [Hnil|Hnil].
      - unfold lora_adapters in Hw. by rewrite Hnil in Hw.
      - rewrite segment_ranks_of_nil in Hnil. specialize (Hnil idx Hidx). congruence. }
    assert (Hsgmv : l_use_sgmv L = true).
    { by destruct (load_tables_inr _ _ _ _ _ Htab) as (_ & _ & _ & _ & _ & _ & _ & -> & _). }
    destruct (Htotal L eq_refl Hsgmv) as [b Hb].
    exists b, (l_adapter_weights L, l_heap L). split; [done|].
    destruct (load_Some _ _ _ _ _ _ _ _ Hb) as (L' & hs & Htab' & _ & _ & _ & _ & -> & _).
    congruence.
  - intros b st Hload Hsgmv p idx w Hp Hw.
    set (rk := lora_a_r w).
    set (l := group_positions (lora_adapters adapter_weights) (segment_indices meta) 0 rk).
    assert (Hpin : p ∈ l).
    { apply group_positions_elem. exists p, idx, w. split_and!; [lia|done..]. }
    assert (Hl : rank_indices_of (lora_adapters adapter_weights) (segment_indices meta) !! rk
                   = Some l).
    { apply rank_indices_of_lookup. split; [done|].
      intros Hnil. rewrite Hnil in Hpin. by apply elem_of_nil in Hpin. }
    destruct (proj2 (rank_data_keys _ _ _ _ _ _ _ _ Hload rk)) as [rs Hrs]; [by exists l|].
    destruct (Hgroups b st Hload Hsgmv rk rs Hrs) as (l' & ss & se & Hl' & Hss & Hse & _ & _ & Hent).
    assert (l' = l) as -> by congruence.
    apply list_elem_of_lookup in Hpin as [j Hj].
    destruct (Hent j p Hj) as [Hsj Hej].
    pose proof (lookup_lt_Some _ _ _ Hp) as HpN.
    destruct (Hchar p) as (s & e & lo & hi & Hs & He & Hlo & Hhi & _ & Hlt & _ & Hrun); [lia|].
    exists rs, l, j, ss, se, s, e, lo, hi.
    split_and!; try done; congruence.
Qed.

Lemma sample_head_indices_ok :
  head_indices_ok (adapter_segments sample_prefill_meta) [4; 8; 11] 3.
Proof.
  constructor; simpl.
  - reflexivity.
  - lia.
  - intros i i' p p' Hle Hp Hp'.
    destruct i as [|[|[|i]]]; destruct i' as [|[|[|i']]]; simpl in *; simplify_eq; lia.
  - intros i p lo hi Hp Hlo Hhi.
    destruct i as [|[|[|i]]]; simpl in *; simplify_eq; lia.
  - intros k Hk. destruct k as [|[|[|k]]]; [| | |lia].
    + exists 0%nat, 4, 0, 5. simpl. split_and!; try done; lia.
    + exists 1%nat, 8, 5, 9. simpl. split_and!; try done; lia.
    + exists 2%nat, 11, 9, 12. simpl. split_and!; try done; lia.
Qed.

(** The sample prefill batch with the last position of each segment
    selected. *)
Lemma C9_filtered_boundaries_witness :
  ∃ starts ends,
    prefill_head_segments (adapter_segments sample_prefill_meta) [4; 8; 11]
      = Some (starts, ends) ∧
    length starts = 3%nat ∧ length ends = 3%nat ∧
    starts !! 0%nat = Some 0 ∧
    ends !! (3 - 1)%nat = Some (Z.of_nat (length [4; 8; 11])) ∧
    (∀ k, (S k < 3)%nat → ends !! k = starts !! S k) ∧
    (∀ k, (k < 3)%nat →
       ∃ s e lo hi,
         starts !! k = Some s ∧ ends !! k = Some e ∧
         adapter_segments sample_prefill_meta !! k = Some lo ∧
         adapter_segments sample_prefill_meta !! S k = Some hi ∧
         0 ≤ s ∧ s < e ∧ e ≤ Z.of_nat (length [4; 8; 11]) ∧
         ∀ i p, [4; 8; 11] !! i = Some p → (s ≤ Z.of_nat i < e ↔ lo ≤ p < hi)) ∧
    (∀ L, @load_tables bump_torch sample_punica sample_adapter_weights
            sample_prefill_meta true 0%nat = inr L →
       l_use_sgmv L = true →
       ∃ b, @BatchLoraWeights_load bump_torch sample_punica sample_adapter_weights
              sample_prefill_meta "q_proj" true (Some [4; 8; 11]) 0%nat
              = (Some (Some b), (l_adapter_weights L, l_heap L))) ∧
    (∀ b st,
       @BatchLoraWeights_load bump_torch sample_punica sample_adapter_weights
         sample_prefill_meta "q_proj" true (Some [4; 8; 11]) 0%nat
         = (Some (Some b), st) →
       use_sgmv b = true →
       ∀ rk rs, rank_data b !! rk = Some rs →
         ∃ l ss se,
           rank_indices_of (lora_adapters sample_adapter_weights)
             (segment_indices sample_prefill_meta) !! rk = Some l ∧
           segment_starts rs = Some ss ∧ segment_ends rs = Some se ∧
           length ss = length l ∧ length se = length l ∧
           ∀ j p, l !! j = Some p → ss !! j = starts !! p ∧ se !! j = ends !! p) ∧
    (true = true →
     (∃ idx, idx ∈ segment_indices sample_prefill_meta ∧
        is_Some (lora_adapters sample_adapter_weights !! idx)) →
       ∃ b st,
         @BatchLoraWeights_load bump_torch sample_punica sample_adapter_weights
           sample_prefill_meta "q_proj" true (Some [4; 8; 11]) 0%nat
           = (Some (Some b), st) ∧
         use_sgmv b = true) ∧
    (∀ b st,
       @BatchLoraWeights_load bump_torch sample_punica sample_adapter_weights
         sample_prefill_meta "q_proj" true (Some [4; 8; 11]) 0%nat
         = (Some (Some b), st) →
       use_sgmv b = true →
       ∀ p idx w, segment_indices sample_prefill_meta !! p = Some idx →
         lora_adapters sample_adapter_weights !! idx = Some w →
         ∃ rs l j ss se s e lo hi,
           rank_data b !! lora_a_r w = Some rs ∧
           rank_indices_of (lora_adapters sample_adapter_weights)
             (segment_indices sample_prefill_meta) !! lora_a_r w = Some l ∧
           l !! j = Some p ∧
           segment_starts rs = Some ss ∧ segment_ends rs = Some se ∧
           ss !! j = Some s ∧ se !! j = Some e ∧
           starts !! p = Some s ∧ ends !! p = Some e ∧
           adapter_segments sample_prefill_meta !! p = Some lo ∧
           adapter_segments sample_prefill_meta !! S p = Some hi ∧
           s < e ∧
           ∀ i q, [4; 8; 11] !! i = Some q → (s ≤ Z.of_nat i < e ↔ lo ≤ q < hi)).
Proof.
  apply (@C9_filtered_boundaries bump_torch sample_punica sample_adapter_weights
           sample_prefill_meta "q_proj" true [4; 8; 11] 0%nat 3).
  - exact sample_head_indices_ok.
  - reflexivity.
Defined.

(** ** Which rank the groups are keyed by *)

Section LoadFacts.
Context `{Torch} `{Punica} `{Model}.

Lemma LoraWeights_init_rank weights_a weights_b config h w h' :
  LoraWeights_init weights_a weights_b config h = Some (w, h') →
  ∃ w0, head weights_a = Some w0 ∧ lora_a_r w = size1 w0 ∧
    _is_transposed w = false ∧ adapter_config w = config.
Proof.
  unfold LoraWeights_init. intros Hinit.
  destruct weights_a as [|w0 rest]; [by simpl in Hinit|].
  apply bind_Some in Hinit as (rb & _ & Hinit).
  apply bind_Some in Hinit as ([a h1] & _ & Hinit).
  apply bind_Some in Hinit as ([b h2] & _ & Hinit).
  simplify_eq/=. by exists w0.
Qed.

Lemma LoraWeights_load_rank config module_map layer_type unused h w config' unused' h' :
  LoraWeights_load config module_map layer_type unused h
    = Some (Some w, config', unused', h') →
  ∃ lora_a_list lora_b_list weights_a weights_b w0,
    load_layers config module_map layer_type
      (layer_ids_of (get_num_layers_for_type layer_type)) unused
      = Some (Some (lora_a_list, lora_b_list), unused') ∧
    padded_sharded lora_a_list lora_b_list layer_type = (weights_a, weights_b) ∧
    head weights_a = Some w0 ∧
    lora_a_r w = size1 w0.
Proof.
  unfold LoraWeights_load. intros Hload.
  apply bind_Some in Hload as ([res u] & Hlayers & Hload).
  destruct res as [[la lb]|]; [|by simplify_eq].
  destruct (padded_sharded la lb layer_type) as [wa wb] eqn:Hps.
  apply bind_Some in Hload as ([w' h1] & Hinit & Hload).
  simplify_eq/=.
  destruct (LoraWeights_init_rank _ _ _ _ _ _ Hinit) as (w0 & Hhead & Hr & _).
  by exists la, lb, wa, wb, w0.
Qed.

End LoadFacts.

(** C2, as the code has it. The rank groups are keyed by [lora_a_r]: for an
    adapter that [LoraWeights.load] produced this is the size of the rank
    dimension of its first A matrix after [pad_rank] and sharding, not the
    rank it had before padding. Every segment of such an adapter lies in the
    group of that padded rank, a position in a group always belongs to an
    adapter with weights of the group's rank, and a segment whose adapter has
    no weights for the layer lies in no group. *)
Theorem C2_groups_keyed_by_padded_rank `{Torch} `{Punica} `{Model}
    (config : LoraConfig) (module_map : gmap string ModuleEntry) (layer_type : string)
    (unused : gset string) (h0 : Heap) (w : LoraWeights) (config' : LoraConfig)
    (unused' : gset string) (h0' : Heap)
    (adapter_weights : list (Z * AdapterWeights)) (meta : AdapterBatchMetadata)
    (name : string) (prefill : bool) (head_indices : option (list Z)) (h : Heap)
    (b : BatchLoraWeights) (st : gmap Z LoraWeights * Heap) :
  LoraWeights_load config module_map layer_type unused h0
    = Some (Some w, config', unused', h0') →
  BatchLoraWeights_load adapter_weights meta name prefill head_indices h
    = (Some (Some b), st) →
  let rank_indices :=
    rank_indices_of (lora_adapters adapter_weights) (segment_indices meta) in
  (∃ lora_a_list lora_b_list weights_a weights_b w0,
     load_layers config module_map layer_type
       (layer_ids_of (get_num_layers_for_type layer_type)) unused
       = Some (Some (lora_a_list, lora_b_list), unused') ∧
     padded_sharded lora_a_list lora_b_list layer_type = (weights_a, weights_b) ∧
     head weights_a = Some w0 ∧
     lora_a_r w = size1 w0 ∧
     ∀ p idx w', segment_indices meta !! p = Some idx →
       lora_adapters adapter_weights !! idx = Some w' → lora_a_r w' = lora_a_r w →
       ∃ l, rank_indices !! size1 w0 = Some l ∧ p ∈ l ∧
         is_Some (rank_data b !! size1 w0)) ∧
  (∀ rk l p, rank_indices !! rk = Some l → p ∈ l →
     ∃ idx w', segment_indices meta !! p = Some idx ∧
       lora_adapters adapter_weights !! idx = Some w' ∧ lora_a_r w' = rk) ∧
  (∀ p idx, segment_indices meta !! p = Some idx →
     lora_adapters adapter_weights !! idx = None →
     ∀ rk l, rank_indices !! rk = Some l → p ∉ l).
Proof.
  intros Hld Hload. cbv zeta.
  pose proof (rank_data_keys _ _ _ _ _ _ _ _ Hload) as Hkeys.
  destruct (rank_indices_members (lora_adapters adapter_weights) (segment_indices meta))
    as [Hcover Hmem].
  split_and!.
  - destruct (LoraWeights_load_rank _ _ _ _ _ _ _ _ _ Hld)
      as (la & lb & wa & wb & w0 & Hlayers & Hps & Hhead & Hr).
    exists la, lb, wa, wb, w0. split_and!; [done..|].
    intros p idx w' Hp Hw' Hrk.
    destruct (proj2 (Hcover p)) as (rk & l & Hl & Hin); [exists idx; by rewrite Hw'|].
    destruct (Hmem _ _ _ Hl Hin) as (idx' & w'' & Hp' & Hw'' & Hrk').
    assert (rk = size1 w0) as -> by congruence.
    exists l. split_and!; [done..|]. apply Hkeys. by exists l.
  - exact Hmem.
  - intros p idx Hp Hnone rk l Hl Hin.
    destruct (Hmem _ _ _ Hl Hin) as (idx' & w' & Hp' & Hw' & _). congruence.
Qed.

(** The sample adapter has rank 2 in its checkpoint and config; the sample
    kernel library pads it to 8. Loaded and put in a batch, its segment is
    grouped under 8, and there is no group for the rank 2 it had before
    padding. *)
Lemma C2_pre_padding_rank_counterexample :
  ∃ config' unused' h' b st,
    @LoraWeights_load bump_torch sample_punica sample_model sample_config
      sample_module_map "q_proj" ∅ 0%nat
      = Some (Some sample_loaded_w, config', unused', h') ∧
    r sample_config = 2 ∧ size0 sample_A = 2%nat ∧
    @BatchLoraWeights_load bump_torch sample_punica [(1, LoraAdapter sample_loaded_w)]
      sample_single_meta "q_proj" true None 2%nat = (Some (Some b), st) ∧
    rank_data b !! 2%nat = None ∧
    is_Some (rank_data b !! 8%nat) ∧
    rank_indices_of (lora_adapters [(1, LoraAdapter sample_loaded_w)])
      (segment_indices sample_single_meta) !! 8%nat = Some [0%nat].
Proof.
  eexists _, _, _, _, _. split_and!.
  - vm_compute. reflexivity.
  - reflexivity.
  - reflexivity.
  - vm_compute. reflexivity.
  - vm_compute. reflexivity.
  - eexists. vm_compute. reflexivity.
  - vm_compute. reflexivity.
Qed.

Lemma C2_groups_keyed_by_padded_rank_witness :
  ∃ config' unused' h' b st,
    @LoraWeights_load bump_torch sample_punica sample_model sample_config
      sample_module_map "q_proj" ∅ 0%nat
      = Some (Some sample_loaded_w, config', unused', h') ∧
    @BatchLoraWeights_load bump_torch sample_punica [(1, LoraAdapter sample_loaded_w)]
      sample_single_meta "q_proj" true None 2%nat = (Some (Some b), st) ∧
    let rank_indices :=
      rank_indices_of (lora_adapters [(1, LoraAdapter sample_loaded_w)])
        (segment_indices sample_single_meta) in
    (∃ lora_a_list lora_b_list weights_a weights_b w0,
       @load_layers sample_model sample_config sample_module_map "q_proj"
         (layer_ids_of (@get_num_layers_for_type sample_model "q_proj")) ∅
         = Some (Some (lora_a_list, lora_b_list), unused') ∧
       @padded_sharded sample_punica sample_model lora_a_list lora_b_list "q_proj"
         = (weights_a, weights_b) ∧
       head weights_a = Some w0 ∧
       lora_a_r sample_loaded_w = size1 w0 ∧
       ∀ p idx w', segment_indices sample_single_meta !! p = Some idx →
         lora_adapters [(1, LoraAdapter sample_loaded_w)] !! idx = Some w' →
         lora_a_r w' = lora_a_r sample_loaded_w →
         ∃ l, rank_indices !! size1 w0 = Some l ∧ p ∈ l ∧
           is_Some (rank_data b !! size1 w0)) ∧
    (∀ rk l p, rank_indices !! rk = Some l → p ∈ l →
       ∃ idx w', segment_indices sample_single_meta !! p = Some idx ∧
         lora_adapters [(1, LoraAdapter sample_loaded_w)] !! idx = Some w' ∧
         lora_a_r w' = rk) ∧
    (∀ p idx, segment_indices sample_single_meta !! p = Some idx →
       lora_adapters [(1, LoraAdapter sample_loaded_w)] !! idx = None →
       ∀ rk l, rank_indices !! rk = Some l → p ∉ l).
Proof.
  eexists _, _, _, _, _. split; [|split].
  - vm_compute. reflexivity.
  - vm_compute. reflexivity.
  - eapply (@C2_groups_keyed_by_padded_rank bump_torch sample_punica sample_model
              sample_config sample_module_map "q_proj" ∅ 0%nat sample_loaded_w _ _ _
              [(1, LoraAdapter sample_loaded_w)] sample_single_meta "q_proj" true None
              2%nat).
    + vm_compute. reflexivity.
    + vm_compute. reflexivity.
Defined.

(** ** The module map of an adapter *)

Lemma map_weights_loop_spec (aw : gmap string Tensor2) (weight_names : list string)
    (acc : gmap string ModuleEntry * gset string) :
  let res := foldl (map_weights_step aw) acc weight_names in
  (∀ wn, res.1 !! wn =
     match aw !! lora_a_name_of wn, aw !! lora_b_name_of wn with
     | Some a, Some b =>
       if decide (wn ∈ weight_names)
       then Some (mkModuleEntry (a, lora_a_name_of wn) (b, lora_b_name_of wn))
       else acc.1 !! wn
     | _, _ => acc.1 !! wn
     end) ∧
  (∀ n, n ∈ res.2 ↔
     n ∈ acc.2 ∨
     ∃ wn, wn ∈ weight_names ∧ is_Some (aw !! lora_a_name_of wn) ∧
       is_Some (aw !! lora_b_name_of wn) ∧
       (n = lora_a_name_of wn ∨ n = lora_b_name_of wn)).
Proof.
  revert acc. induction weight_names as [|w0 rest IH]; intros [mm names]; cbn [foldl].
  - split.
    + intros wn. by destruct (aw !! lora_a_name_of wn), (aw !! lora_b_name_of wn).
    + intros n. split; [by left|]. intros [?|(wn & Hin & _)]; [done|].
      by apply elem_of_nil in Hin.
  - destruct (IH (map_weights_step aw (mm, names) w0)) as [IHm IHn]. split.
    + intros wn. rewrite IHm. clear IHm IHn.
      destruct (aw !! lora_a_name_of wn) as [a|] eqn:Ha;
        [destruct (aw !! lora_b_name_of wn) as [b|] eqn:Hb|].
      * destruct (decide (wn = w0)) as [->|Hne].
        -- unfold map_weights_step. rewrite Ha, Hb. simpl. rewrite lookup_insert_eq.
           destruct (decide (w0 ∈ w0 :: rest)) as [Hin|Hn]; [|exfalso; apply Hn; by left].
           by destruct (decide (w0 ∈ rest)).
        -- assert (Hacc : (map_weights_step aw (mm, names) w0).1 !! wn = mm !! wn).
           { unfold map_weights_step.
             destruct (aw !! lora_a_name_of w0), (aw !! lora_b_name_of w0); simpl; try done.
             by rewrite lookup_insert_ne. }
           rewrite Hacc. simpl.
           destruct (decide (wn ∈ rest)) as [Hin|Hin],
                    (decide (wn ∈ w0 :: rest)) as [Hin'|Hin']; try done.
           ++ exfalso. apply Hin'. by right.
           ++ exfalso. apply elem_of_cons in Hin' as [?|?]; done.
      * unfold map_weights_step.
        destruct (aw !! lora_a_name_of w0) eqn:Ha0, (aw !! lora_b_name_of w0) eqn:Hb0;
          simpl; try done.
        rewrite lookup_insert_ne; [done|]. intros ->. congruence.
      * unfold map_weights_step.
        destruct (aw !! lora_a_name_of w0) eqn:Ha0, (aw !! lora_b_name_of w0) eqn:Hb0;
          simpl; try done.
        rewrite lookup_insert_ne; [done|]. intros ->. congruence.
    + intros n. rewrite IHn. clear IHm IHn. unfold map_weights_step. simpl.
      destruct (aw !! lora_a_name_of w0) as [a|] eqn:Ha0;
        [destruct (aw !! lora_b_name_of w0) as [b|] eqn:Hb0|]; simpl.
      * rewrite !elem_of_union, !elem_of_singleton. split.
        -- intros [[[?| ->]| ->]|(wn & Hin & Hrest)].
           ++ by left.
           ++ right. exists w0. split_and!; [by left|by rewrite Ha0|by rewrite Hb0|by left].
           ++ right. exists w0. split_and!; [by left|by rewrite Ha0|by rewrite Hb0|by right].
           ++ right. exists wn. split; [by right|done].
        -- intros [?|(wn & [-> |Hin]%elem_of_cons & Hsa & Hsb & Hn)].
           ++ by left; left; left.
           ++ left. destruct Hn as [->| ->]; [left; by right|by right].
           ++ right. by exists wn.
      * split.
        -- intros [?|(wn & Hin & Hrest)]; [by left|]. right. exists wn. split; [by right|done].
        -- intros [?|(wn & [-> |Hin]%elem_of_cons & Hsa & Hsb & Hn)]; [by left| |].
           ++ rewrite Hb0 in Hsb. by destruct Hsb.
           ++ right. by exists wn.
      * split.
        -- intros [?|(wn & Hin & Hrest)]; [by left|]. right. exists wn. split; [by right|done].
        -- intros [?|(wn & [-> |Hin]%elem_of_cons & Hsa & Hsb & Hn)]; [by left| |].
           ++ rewrite Ha0 in Hsa. by destruct Hsa.
           ++ right. by exists wn.
Qed.

Lemma map_weights_for_model_lookup (adapter_weights : gmap string Tensor2)
    (weight_names : list string) (wn : string) (entry : ModuleEntry) :
  (map_weights_for_model adapter_weights weight_names).1 !! wn = Some entry ↔
  wn ∈ weight_names ∧
  ∃ a b, adapter_weights !! lora_a_name_of wn = Some a ∧
    adapter_weights !! lora_b_name_of wn = Some b ∧
    entry = mkModuleEntry (a, lora_a_name_of wn) (b, lora_b_name_of wn).
Proof.
  unfold map_weights_for_model.
  destruct (map_weights_loop_spec adapter_weights weight_names (∅, ∅)) as [Hm _].
  rewrite Hm. simpl. clear Hm.
  destruct (adapter_weights !! lora_a_name_of wn) as [a|];
    [destruct (adapter_weights !! lora_b_name_of wn) as [b|]|].
  - destruct (decide (wn ∈ weight_names)) as [Hin|Hin].
    + split.
      * intros [= <-]. split; [done|]. by exists a, b.
      * intros (_ & a' & b' & [= <-] & [= <-] & ->). done.
    + rewrite lookup_empty. split; [done|]. by intros [? _].
  - rewrite lookup_empty. split; [done|]. by intros (_ & a' & b' & _ & ? & _).
  - rewrite lookup_empty. split; [done|]. by intros (_ & a' & b' & ? & _).
Qed.

(** X1. [map_weights_for_model] maps a module exactly when it is one of the
    requested names and the checkpoint has both of its tensors; the entry
    then holds those two tensors with their checkpoint names. A module that
    lacks one of the two tensors is skipped, whatever else the checkpoint
    holds. *)
Theorem X1_module_map_entries (adapter_weights : gmap string Tensor2)
    (weight_names : list string) (wn : string) :
  let module_map := (map_weights_for_model adapter_weights weight_names).1 in
  (∀ entry, module_map !! wn = Some entry ↔
     wn ∈ weight_names ∧
     ∃ a b, adapter_weights !! lora_a_name_of wn = Some a ∧
       adapter_weights !! lora_b_name_of wn = Some b ∧
       entry = mkModuleEntry (a, lora_a_name_of wn) (b, lora_b_name_of wn)) ∧
  (adapter_weights !! lora_a_name_of wn = None ∨
   adapter_weights !! lora_b_name_of wn = None → module_map !! wn = None).
Proof.
  cbv zeta. split.
  - intros entry. apply map_weights_for_model_lookup.
  - intros Hmiss.
    destruct ((map_weights_for_model adapter_weights weight_names).1 !! wn)
      as [entry|] eqn:He; [|done].
    apply map_weights_for_model_lookup in He as (_ & a & b & Ha & Hb & _).
    destruct Hmiss; congruence.
Qed.

Lemma map_weights_for_model_names (adapter_weights : gmap string Tensor2)
    (weight_names : list string) (n : string) :
  n ∈ (map_weights_for_model adapter_weights weight_names).2 ↔
  ∃ wn, is_Some ((map_weights_for_model adapter_weights weight_names).1 !! wn) ∧
    (n = lora_a_name_of wn ∨ n = lora_b_name_of wn).
Proof.
  pose proof (λ wn entry,
    map_weights_for_model_lookup adapter_weights weight_names wn entry) as Hm.
  unfold map_weights_for_model in *.
  destruct (map_weights_loop_spec adapter_weights weight_names (∅, ∅)) as [_ Hn].
  cbv zeta in Hn. rewrite Hn. simpl. split.
  - intros [Hin|(wn & Hin & [a Ha] & [b Hb] & Hname)]; [by apply elem_of_empty in Hin|].
    exists wn. split; [|done]. eexists. apply Hm. split; [done|]. by exists a, b.
  - intros (wn & [entry He] & Hname). right. apply Hm in He as (Hin & a & b & Ha & Hb & _).
    exists wn. by rewrite Ha, Hb.
Qed.

(** X2. The names that [map_weights_for_model] reports as consumed are the
    A and B names of the modules it mapped, no others, and each of them is a
    key of the checkpoint. *)
Theorem X2_consumed_names (adapter_weights : gmap string Tensor2)
    (weight_names : list string) (n : string) :
  let module_map := (map_weights_for_model adapter_weights weight_names).1 in
  let adapter_weight_names := (map_weights_for_model adapter_weights weight_names).2 in
  (n ∈ adapter_weight_names ↔
     ∃ wn, is_Some (module_map !! wn) ∧ (n = lora_a_name_of wn ∨ n = lora_b_name_of wn)) ∧
  (n ∈ adapter_weight_names → is_Some (adapter_weights !! n)).
Proof.
  cbv zeta. split; [apply map_weights_for_model_names|].
  rewrite map_weights_for_model_names. intros (wn & [entry He] & Hname).
  apply map_weights_for_model_lookup in He as (_ & a & b & Ha & Hb & _).
  destruct Hname as [-> | ->]; eauto.
Qed.

(** ** What [LoraWeights.load] does besides building the weights *)

Section LoaderMore.
Context `{Torch} `{Punica} `{Model}.


Lemma load_layers_unused config module_map layer_type layer_ids unused res unused' :
  load_layers config module_map layer_type layer_ids unused = Some (res, unused') →
  unused' ⊆ unused ∧
  (∀ n, n ∈ unused → n ∉ unused' →
     ∃ i layer_id weight_name device entry,
       layer_ids !! i = Some layer_id ∧
       target_to_layer layer_id layer_type = Some (weight_name, device) ∧
       module_map !! weight_name = Some entry ∧
       (n = (lora_A entry).2 ∨ n = (lora_B entry).2)) ∧
  (is_Some res →
     ∀ i layer_id weight_name device entry,
       layer_ids !! i = Some layer_id →
       target_to_layer layer_id layer_type = Some (weight_name, device) →
       module_map !! weight_name = Some entry →
       (snd (lora_A entry) ∉ unused') ∧ (snd (lora_B entry) ∉ unused')).
Proof.
  revert unused res unused'.
  induction layer_ids as [|layer_id rest IH]; intros unused res unused' Hload;
    simpl in Hload.
  - simplify_eq. split_and!; [done|done|].
    intros _ i lid wn dev entry Hi. by rewrite lookup_nil in Hi.
  - destruct (target_to_layer layer_id layer_type) as [[weight_name device]|] eqn:Ht;
      simpl in Hload; [|done].
    destruct (module_map !! weight_name) as [entry|] eqn:Hm.
    + destruct entry as [[lora_a lora_a_name] [lora_b lora_b_name]] eqn:Hentry.
      simpl in Hload.
      destruct (merged_layer_weights config _ _) as [[a_i b_i]|]; simpl in Hload; [|done].
      destruct (load_layers config module_map layer_type rest _)
        as [[res' u]|] eqn:Hrec; simpl in Hload; [|done].
      destruct (IH _ _ _ Hrec) as (Hsub & Hgone & Hall).
      assert (unused' = u) as -> by (by destruct res' as [[??]|]; simplify_eq).
      assert (Hres : is_Some res → is_Some res').
      { destruct res' as [[??]|]; [done|]. simplify_eq. by intros [? ?]. }
      split_and!.
      * set_solver.
      * intros n Hn Hnot.
        destruct (decide (n = lora_a_name)) as [->|Hna].
        { exists 0%nat, layer_id, weight_name, device, entry. subst entry.
          split_and!; [done..|by left]. }
        destruct (decide (n = lora_b_name)) as [->|Hnb].
        { exists 0%nat, layer_id, weight_name, device, entry. subst entry.
          split_and!; [done..|by right]. }
        destruct (Hgone n) as (i & lid & wn & dev & e & Hi & Hrest); [set_solver|done|].
        by exists (S i), lid, wn, dev, e.
      * intros Hsome [|i] lid wn dev e Hi Ht' Hm'; simpl in Hi.
        -- simplify_eq. simpl. set_solver.
        -- by eapply (Hall (Hres Hsome)).
    + simplify_eq. split_and!; [done|done|]. by intros [? ?].
Qed.

Lemma LoraWeights_load_inv config module_map layer_type unused h res config' unused' h' :
  LoraWeights_load config module_map layer_type unused h = Some (res, config', unused', h') →
  ∃ layers_res,
    load_layers config module_map layer_type
      (layer_ids_of (get_num_layers_for_type layer_type)) unused
      = Some (layers_res, unused') ∧
    match layers_res with
    | None => res = None ∧ config' = config ∧ h' = h
    | Some (lora_a_list, lora_b_list) =>
      ∃ w, res = Some w ∧
        config' =
          match map (λ w, pad_rank w 1 world_size) lora_a_list with
          | w :: _ => set_r config (Z.of_nat (size1 w))
          | [] => config
          end ∧
        LoraWeights_init (padded_sharded lora_a_list lora_b_list layer_type).1
          (padded_sharded lora_a_list lora_b_list layer_type).2 config' h = Some (w, h')
    end.
Proof.
  unfold LoraWeights_load. intros Hload.
  apply bind_Some in Hload as ([lres u] & Hlayers & Hload).
  exists lres. destruct lres as [[la lb]|].
  - destruct (padded_sharded la lb layer_type) as [wa wb] eqn:Hps.
    apply bind_Some in Hload as ([w h1] & Hinit & Hload). simplify_eq/=.
    split; [done|]. by exists w.
  - by simplify_eq/=.
Qed.

End LoaderMore.


(** X4. [LoraWeights.load] only ever removes names from the set of unused
    weight names, and only the A and B names of modules assigned to layers of
    the type; after a load that returned weights, none of those names is
    left in the set. *)
Theorem X4_unused_names `{Torch} `{Punica} `{Model}
    (config : LoraConfig) (module_map : gmap string ModuleEntry) (layer_type : string)
    (unused : gset string) (h : Heap) (res : option LoraWeights) (config' : LoraConfig)
    (unused' : gset string) (h' : Heap) :
  LoraWeights_load config module_map layer_type unused h = Some (res, config', unused', h') →
  let layer_ids := layer_ids_of (get_num_layers_for_type layer_type) in
  unused' ⊆ unused ∧
  (∀ n, n ∈ unused → n ∉ unused' →
     ∃ i layer_id weight_name device entry,
       layer_ids !! i = Some layer_id ∧
       target_to_layer layer_id layer_type = Some (weight_name, device) ∧
       module_map !! weight_name = Some entry ∧
       (n = (lora_A entry).2 ∨ n = (lora_B entry).2)) ∧
  (is_Some res →
     ∀ i layer_id weight_name device entry,
       layer_ids !! i = Some layer_id →
       target_to_layer layer_id layer_type = Some (weight_name, device) →
       module_map !! weight_name = Some entry →
       (snd (lora_A entry) ∉ unused') ∧ (snd (lora_B entry) ∉ unused')).
Proof.
  intros Hload. cbv zeta.
  destruct (LoraWeights_load_inv _ _ _ _ _ _ _ _ _ Hload) as (lres & Hlayers & Hres).
  destruct (load_layers_unused _ _ _ _ _ _ _ Hlayers) as (Hsub & Hgone & Hall).
  split_and!; [done..|]. intros Hsome. apply Hall.
  destruct lres as [[la lb]|]; [done|]. destruct Hres as (-> & _). by destruct Hsome.
Qed.

(** X5. A load that returns weights changes nothing in the config but [r];
    it stores the config it returns in the weights, and the weights start in
    the load-time orientation with the cutlass-shrink flag that
    [use_cutlass_shrink] gives for their rank. When the type has a layer,
    the new [r] is the size of the rank dimension of the first A matrix after
    padding. *)
Theorem X5_load_config `{Torch} `{Punica} `{Model}
    (config : LoraConfig) (module_map : gmap string ModuleEntry) (layer_type : string)
    (unused : gset string) (h : Heap) (w : LoraWeights) (config' : LoraConfig)
    (unused' : gset string) (h' : Heap) :
  LoraWeights_load config module_map layer_type unused h
    = Some (Some w, config', unused', h') →
  adapter_config w = config' ∧
  _is_transposed w = false ∧
  _use_cutlass_shrink w = use_cutlass_shrink (lora_a_r w) ∧
  base_model_name_or_path config' = base_model_name_or_path config ∧
  target_modules config' = target_modules config ∧
  fan_in_fan_out config' = fan_in_fan_out config ∧
  lora_alpha config' = lora_alpha config ∧
  use_rslora config' = use_rslora config ∧
  ∃ lora_a_list lora_b_list,
    load_layers config module_map layer_type
      (layer_ids_of (get_num_layers_for_type layer_type)) unused
      = Some (Some (lora_a_list, lora_b_list), unused') ∧
    length lora_a_list = length (layer_ids_of (get_num_layers_for_type layer_type)) ∧
    ∀ a0, head lora_a_list = Some a0 →
      r config' = Z.of_nat (size1 (pad_rank a0 1 world_size)).
Proof.
  intros Hload.
  destruct (LoraWeights_load_inv _ _ _ _ _ _ _ _ _ Hload) as (lres & Hlayers & Hres).
  destruct lres as [[la lb]|]; [|by destruct Hres].
  destruct Hres as (w' & [= <-] & Hcfg & Hinit).
  assert (Hfields : base_model_name_or_path config' = base_model_name_or_path config ∧
            target_modules config' = target_modules config ∧
            fan_in_fan_out config' = fan_in_fan_out config ∧
            lora_alpha config' = lora_alpha config ∧
            use_rslora config' = use_rslora config).
  { rewrite Hcfg. by destruct (map _ la). }
  destruct Hfields as (? & ? & ? & ? & ?).
  unfold LoraWeights_init in Hinit.
  apply bind_Some in Hinit as (rb & _ & Hinit).
  apply bind_Some in Hinit as ([a h1] & _ & Hinit).
  apply bind_Some in Hinit as ([b h2] & _ & Hinit).
  injection Hinit as <- <-. simpl.
  split_and!; [done..|].
  exists la, lb. split; [done|].
  destruct (load_layers_entries _ _ _ _ _ _ _ _ Hlayers) as (Hlen & _).
  split; [done|]. intros a0 Ha0. rewrite Hcfg.
  destruct la as [|a0' la']; simplify_eq/=. done.
Qed.


Lemma X4_unused_names_witness :
  ∃ res config' unused' h',
    @LoraWeights_load bump_torch sample_punica sample_model sample_config
      sample_module_map "q_proj" {[ "l0.lora_A.weight"; "extra.weight" ]} 0%nat
      = Some (res, config', unused', h') ∧
    let unused : gset string := {[ "l0.lora_A.weight"; "extra.weight" ]} in
    let layer_ids := layer_ids_of (@get_num_layers_for_type sample_model "q_proj") in
    unused' ⊆ unused ∧
    (∀ n, n ∈ unused → n ∉ unused' →
       ∃ i layer_id weight_name device entry,
         layer_ids !! i = Some layer_id ∧
         @target_to_layer sample_model layer_id "q_proj" = Some (weight_name, device) ∧
         sample_module_map !! weight_name = Some entry ∧
         (n = (lora_A entry).2 ∨ n = (lora_B entry).2)) ∧
    (is_Some res →
       ∀ i layer_id weight_name device entry,
         layer_ids !! i = Some layer_id →
         @target_to_layer sample_model layer_id "q_proj" = Some (weight_name, device) →
         sample_module_map !! weight_name = Some entry →
         (snd (lora_A entry) ∉ unused') ∧ (snd (lora_B entry) ∉ unused')).
Proof.
  eexists _, _, _, _. split.
  - vm_compute. reflexivity.
  - eapply (@X4_unused_names bump_torch sample_punica sample_model sample_config
              sample_module_map "q_proj" {[ "l0.lora_A.weight"; "extra.weight" ]} 0%nat).
    vm_compute. reflexivity.
Defined.

Lemma X5_load_config_witness :
  ∃ config' unused' h',
    @LoraWeights_load bump_torch sample_punica sample_model sample_config
      sample_module_map "q_proj" ∅ 0%nat
      = Some (Some sample_loaded_w, config', unused', h') ∧
    adapter_config sample_loaded_w = config' ∧
    _is_transposed sample_loaded_w = false ∧
    _use_cutlass_shrink sample_loaded_w
      = @use_cutlass_shrink sample_punica (lora_a_r sample_loaded_w) ∧
    base_model_name_or_path config' = base_model_name_or_path sample_config ∧
    target_modules config' = target_modules sample_config ∧
    fan_in_fan_out config' = fan_in_fan_out sample_config ∧
    lora_alpha config' = lora_alpha sample_config ∧
    use_rslora config' = use_rslora sample_config ∧
    ∃ lora_a_list lora_b_list,
      @load_layers sample_model sample_config sample_module_map "q_proj"
        (layer_ids_of (@get_num_layers_for_type sample_model "q_proj")) ∅
        = Some (Some (lora_a_list, lora_b_list), unused') ∧
      length lora_a_list
        = length (layer_ids_of (@get_num_layers_for_type sample_model "q_proj")) ∧
      ∀ a0, head lora_a_list = Some a0 →
        r config' = Z.of_nat (size1 (@pad_rank sample_punica a0 1 (@world_size sample_model))).
Proof.
  eexists _, _, _. split.
  - vm_compute. reflexivity.
  - eapply (@X5_load_config bump_torch sample_punica sample_model sample_config
              sample_module_map "q_proj" ∅ 0%nat).
    vm_compute. reflexivity.
Defined.

(** X6. With the module map and the name set of [map_weights_for_model],
    [LoraWeights.load] removes from the unused names only names of that set:
    a name that [map_weights_for_model] did not report as consumed is never
    discarded. *)
Theorem X6_load_keeps_unreported_names `{Torch} `{Punica} `{Model}
    (adapter_weights : gmap string Tensor2) (weight_names : list string)
    (config : LoraConfig) (layer_type : string)
    (unused : gset string) (h : Heap) (res : option LoraWeights) (config' : LoraConfig)
    (unused' : gset string) (h' : Heap) :
  LoraWeights_load config (map_weights_for_model adapter_weights weight_names).1
    layer_type unused h = Some (res, config', unused', h') →
  ∀ n, n ∈ unused → n ∉ (map_weights_for_model adapter_weights weight_names).2 →
    n ∈ unused'.
Proof.
  intros Hload n Hn Hnot.
  destruct (LoraWeights_load_inv _ _ _ _ _ _ _ _ _ Hload) as (lres & Hlayers & _).
  destruct (load_layers_unused _ _ _ _ _ _ _ Hlayers) as (_ & Hgone & _).
  destruct (decide (n ∈ unused')) as [|Hout]; [done|]. exfalso. apply Hnot.
  destruct (Hgone n Hn Hout) as (i & lid & wn & dev & entry & _ & _ & Hentry & Hname).
  apply map_weights_for_model_names. exists wn. split; [by exists entry|].
  apply map_weights_for_model_lookup in Hentry as (_ & a & b & _ & _ & ->).
  simpl in Hname. done.
Qed.


Lemma X6_load_keeps_unreported_names_witness :
  ∃ res config' unused' h',
    @LoraWeights_load bump_torch sample_punica sample_model sample_config
      (map_weights_for_model sample_checkpoint sample_weight_names).1 "q_proj"
      {[ "base_model.model.layers.0.q_proj.lora_A.weight"; "extra.weight" ]} 0%nat
      = Some (res, config', unused', h') ∧
    ∀ n, n ∈ ({[ "base_model.model.layers.0.q_proj.lora_A.weight"; "extra.weight" ]} : gset string) →
      n ∉ (map_weights_for_model sample_checkpoint sample_weight_names).2 →
      n ∈ unused'.
Proof.
  eexists _, _, _, _. split.
  - vm_compute. reflexivity.
  - eapply (@X6_load_keeps_unreported_names bump_torch sample_punica sample_model
              sample_checkpoint sample_weight_names sample_config "q_proj"
              {[ "base_model.model.layers.0.q_proj.lora_A.weight"; "extra.weight" ]} 0%nat).
    vm_compute. reflexivity.
Defined.

(** X8. The config that a load returns carries the padded rank, and the
    scaling factor is computed from the rank in the config: a later load
    that is given this config, as [load_batched_adapter_weights] does with
    its [self], multiplies B by [lora_alpha] over the padded rank (or its
    square root), not over the rank of the checkpoint. *)
Theorem X8_reused_config_scales_by_padded_rank `{Torch} `{Punica} `{Model}
    (self : LoraConfig) (module_map : gmap string ModuleEntry) (layer_type : string)
    (unused : gset string) (dynamic : bool) (h : Heap) (w : LoraWeights)
    (self' : LoraConfig) (unused' : gset string) (h' : Heap)
    (module_map2 : gmap string ModuleEntry) (layer_type2 : string) (layer_ids2 : list Z)
    (unused2 : gset string) (lora_a_list2 lora_b_list2 : list Tensor2)
    (unused2' : gset string) :
  load_batched_adapter_weights self module_map layer_type unused dynamic h
    = Some (Some w, self', unused', h') →
  layer_ids_of (get_num_layers_for_type layer_type) ≠ [] →
  load_layers self' module_map2 layer_type2 layer_ids2 unused2
    = Some (Some (lora_a_list2, lora_b_list2), unused2') →
  layer_ids2 ≠ [] →
  ∃ lora_a_list lora_b_list a0 scale,
    load_layers self module_map layer_type
      (layer_ids_of (get_num_layers_for_type layer_type)) unused
      = Some (Some (lora_a_list, lora_b_list), unused') ∧
    head lora_a_list = Some a0 ∧
    r self' = Z.of_nat (size1 (pad_rank a0 1 world_size)) ∧
    get_scaling_factor (lora_alpha self) (Z.of_nat (size1 (pad_rank a0 1 world_size)))
      (use_rslora self) = Some scale ∧
    ∀ i layer_id, layer_ids2 !! i = Some layer_id →
      ∃ weight_name device entry,
        target_to_layer layer_id layer_type2 = Some (weight_name, device) ∧
        module_map2 !! weight_name = Some entry ∧
        lora_b_list2 !! i =
          Some (scale_tensor scale
                  (transpose_0_1
                     (load_module_weight (lora_B entry).2 (lora_B entry).1 device))).
Proof.
  unfold load_batched_adapter_weights. intros Hload Hids Hload2 Hids2.
  destruct (LoraWeights_load_inv _ _ _ _ _ _ _ _ _ Hload) as (lres & Hlayers & Hres).
  destruct lres as [[la lb]|]; [|by destruct Hres].
  destruct Hres as (w' & _ & Hcfg & _).
  destruct (load_layers_entries _ _ _ _ _ _ _ _ Hlayers) as (Hlen & _).
  destruct la as [|a0 la'].
  { destruct (layer_ids_of _); [done|]. simpl in Hlen. lia. }
  simpl in Hcfg.
  destruct (load_layers_entries _ _ _ _ _ _ _ _ Hload2) as (_ & _ & Hent).
  destruct layer_ids2 as [|lid0 rest2]; [done|].
  destruct (Hent 0%nat lid0 eq_refl) as (wn0 & dev0 & e0 & _ & _ & a & b & Hmerge0 & _).
  unfold merged_layer_weights in Hmerge0.
  apply bind_Some in Hmerge0 as (scale & Hscale & _).
  rewrite Hcfg in Hscale. simpl in Hscale.
  exists (a0 :: la'), lb, a0, scale. split_and!; [done|done|by rewrite Hcfg|done|].
  intros i lid Hi.
  destruct (Hent i lid Hi) as (wn & dev & e & Ht & Hm & a' & b' & Hmerge & _ & Hb).
  exists wn, dev, e. split_and!; [done..|].
  unfold merged_layer_weights in Hmerge. rewrite Hcfg in Hmerge. simpl in Hmerge.
  rewrite Hscale in Hmerge. simpl in Hmerge. by simplify_eq.
Qed.

Lemma X8_reused_config_scales_by_padded_rank_witness :
  ∃ self' unused' h' lora_a_list2 lora_b_list2 unused2',
    @load_batched_adapter_weights bump_torch sample_punica sample_model sample_config
      sample_module_map "q_proj" ∅ false 0%nat
      = Some (Some sample_loaded_w, self', unused', h') ∧
    @load_layers sample_model self' sample_module_map "k_proj" [0; 1] ∅
      = Some (Some (lora_a_list2, lora_b_list2), unused2') ∧
    ∃ lora_a_list lora_b_list a0 scale,
      @load_layers sample_model sample_config sample_module_map "q_proj"
        (layer_ids_of (@get_num_layers_for_type sample_model "q_proj")) ∅
        = Some (Some (lora_a_list, lora_b_list), unused') ∧
      head lora_a_list = Some a0 ∧
      r self' = Z.of_nat (size1 (@pad_rank sample_punica a0 1 (@world_size sample_model))) ∧
      get_scaling_factor (lora_alpha sample_config)
        (Z.of_nat (size1 (@pad_rank sample_punica a0 1 (@world_size sample_model))))
        (use_rslora sample_config) = Some scale ∧
      ∀ i layer_id, [0; 1] !! i = Some layer_id →
        ∃ weight_name device entry,
          @target_to_layer sample_model layer_id "k_proj" = Some (weight_name, device) ∧
          sample_module_map !! weight_name = Some entry ∧
          lora_b_list2 !! i =
            Some (scale_tensor scale
                    (transpose_0_1
                       (@load_module_weight sample_model (lora_B entry).2
                          (lora_B entry).1 device))).
Proof.
  eexists _, _, _, _, _, _. split; [|split].
  - vm_compute. reflexivity.
  - vm_compute. reflexivity.
  - eapply (@X8_reused_config_scales_by_padded_rank bump_torch sample_punica sample_model
              sample_config sample_module_map "q_proj" ∅ false 0%nat sample_loaded_w
              _ _ _ sample_module_map "k_proj" [0; 1] ∅).
    + vm_compute. reflexivity.
    + vm_compute. discriminate.
    + vm_compute. reflexivity.
    + discriminate.
Defined.

(** ** The orientation cache *)

(** X9. The orientation is cached: after any read of [weights_a], reading
    [weights_a] or [weights_b] again returns the blocks the object holds,
    changes nothing in the object and allocates nothing, and a read of an
    object that is in the load-time state already is such a read. The same
    holds for [weights_a_t] and [weights_b_t] and the transposed state. *)
Theorem X9_orientation_cached `{Torch} (w : LoraWeights) (h h2 : Heap) :
  (let '(t, w', h') := weights_a w h in
   t = _weights_a w' ∧
   weights_a w' h2 = (t, w', h2) ∧
   weights_b w' h2 = (_weights_b w', w', h2) ∧
   (_is_transposed w = false → w' = w ∧ h' = h)) ∧
  (let '(t, w', h') := weights_a_t w h in
   t = _weights_a w' ∧
   weights_a_t w' h2 = (t, w', h2) ∧
   weights_b_t w' h2 = (_weights_b w', w', h2) ∧
   (_is_transposed w = true → w' = w ∧ h' = h)).
Proof.
  split.
  - pose proof (weights_a_spec w h) as Hspec.
    destruct (weights_a w h) as [[t w'] h'].
    destruct Hspec as (Ht & _ & Hflag & _ & _ & Hid). simpl in Ht.
    subst t. unfold weights_a, weights_b. rewrite Hflag. simpl. by split_and!.
  - pose proof (weights_a_t_spec w h) as Hspec.
    destruct (weights_a_t w h) as [[t w'] h'].
    destruct Hspec as (Ht & _ & Hflag & _ & _ & Hid). simpl in Ht.
    subst t. unfold weights_a_t, weights_b_t. rewrite Hflag. simpl. by split_and!.
Qed.

(** X10. Without the cutlass shrink a flip leaves the A block alone: both
    [weights_a] and [weights_a_t] return the A block the object held before
    the read, at the same address, whatever state the object is in; only the
    B block is replaced by a transposed one. *)
Theorem X10_no_cutlass_keeps_A `{Torch} (w : LoraWeights) (h : Heap) :
  _use_cutlass_shrink w = false →
  (weights_a w h).1.1 = _weights_a w ∧
  (weights_a_t w h).1.1 = _weights_a w ∧
  _weights_a (_transpose_weights w h).1 = _weights_a w ∧
  layers (_weights_b (_transpose_weights w h).1)
    = map transpose_0_1 (layers (_weights_b w)).
Proof.
  intros Hc.
  assert (Hflip : _weights_a (_transpose_weights w h).1 = _weights_a w ∧
            layers (_weights_b (_transpose_weights w h).1)
              = map transpose_0_1 (layers (_weights_b w))).
  { unfold _transpose_weights, transpose_1_2_contiguous. rewrite Hc.
    by destruct (contiguous_ptr h (data_ptr (_weights_b w))). }
  destruct Hflip as [Ha Hb].
  unfold weights_a, weights_a_t.
  destruct (_is_transposed w); simpl; split_and!; try done;
    by destruct (_transpose_weights w h).
Qed.

Lemma X10_no_cutlass_keeps_A_witness :
  (@weights_a bump_torch sample_w16 0%nat).1.1 = _weights_a sample_w16 ∧
  (@weights_a_t bump_torch sample_w16 0%nat).1.1 = _weights_a sample_w16 ∧
  _weights_a (@_transpose_weights bump_torch sample_w16 0%nat).1 = _weights_a sample_w16 ∧
  layers (_weights_b (@_transpose_weights bump_torch sample_w16 0%nat).1)
    = map transpose_0_1 (layers (_weights_b sample_w16)).
Proof. apply (@X10_no_cutlass_keeps_A bump_torch sample_w16 0%nat). reflexivity. Defined.

(** ** The adapters that take part in a batch *)

Lemma lora_adapter_items_elem (aws : list (Z * AdapterWeights)) (idx : Z) (w : LoraWeights) :
  (idx, w) ∈ lora_adapter_items aws ↔
  (idx, LoraAdapter w) ∈ aws ∨ (idx, WrappedAdapter (LoraAdapter w)) ∈ aws.
Proof.
  unfold lora_adapter_items. rewrite list_elem_of_omap. split.
  - intros ([k v] & Hin & Hf). apply list_elem_of_fmap in Hin as ([k' v'] & [= -> ->] & Hin).
    simpl in Hf. destruct v' as [w'|[w'| |]|]; simpl in Hf; simplify_eq; auto.
  - intros [Hin|Hin].
    + exists (idx, LoraAdapter w). split; [|done].
      apply list_elem_of_fmap. by exists (idx, LoraAdapter w).
    + exists (idx, LoraAdapter w). split; [|done].
      apply list_elem_of_fmap. by exists (idx, WrappedAdapter (LoraAdapter w)).
Qed.

Lemma lora_adapter_items_keys (aws : list (Z * AdapterWeights)) :
  (lora_adapter_items aws).*1 `sublist_of` aws.*1.
Proof.
  unfold lora_adapter_items. induction aws as [|[k v] rest IH]; [done|].
  cbn. destruct (as_LoraWeights (_convert_lora v)); simpl.
  - by apply sublist_skip.
  - by apply sublist_cons.
Qed.

(** X11. For a mapping with distinct keys, an identifier has LoRA weights
    for the layer exactly when its value is a [LoraWeights] or an object
    whose [lora_weights] attribute is one. Unwrapping goes one level deep: a
    wrapper around a wrapper, or any other object, leaves the identifier
    without weights. *)
Theorem X11_lora_adapters (adapter_weights : list (Z * AdapterWeights)) :
  NoDup adapter_weights.*1 →
  (∀ idx w, lora_adapters adapter_weights !! idx = Some w ↔
     (idx, LoraAdapter w) ∈ adapter_weights ∨
     (idx, WrappedAdapter (LoraAdapter w)) ∈ adapter_weights) ∧
  (∀ idx v, (idx, WrappedAdapter (WrappedAdapter v)) ∈ adapter_weights →
     lora_adapters adapter_weights !! idx = None) ∧
  (∀ idx, (idx, OtherAdapter) ∈ adapter_weights →
     lora_adapters adapter_weights !! idx = None).
Proof.
  intros Hnd.
  assert (Hnd' : NoDup (lora_adapter_items adapter_weights).*1).
  { eapply sublist_NoDup; [|apply lora_adapter_items_keys]. done. }
  assert (Hiff : ∀ idx w, lora_adapters adapter_weights !! idx = Some w ↔
            (idx, LoraAdapter w) ∈ adapter_weights ∨
            (idx, WrappedAdapter (LoraAdapter w)) ∈ adapter_weights).
  { intros idx w. unfold lora_adapters.
    rewrite <- elem_of_list_to_map by done. apply lora_adapter_items_elem. }
  assert (Huniq : ∀ idx v v', (idx, v) ∈ adapter_weights → (idx, v') ∈ adapter_weights →
            v = v').
  { intros idx v v' Hv Hv'.
    apply (elem_of_list_to_map_1 (M := gmap Z)) in Hv; [|done].
    apply (elem_of_list_to_map_1 (M := gmap Z)) in Hv'; [|done]. congruence. }
  split_and!; [done| |].
  - intros idx v Hin.
    destruct (lora_adapters adapter_weights !! idx) as [w|] eqn:Hw; [|done].
    apply Hiff in Hw as [Hw|Hw]; by pose proof (Huniq _ _ _ Hin Hw).
  - intros idx Hin.
    destruct (lora_adapters adapter_weights !! idx) as [w|] eqn:Hw; [|done].
    apply Hiff in Hw as [Hw|Hw]; by pose proof (Huniq _ _ _ Hin Hw).
Qed.

Lemma X11_lora_adapters_witness :
  (∀ idx w, lora_adapters sample_adapter_weights !! idx = Some w ↔
     (idx, LoraAdapter w) ∈ sample_adapter_weights ∨
     (idx, WrappedAdapter (LoraAdapter w)) ∈ sample_adapter_weights) ∧
  (∀ idx v, (idx, WrappedAdapter (WrappedAdapter v)) ∈ sample_adapter_weights →
     lora_adapters sample_adapter_weights !! idx = None) ∧
  (∀ idx, (idx, OtherAdapter) ∈ sample_adapter_weights →
     lora_adapters sample_adapter_weights !! idx = None).
Proof.
  apply (X11_lora_adapters sample_adapter_weights).
  simpl. repeat constructor; set_solver.
Defined.

(** ** More on the rank groups *)

Lemma group_positions_increasing (s : gmap Z LoraWeights) (segs : list Z) (k rk : nat) :
  ∀ j j' p p', (j < j')%nat →
    group_positions s segs k rk !! j = Some p →
    group_positions s segs k rk !! j' = Some p' → (p < p')%nat.
Proof.
  revert k. induction segs as [|idx0 rest IH]; intros k j j' p p' Hlt Hj Hj'; simpl in *.
  - by rewrite lookup_nil in Hj.
  - destruct (s !! idx0) as [w0|]; [case_bool_decide|]; try by eapply IH.
    destruct j as [|j]; destruct j' as [|j']; simpl in *; try lia.
    + simplify_eq. apply list_elem_of_lookup_2, group_positions_ge in Hj'. lia.
    + eapply (IH (S k) j j'); [lia|done..].
Qed.

(** X12. Every rank group lists its segment positions in increasing order,
    the order of the batch, and every position is below the number of
    segments; so the per-group pointer slices follow the order of the
    batch. *)
Theorem X12_groups_in_batch_order (adapter_weights : gmap Z LoraWeights)
    (segment_indices : list Z) (rk : nat) (l : list nat) :
  rank_indices_of adapter_weights segment_indices !! rk = Some l →
  l ≠ [] ∧
  (∀ p, p ∈ l → (p < length segment_indices)%nat) ∧
  (∀ j j' p p', (j < j')%nat → l !! j = Some p → l !! j' = Some p' → (p < p')%nat).
Proof.
  intros [-> Hne]%rank_indices_of_lookup. split_and!; [done| |].
  - intros p (i & idx & w & -> & Hi & _)%group_positions_elem.
    apply lookup_lt_Some in Hi. lia.
  - apply group_positions_increasing.
Qed.

Lemma X12_groups_in_batch_order_witness :
  ∃ l,
    rank_indices_of (lora_adapters sample_adapter_weights)
      (segment_indices sample_decode_meta) !! 8%nat = Some l ∧
    l ≠ [] ∧
    (∀ p, p ∈ l → (p < length (segment_indices sample_decode_meta))%nat) ∧
    (∀ j j' p p', (j < j')%nat → l !! j = Some p → l !! j' = Some p' → (p < p')%nat).
Proof.
  eexists. split.
  - vm_compute. reflexivity.
  - apply (X12_groups_in_batch_order (lora_adapters sample_adapter_weights)
             (segment_indices sample_decode_meta) 8%nat).
    vm_compute. reflexivity.
Defined.

(** X13. A returned aggregation has at least one rank group. Every group is
    stored under its own rank, is not empty, and has A and B pointer slices
    of the same length; on the variable-length path it carries the scratch
    buffers that [get_tmp_tensors] gives for its number of segments and its
    rank and no index array, on the per-token path an index array and
    neither scratch buffers nor boundaries. *)
Theorem X13_rank_groups_shape `{Torch} `{Punica}
    (adapter_weights : list (Z * AdapterWeights)) (meta : AdapterBatchMetadata)
    (name : string) (prefill : bool) (head_indices : option (list Z)) (h : Heap)
    (b : BatchLoraWeights) (st : gmap Z LoraWeights * Heap) :
  BatchLoraWeights_load adapter_weights meta name prefill head_indices h
    = (Some (Some b), st) →
  rank_data b ≠ ∅ ∧
  ∀ rk rs, rank_data b !! rk = Some rs →
    rank rs = rk ∧
    lora_a_ptr rs ≠ [] ∧
    length (lora_a_ptr rs) = length (lora_b_ptr rs) ∧
    if use_sgmv b then
      tmp_shrink rs = Some (get_tmp_tensors (length (lora_a_ptr rs)) rk).1 ∧
      tmp_expand rs = Some (get_tmp_tensors (length (lora_a_ptr rs)) rk).2 ∧
      is_Some (segment_starts rs) ∧ is_Some (segment_ends rs) ∧
      indices rs = None
    else
      tmp_shrink rs = None ∧ tmp_expand rs = None ∧
      segment_starts rs = None ∧ segment_ends rs = None ∧
      is_Some (indices rs).
Proof.
  intros Hload.
  destruct (load_Some _ _ _ _ _ _ _ _ Hload)
    as (L & hs & Htab & _ & _ & Hrd & _ & Hsgmv & _).
  destruct (load_tables_inr _ _ _ _ _ Htab)
    as (_ & _ & _ & _ & Hranks & Hne & Hmax & _).
  pose proof (rank_data_of_lookup _ _ _ _ _ Hrd) as Hlook.
  split.
  - intros Hempty.
    assert (Hin : l_max_rank L ∈ l_segment_ranks L).
    { rewrite Hmax. by apply max_list_elem_of. }
    rewrite Hranks in Hin. apply segment_ranks_of_elem in Hin as (i & idx & w & Hi & Hw & Hr).
    destruct (rank_indices_members (lora_adapters adapter_weights) (segment_indices meta))
      as [Hcover _].
    destruct (proj2 (Hcover i)) as (rk & l & Hl & _); [exists idx; by rewrite Hw|].
    destruct (proj2 (rank_data_keys _ _ _ _ _ _ _ _ Hload rk)) as [rs Hrs]; [by exists l|].
    rewrite Hempty in Hrs. by rewrite lookup_empty in Hrs.
  - intros rk rs Hrs. apply Hlook in Hrs as (l & Hl & Hrs).
    destruct (rank_segments_of_Some _ _ _ _ _ _ Hrs) as (Hrk & Hpa & Hpb & Hrest).
    destruct (mapM_lookup _ _ _ Hpa) as [Hla _]. destruct (mapM_lookup _ _ _ Hpb) as [Hlb _].
    apply rank_indices_of_lookup in Hl as [_ Hlne].
    split_and!; [done| |lia|].
    + intros Hnil. rewrite Hnil in Hla. by destruct l.
    + rewrite Hsgmv, Hla. destruct (l_use_sgmv L).
      * destruct Hrest as (Hi & Hts & Hte & ss & se & _ & _ & Hss & Hse & _).
        split_and!; eauto.
      * destruct Hrest as (? & ? & ? & ? & locs & bi & _ & _ & Hi). split_and!; eauto.
Qed.

Lemma X13_rank_groups_shape_witness :
  ∃ b st,
    @BatchLoraWeights_load bump_torch sample_punica sample_adapter_weights
      sample_prefill_meta "q_proj" true None 0%nat = (Some (Some b), st) ∧
    rank_data b ≠ ∅ ∧
    ∀ rk rs, rank_data b !! rk = Some rs →
      rank rs = rk ∧
      lora_a_ptr rs ≠ [] ∧
      length (lora_a_ptr rs) = length (lora_b_ptr rs) ∧
      if use_sgmv b then
        tmp_shrink rs = Some (@get_tmp_tensors sample_punica (length (lora_a_ptr rs)) rk).1 ∧
        tmp_expand rs = Some (@get_tmp_tensors sample_punica (length (lora_a_ptr rs)) rk).2 ∧
        is_Some (segment_starts rs) ∧ is_Some (segment_ends rs) ∧
        indices rs = None
      else
        tmp_shrink rs = None ∧ tmp_expand rs = None ∧
        segment_starts rs = None ∧ segment_ends rs = None ∧
        is_Some (indices rs).
Proof.
  eexists _, _. split.
  - vm_compute. reflexivity.
  - eapply (@X13_rank_groups_shape bump_torch sample_punica sample_adapter_weights
              sample_prefill_meta "q_proj" true None 0%nat).
    vm_compute. reflexivity.
Defined.

(** X14. On the variable-length path without selected positions, the
    boundaries of a rank group are the raw metadata boundaries of its
    segments: for the [j]-th position [p] of the group, [segment_starts[j]]
    is [adapter_segments[p]] and [segment_ends[j]] is
    [adapter_segments[p + 1]]. *)
Theorem X14_raw_boundaries `{Torch} `{Punica}
    (adapter_weights : list (Z * AdapterWeights)) (meta : AdapterBatchMetadata)
    (name : string) (prefill : bool) (h : Heap)
    (b : BatchLoraWeights) (st : gmap Z LoraWeights * Heap) :
  BatchLoraWeights_load adapter_weights meta name prefill None h = (Some (Some b), st) →
  use_sgmv b = true →
  ∀ rk rs, rank_data b !! rk = Some rs →
    ∃ l ss se,
      rank_indices_of (lora_adapters adapter_weights) (segment_indices meta) !! rk = Some l ∧
      segment_starts rs = Some ss ∧ segment_ends rs = Some se ∧
      length ss = length l ∧ length se = length l ∧
      ∀ j p, l !! j = Some p →
        adapter_segments meta !! p = ss !! j ∧
        adapter_segments meta !! (p + 1)%nat = se !! j ∧
        is_Some (ss !! j) ∧ is_Some (se !! j).
Proof.
  intros Hload Hsg rk rs Hrs.
  destruct (load_Some _ _ _ _ _ _ _ _ Hload)
    as (L & hs & Htab & _ & Hhs & Hrd & _ & Hsgmv & _).
  injection Hhs as <-.
  destruct (proj1 (rank_data_of_lookup _ _ _ _ _ Hrd rk rs) Hrs) as (l & Hl & Hrs').
  destruct (rank_segments_of_Some _ _ _ _ _ _ Hrs') as (_ & _ & _ & Hrest).
  rewrite <- Hsgmv, Hsg in Hrest.
  destruct Hrest as (_ & _ & _ & ss & se & ss0 & se0 & Hss & Hse & Hss0 & Hse0 & [-> ->]).
  destruct (mapM_lookup _ _ _ Hss0) as [Hl0 Hs0]. destruct (mapM_lookup _ _ _ Hse0) as [Hl1 Hs1].
  exists l, ss0, se0. split_and!; [done..|].
  intros j p Hj. destruct (Hs0 j p Hj) as [? ?]. destruct (Hs1 j p Hj) as [? ?].
  by split_and!.
Qed.

Lemma X14_raw_boundaries_witness :
  ∃ b st,
    @BatchLoraWeights_load bump_torch sample_punica sample_adapter_weights
      sample_prefill_meta "q_proj" true None 0%nat = (Some (Some b), st) ∧
    ∀ rk rs, rank_data b !! rk = Some rs →
      ∃ l ss se,
        rank_indices_of (lora_adapters sample_adapter_weights)
          (segment_indices sample_prefill_meta) !! rk = Some l ∧
        segment_starts rs = Some ss ∧ segment_ends rs = Some se ∧
        length ss = length l ∧ length se = length l ∧
        ∀ j p, l !! j = Some p →
          adapter_segments sample_prefill_meta !! p = ss !! j ∧
          adapter_segments sample_prefill_meta !! (p + 1)%nat = se !! j ∧
          is_Some (ss !! j) ∧ is_Some (se !! j).
Proof.
  eexists _, _. split.
  - vm_compute. reflexivity.
  - eapply (@X14_raw_boundaries bump_torch sample_punica sample_adapter_weights
              sample_prefill_meta "q_proj" true 0%nat).
    + vm_compute. reflexivity.
    + vm_compute. reflexivity.
Defined.

(** ** What a call does to the adapter objects *)

Lemma swept_untouched target segs (s s' : gmap Z LoraWeights) idx :
  swept target segs s s' → idx ∉ segs → s' !! idx = s !! idx.
Proof.
  intros Hsw Hnot. specialize (Hsw idx).
  destruct (s !! idx) as [w|]; [|done].
  destruct Hsw as (w' & -> & _ & Hno). by rewrite (Hno Hnot).
Qed.

Lemma swept_settled target segs (s s' : gmap Z LoraWeights) :
  swept target segs s s' → swept target segs s' s'.
Proof.
  intros Hsw idx. specialize (Hsw idx).
  destruct (s !! idx) as [w|].
  - destruct Hsw as (w' & -> & Hyes & _). exists w'. split_and!; [done| |done].
    intros Hin. destruct (Hyes Hin) as [(_ & Ht & _) _]. split; [|done].
    rewrite <- Ht. apply in_state_refl.
  - by rewrite Hsw.
Qed.

Lemma swept_state target segs (s s' : gmap Z LoraWeights) idx w' :
  swept target segs s s' → idx ∈ segs → s' !! idx = Some w' → _is_transposed w' = target.
Proof.
  intros Hsw Hin Hw'. specialize (Hsw idx).
  destruct (s !! idx) as [w|]; [|congruence].
  destruct Hsw as (w'' & Hw'' & Hyes & _). destruct (Hyes Hin) as [(_ & Ht & _) _].
  congruence.
Qed.

Section DictFacts.
Context `{Torch}.
Variable property : LoraWeights → Heap → Tensor3 * LoraWeights * Heap.
Variables target is_a : bool.
Hypothesis property_spec : accessor_spec property target is_a.

Lemma tensor_dict_lookup segs (acc : gmap Z Tensor3) st :
  let '(d, st') := tensor_dict property segs acc st in
  swept target segs st.1 st'.1 ∧
  ∀ idx, d !! idx = match st'.1 !! idx with
                    | Some w' => if decide (idx ∈ segs) then Some (selected is_a w')
                                 else acc !! idx
                    | None => acc !! idx
                    end.
Proof.
  revert acc st. induction segs as [|idx0 rest IH]; intros acc st; cbn [tensor_dict].
  - split; [apply swept_nil|]. intros idx.
    destruct (st.1 !! idx); [|done]. by rewrite decide_False by apply not_elem_of_nil.
  - destruct (access property idx0 st) as [[t st1]|] eqn:Hacc.
    + apply (access_Some _ _ _ property_spec) in Hacc
        as (w & w' & Hw & Hst1 & Ht & Hin & Hid).
      specialize (IH (<[idx0 := t]> acc) st1).
      destruct (tensor_dict property rest _ st1) as [d st'].
      destruct IH as [Hsw Hd]. rewrite Hst1 in Hsw.
      destruct (swept_cons _ _ _ _ _ _ _ Hw Hin Hid Hsw) as [Hsw' Hfin].
      split; [done|]. intros idx. rewrite Hd.
      destruct (decide (idx = idx0)) as [->|Hne].
      * rewrite Hfin, lookup_insert_eq, Ht.
        rewrite (decide_True (P := idx0 ∈ idx0 :: rest)) by left.
        by destruct (decide (idx0 ∈ rest)).
      * rewrite lookup_insert_ne by done.
        destruct (st'.1 !! idx); [|done].
        destruct (decide (idx ∈ rest)) as [Hr|Hr].
        -- by rewrite decide_True by by right.
        -- rewrite decide_False; [done|]. by intros [?|?]%elem_of_cons.
    + apply (access_None property) in Hacc.
      specialize (IH acc st). destruct (tensor_dict property rest acc st) as [d st'].
      destruct IH as [Hsw Hd].
      split; [by apply swept_cons_absent|]. intros idx. rewrite Hd.
      destruct (st'.1 !! idx) as [w'|] eqn:Hw'; [|done].
      assert (idx ≠ idx0).
      { intros ->. specialize (Hsw idx0). rewrite Hacc in Hsw. congruence. }
      destruct (decide (idx ∈ rest)) as [Hr|Hr].
      * by rewrite decide_True by by right.
      * rewrite decide_False; [done|]. by intros [?|?]%elem_of_cons.
Qed.

End DictFacts.

Section Trace.
Context `{Torch} `{Punica}.

(** The stores a call goes through: after the device lookup, after the two
    dicts, after the two pointer tables. *)
Lemma load_tables_trace adapter_weights meta prefill h :
  let aw0 := lora_adapters adapter_weights in
  let segs := segment_indices meta in
  match lora_adapter_items adapter_weights with
  | [] => load_tables adapter_weights meta prefill h = inl (∅, h)
  | (first_key, _) :: _ =>
    ∃ (s1 s2 : gmap Z LoraWeights) (la lb : gmap Z Tensor3),
      swept false [first_key] aw0 s1 ∧ swept false segs s1 s2 ∧
      (∀ idx, la !! idx = if decide (idx ∈ segs) then _weights_a <$> s2 !! idx else None) ∧
      (∀ idx, lb !! idx = if decide (idx ∈ segs) then _weights_b <$> s2 !! idx else None) ∧
      match load_tables adapter_weights meta prefill h with
      | inl st => st.1 = s2
      | inr L => l_lora_a L = la ∧ l_lora_b L = lb ∧
                 swept (negb (l_use_sgmv L)) segs s2 (l_adapter_weights L)
      end
  end.
Proof.
  cbv zeta. unfold load_tables.
  destruct (lora_adapter_items adapter_weights) as [|[first_key w0] items] eqn:Hitems;
    [done|].
  set (st0 := (lora_adapters adapter_weights, h)) in *.
  assert (∃ st1, swept false [first_key] st0.1 st1.1 ∧
            match access weights_a first_key st0 with
            | Some (_, st') => st'
            | None => st0
            end = st1) as (st1 & Hsw1 & ->).
  { destruct (access weights_a first_key st0) as [[t st1]|] eqn:Hacc.
    - exists st1. split; [|done].
      apply (access_Some _ _ _ weights_a_spec) in Hacc
        as (w & w' & Hw & Hs1 & _ & Hin & Hid).
      rewrite Hs1. eapply swept_cons; [done..|]. apply swept_nil.
    - exists st0. split; [|done].
      apply (access_None weights_a) in Hacc.
      apply swept_cons_absent; [done|apply swept_nil]. }
  pose proof (tensor_dict_lookup _ _ _ weights_a_spec (segment_indices meta) ∅ st1) as Hd2.
  destruct (tensor_dict weights_a (segment_indices meta) ∅ st1) as [la st2].
  destruct Hd2 as [Hsw2 Hla].
  pose proof (tensor_dict_lookup _ _ _ weights_b_spec (segment_indices meta) ∅ st2) as Hd3.
  destruct (tensor_dict weights_b (segment_indices meta) ∅ st2) as [lb st3].
  destruct Hd3 as [Hsw3 Hlb].
  pose proof (swept_again _ _ _ _ _ Hsw2 Hsw3) as Heq23.
  exists st1.1, st2.1, la, lb. split_and!; [done|done|..].
  - intros idx. rewrite Hla, lookup_empty.
    destruct (st2.1 !! idx); simpl; by destruct (decide _).
  - intros idx. rewrite Hlb, lookup_empty, Heq23.
    destruct (st2.1 !! idx); simpl; by destruct (decide _).
  - destruct (segment_ranks_of st3.1 (segment_indices meta)) as [|r0 rs] eqn:Hranks;
      [done|].
    set (max_rank := max_list (r0 :: rs)) in *.
    set (sgmv := prefill || bool_decide (BGMV_MAX_RANK < max_rank)%nat) in *.
    assert (∃ pa pb : LoraWeights → Heap → Tensor3 * LoraWeights * Heap,
              pa = (if sgmv then weights_a else weights_a_t) ∧
              pb = (if sgmv then weights_b else weights_b_t) ∧
              accessor_spec pa (negb sgmv) true ∧ accessor_spec pb (negb sgmv) false)
      as (pa & pb & Hpa & Hpb & Hspa & Hspb).
    { eexists _, _. split_and!; [done..| |]; destruct sgmv; simpl.
      - apply weights_a_spec.
      - apply weights_a_t_spec.
      - apply weights_b_spec.
      - apply weights_b_t_spec. }
    rewrite <- Hpa, <- Hpb.
    pose proof (ptr_table_spec _ _ _ Hspa (segment_indices meta) st3) as Hta.
    destruct (ptr_table pa (segment_indices meta) st3) as [ptra st4].
    destruct Hta as (_ & Hsw4 & _).
    pose proof (ptr_table_spec _ _ _ Hspb (segment_indices meta) st4) as Htb.
    destruct (ptr_table pb (segment_indices meta) st4) as [ptrb st5].
    destruct Htb as (_ & Hsw5 & _).
    pose proof (swept_again _ _ _ _ _ Hsw4 Hsw5) as Heq45.
    simpl. rewrite Heq45. rewrite Heq23 in Hsw4. by split_and!.
Qed.

Lemma load_store adapter_weights meta name prefill head_indices h :
  (BatchLoraWeights_load adapter_weights meta name prefill head_indices h).2.1 =
  match load_tables adapter_weights meta prefill h with
  | inl st => st.1
  | inr L => l_adapter_weights L
  end.
Proof.
  unfold BatchLoraWeights_load. by destruct (load_tables adapter_weights meta prefill h).
Qed.

(** The same for the whole call, whatever its outcome. *)
Lemma load_store_trace adapter_weights meta name prefill head_indices h :
  let aw0 := lora_adapters adapter_weights in
  let segs := segment_indices meta in
  let s' := (BatchLoraWeights_load adapter_weights meta name prefill head_indices h).2.1 in
  match lora_adapter_items adapter_weights with
  | [] => s' = aw0
  | (first_key, _) :: _ =>
    ∃ (s1 s2 : gmap Z LoraWeights) (t : bool),
      swept false [first_key] aw0 s1 ∧ swept false segs s1 s2 ∧ swept t segs s2 s'
  end.
Proof.
  cbv zeta. rewrite load_store.
  pose proof (load_tables_trace adapter_weights meta prefill h) as Htr. cbv zeta in Htr.
  destruct (lora_adapter_items adapter_weights) as [|[first_key w0] items] eqn:Hitems.
  - rewrite Htr. unfold lora_adapters. by rewrite Hitems.
  - destruct Htr as (s1 & s2 & la & lb & Hsw1 & Hsw2 & _ & _ & Hfin).
    destruct (load_tables adapter_weights meta prefill h) as [st|L].
    + exists s1, s2, false. rewrite Hfin. split_and!; [done..|]. by eapply swept_settled.
    + destruct Hfin as (_ & _ & Hsw3). by exists s1, s2, (negb (l_use_sgmv L)).
Qed.

End Trace.

(** X15. Whatever its outcome, a call keeps every adapter object in the
    mapping: the ranks, the cutlass flag and the configuration of each are
    unchanged; an adapter that is neither in a segment of the batch nor the
    first one of the mapping is exactly as it was; and the blocks of a
    well-formed adapter hold afterwards the values they had before, in the
    orientation the object is left in. *)
Theorem X15_call_keeps_adapters `{Torch} `{Punica}
    (adapter_weights : list (Z * AdapterWeights)) (meta : AdapterBatchMetadata)
    (name : string) (prefill : bool) (head_indices : option (list Z)) (h : Heap) :
  let aw0 := lora_adapters adapter_weights in
  let s' := (BatchLoraWeights_load adapter_weights meta name prefill head_indices h).2.1 in
  (∀ idx, static <$> s' !! idx = static <$> aw0 !! idx) ∧
  (∀ idx, idx ∉ segment_indices meta →
     fst <$> head (lora_adapter_items adapter_weights) ≠ Some idx →
     s' !! idx = aw0 !! idx) ∧
  (∀ idx w0, aw0 !! idx = Some w0 → wf_lora_weights w0 →
     ∃ w', s' !! idx = Some w' ∧ wf_lora_weights w' ∧
       layers (_weights_a w') = values_a (_is_transposed w') w0 ∧
       layers (_weights_b w') = values_b (_is_transposed w') w0).
Proof.
  cbv zeta.
  pose proof (load_store_trace adapter_weights meta name prefill head_indices h) as Htr.
  cbv zeta in Htr.
  set (s' := (BatchLoraWeights_load adapter_weights meta name prefill head_indices h).2.1)
    in *.
  assert (Hev : evolved (lora_adapters adapter_weights) s').
  { destruct (lora_adapter_items adapter_weights) as [|[first_key w0] items] eqn:Hitems.
    - rewrite Htr. apply evolved_refl.
    - destruct Htr as (s1 & s2 & t & Hsw1 & Hsw2 & Hsw3).
      eapply evolved_trans; [by eapply swept_evolved|].
      eapply evolved_trans; by eapply swept_evolved. }
  split_and!.
  - intros idx. symmetry. by apply evolved_store_sim.
  - intros idx Hseg Hfirst.
    destruct (lora_adapter_items adapter_weights) as [|[first_key w0] items] eqn:Hitems.
    + by rewrite Htr.
    + destruct Htr as (s1 & s2 & t & Hsw1 & Hsw2 & Hsw3).
      rewrite (swept_untouched _ _ _ _ _ Hsw3 Hseg), (swept_untouched _ _ _ _ _ Hsw2 Hseg).
      apply (swept_untouched _ _ _ _ _ Hsw1).
      intros ->%list_elem_of_singleton. by apply Hfirst.
  - intros idx w0 Hw0 Hwf. specialize (Hev idx). rewrite Hw0 in Hev.
    destruct Hev as (w' & Hw' & _ & Hrest). destruct (Hrest Hwf) as (Hwf' & t & Hin).
    exists w'. destruct Hin as (_ & <- & Ha & Hb). by split_and!.
Qed.

(** X16. The [lora_a] and [lora_b] dicts of a returned aggregation have one
    entry per adapter that occurs in a segment and has LoRA weights. The
    entries are the blocks in load-time orientation: those of the input
    object itself when it was not transposed, and in any case blocks with
    the load-time values of a well-formed adapter. On the variable-length
    path they are the very blocks the adapter objects hold after the
    call. *)
Theorem X16_weight_dicts `{Torch} `{Punica}
    (adapter_weights : list (Z * AdapterWeights)) (meta : AdapterBatchMetadata)
    (name : string) (prefill : bool) (head_indices : option (list Z)) (h : Heap)
    (b : BatchLoraWeights) (st : gmap Z LoraWeights * Heap) :
  BatchLoraWeights_load adapter_weights meta name prefill head_indices h
    = (Some (Some b), st) →
  let aw0 := lora_adapters adapter_weights in
  (∀ idx, is_Some (lora_a b !! idx) ↔ idx ∈ segment_indices meta ∧ is_Some (aw0 !! idx)) ∧
  (∀ idx, is_Some (lora_b b !! idx) ↔ idx ∈ segment_indices meta ∧ is_Some (aw0 !! idx)) ∧
  (∀ idx w0, idx ∈ segment_indices meta → aw0 !! idx = Some w0 →
     ∃ ta tb, lora_a b !! idx = Some ta ∧ lora_b b !! idx = Some tb ∧
       (_is_transposed w0 = false → ta = _weights_a w0 ∧ tb = _weights_b w0) ∧
       (wf_lora_weights w0 →
          layers ta = values_a false w0 ∧ layers tb = values_b false w0)) ∧
  (use_sgmv b = true →
     ∀ idx, idx ∈ segment_indices meta →
       lora_a b !! idx = _weights_a <$> st.1 !! idx ∧
       lora_b b !! idx = _weights_b <$> st.1 !! idx).
Proof.
  intros Hload. cbv zeta.
  destruct (load_Some _ _ _ _ _ _ _ _ Hload)
    as (L & hs & Htab & -> & _ & _ & _ & Hsgmv & -> & -> & _).
  pose proof (load_tables_trace adapter_weights meta prefill h) as Htr. cbv zeta in Htr.
  destruct (load_tables_inr _ _ _ _ _ Htab) as (Hne & _).
  destruct (lora_adapter_items adapter_weights) as [|[first_key v0] items] eqn:Hitems;
    [done|].
  destruct Htr as (s1 & s2 & la & lb & Hsw1 & Hsw2 & Hla & Hlb & Hfin).
  rewrite Htab in Hfin. destruct Hfin as (-> & -> & Hsw3).
  assert (Hsim : store_sim (lora_adapters adapter_weights) s2).
  { eapply store_sim_trans; by eapply swept_store_sim. }
  assert (Hdom : ∀ idx, is_Some (s2 !! idx) ↔ is_Some (lora_adapters adapter_weights !! idx)).
  { intros idx. specialize (Hsim idx). rewrite <- !fmap_is_Some with (f := static).
    by rewrite Hsim. }
  split_and!.
  - intros idx. rewrite Hla. destruct (decide (idx ∈ segment_indices meta)).
    + rewrite fmap_is_Some, Hdom. naive_solver.
    + split; [by intros [? ?]|naive_solver].
  - intros idx. rewrite Hlb. destruct (decide (idx ∈ segment_indices meta)).
    + rewrite fmap_is_Some, Hdom. naive_solver.
    + split; [by intros [? ?]|naive_solver].
  - intros idx w0 Hin Hw0. rewrite Hla, Hlb, !decide_True by done.
    pose proof (Hsw1 idx) as H1. rewrite Hw0 in H1.
    destruct H1 as (w1 & Hw1 & Hyes1 & Hno1).
    pose proof (Hsw2 idx) as H2. rewrite Hw1 in H2.
    destruct H2 as (w2 & Hw2 & Hyes2 & _). destruct (Hyes2 Hin) as [Hin2 Hid2].
    rewrite Hw2. simpl. exists (_weights_a w2), (_weights_b w2). split_and!; [done..| |].
    + intros Hfalse.
      assert (w1 = w0) as ->.
      { destruct (decide (idx ∈ [first_key])) as [Hf|Hf].
        - destruct (Hyes1 Hf) as [_ Hid1]. by apply Hid1.
        - by apply Hno1. }
      by rewrite (Hid2 Hfalse).
    + intros Hwf.
      assert (∃ t, in_state t w0 w1) as [t Hin1].
      { destruct (decide (idx ∈ [first_key])) as [Hf|Hf].
        - exists false. by destruct (Hyes1 Hf).
        - rewrite (Hno1 Hf). exists (_is_transposed w0). apply in_state_refl. }
      destruct (in_state_trans _ _ _ _ _ Hwf Hin1 Hin2) as (_ & _ & Ha & Hb). done.
  - intros Htrue idx Hin. rewrite Hsgmv in Htrue. rewrite Htrue in Hsw3. simpl in Hsw3.
    pose proof (swept_again _ _ _ _ _ Hsw2 Hsw3) as ->.
    by rewrite Hla, Hlb, !decide_True.
Qed.

Lemma X16_weight_dicts_witness :
  ∃ b st,
    @BatchLoraWeights_load bump_torch sample_punica sample_adapter_weights
      sample_decode_meta "q_proj" false None 0%nat = (Some (Some b), st) ∧
    let aw0 := lora_adapters sample_adapter_weights in
    (∀ idx, is_Some (lora_a b !! idx) ↔
       idx ∈ segment_indices sample_decode_meta ∧ is_Some (aw0 !! idx)) ∧
    (∀ idx, is_Some (lora_b b !! idx) ↔
       idx ∈ segment_indices sample_decode_meta ∧ is_Some (aw0 !! idx)) ∧
    (∀ idx w0, idx ∈ segment_indices sample_decode_meta → aw0 !! idx = Some w0 →
       ∃ ta tb, lora_a b !! idx = Some ta ∧ lora_b b !! idx = Some tb ∧
         (_is_transposed w0 = false → ta = _weights_a w0 ∧ tb = _weights_b w0) ∧
         (wf_lora_weights w0 →
            layers ta = values_a false w0 ∧ layers tb = values_b false w0)) ∧
    (use_sgmv b = true →
       ∀ idx, idx ∈ segment_indices sample_decode_meta →
         lora_a b !! idx = _weights_a <$> st.1 !! idx ∧
         lora_b b !! idx = _weights_b <$> st.1 !! idx).
Proof.
  eexists _, _. split.
  - vm_compute. reflexivity.
  - eapply (@X16_weight_dicts bump_torch sample_punica sample_adapter_weights
              sample_decode_meta "q_proj" false None 0%nat).
    vm_compute. reflexivity.
Defined.

(** X17. A call that returns an aggregation leaves every adapter of a
    segment in the orientation of the chosen path: load-time on the
    variable-length path, transposed on the per-token path. The first
    adapter of the mapping, whose [weights_a] is read for the device, is
    left in load-time orientation when it is in no segment. *)
Theorem X17_orientation_after_call `{Torch} `{Punica}
    (adapter_weights : list (Z * AdapterWeights)) (meta : AdapterBatchMetadata)
    (name : string) (prefill : bool) (head_indices : option (list Z)) (h : Heap)
    (b : BatchLoraWeights) (st : gmap Z LoraWeights * Heap) :
  BatchLoraWeights_load adapter_weights meta name prefill head_indices h
    = (Some (Some b), st) →
  (∀ idx, idx ∈ segment_indices meta →
     is_Some (lora_adapters adapter_weights !! idx) →
     ∃ w', st.1 !! idx = Some w' ∧ _is_transposed w' = negb (use_sgmv b)) ∧
  (∀ first_key w0 items,
     lora_adapter_items adapter_weights = (first_key, w0) :: items →
     first_key ∉ segment_indices meta →
     ∃ w', st.1 !! first_key = Some w' ∧ _is_transposed w' = false).
Proof.
  intros Hload.
  destruct (load_Some _ _ _ _ _ _ _ _ Hload)
    as (L & hs & Htab & -> & _ & _ & _ & Hsgmv & _).
  pose proof (load_tables_trace adapter_weights meta prefill h) as Htr. cbv zeta in Htr.
  destruct (load_tables_inr _ _ _ _ _ Htab) as (_ & Hev & Horient & _).
  rewrite Hsgmv. simpl. split.
  - intros idx Hin [w0 Hw0]. specialize (Hev idx). rewrite Hw0 in Hev.
    destruct Hev as (w' & Hw' & _). exists w'. split; [done|]. by eapply Horient.
  - intros first_key w0 items Hitems Hnot. rewrite Hitems in Htr.
    destruct Htr as (s1 & s2 & la & lb & Hsw1 & Hsw2 & _ & _ & Hfin).
    rewrite Htab in Hfin. destruct Hfin as (_ & _ & Hsw3).
    rewrite (swept_untouched _ _ _ _ _ Hsw3 Hnot), (swept_untouched _ _ _ _ _ Hsw2 Hnot).
    assert (Hfirst : lora_adapters adapter_weights !! first_key = Some w0).
    { unfold lora_adapters. rewrite Hitems. simpl. apply lookup_insert_eq. }
    pose proof (Hsw1 first_key) as H1. rewrite Hfirst in H1.
    destruct H1 as (w1 & Hw1 & Hyes & _). exists w1. split; [done|].
    destruct Hyes as [(_ & Ht & _) _]; [by left|done].
Qed.

Lemma X17_orientation_after_call_witness :
  ∃ b st,
    @BatchLoraWeights_load bump_torch sample_punica sample_adapter_weights
      sample_decode_meta "q_proj" false None 0%nat = (Some (Some b), st) ∧
    (∀ idx, idx ∈ segment_indices sample_decode_meta →
       is_Some (lora_adapters sample_adapter_weights !! idx) →
       ∃ w', st.1 !! idx = Some w' ∧ _is_transposed w' = negb (use_sgmv b)) ∧
    (∀ first_key w0 items,
       lora_adapter_items sample_adapter_weights = (first_key, w0) :: items →
       first_key ∉ segment_indices sample_decode_meta →
       ∃ w', st.1 !! first_key = Some w' ∧ _is_transposed w' = false).
Proof.
  eexists _, _. split.
  - vm_compute. reflexivity.
  - eapply (@X17_orientation_after_call bump_torch sample_punica sample_adapter_weights
              sample_decode_meta "q_proj" false None 0%nat).
    vm_compute. reflexivity.
Defined.

(** ** When the per-token path raises *)

Lemma mapM_None {A B} (f : A → option B) (l : list A) :
  mapM f l = None ↔ ∃ x, x ∈ l ∧ f x = None.
Proof.
  rewrite eq_None_not_Some, mapM_is_Some, Forall_forall. split.
  - intros Hnot. induction l as [|x rest IH].
    + exfalso. apply Hnot. intros x Hx. by apply elem_of_nil in Hx.
    + destruct (f x) as [y|] eqn:Hy.
      * destruct IH as (x' & Hx' & Hf).
        { intros Hall. apply Hnot. intros x' [->|Hin]%elem_of_cons; [|by apply Hall].
          simpl. by rewrite Hy. }
        exists x'. split; [by right|done].
      * exists x. split; [by left|done].
  - intros (x & Hx & Hf) Hall. specialize (Hall x Hx). simpl in Hall.
    rewrite Hf in Hall. by destruct Hall.
Qed.

Lemma idx_locs_loop_total (segs : list Z) (l : list nat) (loc : nat) (acc : gmap Z nat) :
  (∀ p, p ∈ l → (p < length segs)%nat) → is_Some (idx_locs_loop segs l loc acc).
Proof.
  revert loc acc. induction l as [|p rest IH]; intros loc acc Hall; simpl; [done|].
  destruct (lookup_lt_is_Some_2 segs p) as [a Ha]; [apply Hall; by left|].
  rewrite Ha. simpl. apply IH. intros p' Hp'. apply Hall. by right.
Qed.

Lemma first_loc_absent (segs : list Z) (l : list nat) (loc : nat) (a : Z) :
  (∀ j p, l !! j = Some p → segs !! p ≠ Some a) → first_loc segs l loc a = None.
Proof.
  intros Hall. destruct (first_loc segs l loc a) as [n|] eqn:Hf; [|done].
  apply first_loc_Some in Hf as (j & p & _ & Hj & Hp & _). by destruct (Hall j p Hj).
Qed.

Section PerToken.
Context `{Torch} `{Punica}.

(** On the per-token path a rank group is built unless the index of some
    token is missing from [idx_locs]. *)
Lemma rank_segments_of_bgmv_None L meta hs rk l :
  l_use_sgmv L = false →
  length (l_lora_a_ptr L) = length (segment_indices meta) →
  length (l_lora_b_ptr L) = length (segment_indices meta) →
  (∀ p, p ∈ l → (p < length (segment_indices meta))%nat) →
  rank_segments_of L meta hs rk l = None →
  ∃ locs, idx_locs_loop (segment_indices meta) l 0 ∅ = Some locs ∧
    batch_indices_of (l_adapter_weights L) rk locs (adapter_indices meta) = None.
Proof.
  intros Hsg Hla Hlb Hpos. unfold rank_segments_of. rewrite Hsg.
  destruct (mapM (λ i, l_lora_a_ptr L !! i) l) as [pa|] eqn:Hpa; simpl.
  2:{ apply mapM_None in Hpa as (p & Hp & Hnone).
      apply lookup_ge_None in Hnone. specialize (Hpos p Hp). lia. }
  destruct (mapM (λ i, l_lora_b_ptr L !! i) l) as [pb|] eqn:Hpb; simpl.
  2:{ apply mapM_None in Hpb as (p & Hp & Hnone).
      apply lookup_ge_None in Hnone. specialize (Hpos p Hp). lia. }
  destruct (idx_locs_loop_total (segment_indices meta) l 0 ∅ Hpos) as [locs Hlocs].
  rewrite Hlocs. simpl. intros Hnone. exists locs. split; [done|].
  by destruct (batch_indices_of _ _ _ _).
Qed.

Lemma load_raises adapter_weights meta name prefill h :
  (BatchLoraWeights_load adapter_weights meta name prefill None h).1 = None ↔
  ∃ L, load_tables adapter_weights meta prefill h = inr L ∧
    rank_data_of L meta None
      (rank_indices_of (lora_adapters adapter_weights) (segment_indices meta)) = None.
Proof.
  unfold BatchLoraWeights_load.
  destruct (load_tables adapter_weights meta prefill h) as [st'|L] eqn:Htab; simpl.
  - split; [done|]. by intros (L & ? & _).
  - destruct (load_tables_inr _ _ _ _ _ Htab) as (_ & Hev & _).
    apply evolved_store_sim in Hev.
    rewrite <- (rank_indices_of_sim _ _ _ Hev).
    destruct (rank_data_of L meta None _) as [rd|] eqn:Hrd; simpl.
    + split; [done|]. intros (L' & [= <-] & Hnone). congruence.
    + split; [|done]. intros _. by exists L.
Qed.

End PerToken.

(** X18. A decode call ([prefill] false, no selected positions) whose
    segment adapters all have a rank within [BGMV_MAX_RANK] raises exactly
    when some token of the batch belongs to an adapter that has LoRA weights
    for the layer, occurs in no segment, and has the rank of an adapter that
    does occur in a segment: the lookup of that token in [idx_locs] fails.
    In every other case the call returns. *)
Theorem X18_per_token_raises `{Torch} `{Punica}
    (adapter_weights : list (Z * AdapterWeights)) (meta : AdapterBatchMetadata)
    (name : string) (h : Heap) :
  let aw0 := lora_adapters adapter_weights in
  (∀ idx w, idx ∈ segment_indices meta → aw0 !! idx = Some w →
     (lora_a_r w ≤ BGMV_MAX_RANK)%nat) →
  (BatchLoraWeights_load adapter_weights meta name false None h).1 = None ↔
  ∃ idx w idx' w',
    idx ∈ adapter_indices meta ∧ aw0 !! idx = Some w ∧ (idx ∉ segment_indices meta) ∧
    idx' ∈ segment_indices meta ∧ aw0 !! idx' = Some w' ∧ lora_a_r w' = lora_a_r w.
Proof.
  cbv zeta. intros Hsmall. rewrite load_raises. split.
  - intros (L & Htab & Hnone).
    destruct (load_tables_inr _ _ _ _ _ Htab)
      as (_ & Hev & _ & _ & Hranks & Hne & Hmax & Hsgmv & Hla & Hlb & _).
    apply evolved_store_sim in Hev.
    assert (Hsg : l_use_sgmv L = false).
    { rewrite Hsgmv. simpl. apply bool_decide_eq_false_2.
      assert (Hin : l_max_rank L ∈ l_segment_ranks L).
      { rewrite Hmax. by apply max_list_elem_of. }
      rewrite Hranks in Hin. apply segment_ranks_of_elem in Hin as (i & idx & w & Hi & Hw & Hr).
      apply list_elem_of_lookup_2 in Hi. specialize (Hsmall idx w Hi Hw). lia. }
    unfold rank_data_of in Hnone. apply fmap_None, mapM_None in Hnone
      as ([rk l] & Hin%elem_of_map_to_list & Hrs). simpl in Hrs. apply fmap_None in Hrs.
    pose proof Hin as [-> Hlne]%rank_indices_of_lookup.
    apply rank_segments_of_bgmv_None in Hrs as (locs & Hlocs & Hbi); [|done..|].
    2:{ intros p (i & idx & w & -> & Hi & _)%group_positions_elem.
        apply lookup_lt_Some in Hi. lia. }
    apply mapM_None in Hbi as (idx & Hidx & Hf). cbv beta in Hf.
    pose proof (store_sim_rank _ _ idx Hev) as Hrank.
    destruct (l_adapter_weights L !! idx) as [w1|] eqn:Hw1; [|done].
    destruct (lora_adapters adapter_weights !! idx) as [w|] eqn:Hw; [|done].
    simpl in Hrank. injection Hrank as Hrank.
    destruct (bool_decide (lora_a_r w1 = rk)) eqn:Hrk; [|done].
    apply bool_decide_eq_true in Hrk. apply fmap_None in Hf.
    rewrite (idx_locs_loop_lookup _ _ _ _ _ idx Hlocs), lookup_empty in Hf.
    destruct (group_positions (lora_adapters adapter_weights) (segment_indices meta) 0 rk)
      as [|p0 rest] eqn:Hgp; [done|].
    assert (Hp0 : p0 ∈ group_positions (lora_adapters adapter_weights)
                    (segment_indices meta) 0 rk) by (rewrite Hgp; left).
    apply group_positions_elem in Hp0 as (i & idx' & w' & -> & Hi & Hw' & Hr').
    exists idx, w, idx', w'. split_and!; [done|done| |by eapply list_elem_of_lookup_2|done|].
    + intros [p Hp]%list_elem_of_lookup.
      assert (Hpin : p ∈ group_positions (lora_adapters adapter_weights)
                       (segment_indices meta) 0 rk).
      { apply group_positions_elem. exists p, idx, w. split_and!; [lia|done|done|congruence]. }
      rewrite Hgp in Hpin. apply list_elem_of_lookup in Hpin as [j Hj].
      by destruct (first_loc_None _ _ _ _ Hf j p Hj).
    + congruence.
  - intros (idx & w & idx' & w' & Hidx & Hw & Hnot & Hidx' & Hw' & Hr).
    destruct (load_tables adapter_weights meta false h) as [st|L] eqn:Htab.
    { exfalso. apply load_tables_inl in Htab as [Hnil|Hnil].
      - unfold lora_adapters in Hw. by rewrite Hnil in Hw.
      - rewrite segment_ranks_of_nil in Hnil. specialize (Hnil idx' Hidx'). congruence. }
    exists L. split; [done|].
    destruct (load_tables_inr _ _ _ _ _ Htab)
      as (_ & Hev & _ & _ & Hranks & Hne & Hmax & Hsgmv & _).
    apply evolved_store_sim in Hev.
    assert (Hsg : l_use_sgmv L = false).
    { rewrite Hsgmv. simpl. apply bool_decide_eq_false_2.
      assert (Hin : l_max_rank L ∈ l_segment_ranks L).
      { rewrite Hmax. by apply max_list_elem_of. }
      rewrite Hranks in Hin.
      apply segment_ranks_of_elem in Hin as (i & idx1 & w1 & Hi & Hw1 & Hr1).
      apply list_elem_of_lookup_2 in Hi. specialize (Hsmall idx1 w1 Hi Hw1). lia. }
    set (rk := lora_a_r w) in *.
    set (l := group_positions (lora_adapters adapter_weights) (segment_indices meta) 0 rk).
    assert (Hl : rank_indices_of (lora_adapters adapter_weights) (segment_indices meta) !! rk
                   = Some l).
    { apply rank_indices_of_lookup. split; [done|].
      apply list_elem_of_lookup in Hidx' as [p Hp].
      assert (Hpin : p ∈ l).
      { apply group_positions_elem. exists p, idx', w'. split_and!; [lia|done..]. }
      intros Hnil. rewrite Hnil in Hpin. by apply elem_of_nil in Hpin. }
    destruct (rank_data_of L meta None _) as [rd|] eqn:Hrd; [|done]. exfalso.
    destruct (rank_data_of_Some_all _ _ _ _ _ Hrd rk l Hl) as [rs Hrs].
    destruct (rank_segments_of_Some _ _ _ _ _ _ Hrs) as (_ & _ & _ & Hrest).
    rewrite Hsg in Hrest. destruct Hrest as (_ & _ & _ & _ & locs & bi & Hlocs & Hbi & _).
    apply list_elem_of_lookup in Hidx as [t Ht].
    destruct (mapM_lookup _ _ _ Hbi) as [_ Hlook].
    destruct (Hlook t idx Ht) as [Hf [v Hv]]. rewrite Hv in Hf. cbv beta in Hf.
    pose proof (store_sim_rank _ _ idx Hev) as Hrank. rewrite Hw in Hrank.
    destruct (l_adapter_weights L !! idx) as [w1|] eqn:Hw1; [|done].
    simpl in Hrank. injection Hrank as Hrank.
    rewrite bool_decide_eq_true_2 in Hf by (unfold rk; congruence).
    rewrite (idx_locs_loop_lookup _ _ _ _ _ idx Hlocs), lookup_empty in Hf.
    rewrite first_loc_absent in Hf; [done|].
    intros j p Hj Hp. apply Hnot. by eapply list_elem_of_lookup_2.
Qed.

Lemma X18_per_token_raises_witness :
  (@BatchLoraWeights_load bump_torch sample_punica sample_adapter_weights
     sample_stray_meta "q_proj" false None 0%nat).1 = None ∧
  ((@BatchLoraWeights_load bump_torch sample_punica sample_adapter_weights
      sample_stray_meta "q_proj" false None 0%nat).1 = None ↔
   ∃ idx w idx' w',
     idx ∈ adapter_indices sample_stray_meta ∧
     lora_adapters sample_adapter_weights !! idx = Some w ∧
     (idx ∉ segment_indices sample_stray_meta) ∧
     idx' ∈ segment_indices sample_stray_meta ∧
     lora_adapters sample_adapter_weights !! idx' = Some w' ∧
     lora_a_r w' = lora_a_r w).
Proof.
  split.
  - vm_compute. reflexivity.
  - apply (@X18_per_token_raises bump_torch sample_punica sample_adapter_weights
             sample_stray_meta "q_proj" 0%nat).
    intros idx w Hin Hw.
    assert (Hcases : idx = 1) by (apply list_elem_of_singleton in Hin; exact Hin).
    subst idx. vm_compute in Hw. injection Hw as <-. vm_compute. lia.
Defined.

(** X19. On the per-token path every rank group has one index per token of
    the batch, and each index is -1 or a location inside the group's pointer
    slices; a token has a location in at most one group. *)
Theorem X19_indices_in_bounds `{Torch} `{Punica}
    (adapter_weights : list (Z * AdapterWeights)) (meta : AdapterBatchMetadata)
    (name : string) (prefill : bool) (head_indices : option (list Z)) (h : Heap)
    (b : BatchLoraWeights) (st : gmap Z LoraWeights * Heap) :
  BatchLoraWeights_load adapter_weights meta name prefill head_indices h
    = (Some (Some b), st) →
  use_sgmv b = false →
  (∀ rk rs, rank_data b !! rk = Some rs →
     ∃ bi, indices rs = Some bi ∧ length bi = length (adapter_indices meta) ∧
       ∀ t v, bi !! t = Some v →
         v = -1 ∨ (0 ≤ v < Z.of_nat (length (lora_a_ptr rs)) ∧
                   v < Z.of_nat (length (lora_b_ptr rs)))) ∧
  (∀ rk rk' rs rs' bi bi' t v v',
     rank_data b !! rk = Some rs → rank_data b !! rk' = Some rs' →
     indices rs = Some bi → indices rs' = Some bi' →
     bi !! t = Some v → bi' !! t = Some v' → 0 ≤ v → 0 ≤ v' → rk = rk').
Proof.
  intros Hload Hsg.
  destruct (load_Some _ _ _ _ _ _ _ _ Hload)
    as (L & hs & Htab & _ & _ & Hrd & _ & Hsgmv & _).
  rewrite Hsgmv in Hsg.
  pose proof (rank_data_of_lookup _ _ _ _ _ Hrd) as Hlook.
  assert (Hgroup : ∀ rk rs, rank_data b !! rk = Some rs →
            ∃ l locs bi, length (lora_a_ptr rs) = length l ∧
              length (lora_b_ptr rs) = length l ∧
              idx_locs_loop (segment_indices meta) l 0 ∅ = Some locs ∧
              batch_indices_of (l_adapter_weights L) rk locs (adapter_indices meta)
                = Some bi ∧
              indices rs = Some bi).
  { intros rk rs Hrs. apply Hlook in Hrs as (l & Hl & Hrs).
    destruct (rank_segments_of_Some _ _ _ _ _ _ Hrs) as (_ & Hpa & Hpb & Hrest).
    rewrite Hsg in Hrest. destruct Hrest as (_ & _ & _ & _ & locs & bi & Hlocs & Hbi & Hi).
    destruct (mapM_lookup _ _ _ Hpa) as [Hla _]. destruct (mapM_lookup _ _ _ Hpb) as [Hlb _].
    by exists l, locs, bi. }
  split.
  - intros rk rs Hrs.
    destruct (Hgroup rk rs Hrs) as (l & locs & bi & Hla & Hlb & Hlocs & Hbi & Hi).
    exists bi. destruct (mapM_lookup _ _ _ Hbi) as [Hlen Hval]. split_and!; [done..|].
    intros t v Hv.
    destruct (lookup_lt_is_Some_2 (adapter_indices meta) t) as [idx Hidx].
    { rewrite <- Hlen. by eapply lookup_lt_Some. }
    destruct (Hval t idx Hidx) as [Hf _]. rewrite Hv in Hf. cbv beta in Hf.
    destruct (l_adapter_weights L !! idx) as [w|]; [|left; congruence].
    case_bool_decide; [|left; congruence]. right.
    rewrite (idx_locs_loop_lookup _ _ _ _ _ idx Hlocs), lookup_empty in Hf.
    destruct (first_loc (segment_indices meta) l 0 idx) as [n|] eqn:Hn; [|done].
    apply first_loc_Some in Hn as (j & p & -> & Hj & _). apply lookup_lt_Some in Hj.
    simpl in Hf. injection Hf as <-. lia.
  - intros rk rk' rs rs' bi bi' t v v' Hrs Hrs' Hi Hi' Hv Hv' Hpos Hpos'.
    destruct (Hgroup rk rs Hrs) as (l & locs & bi0 & _ & _ & _ & Hbi & Hi0).
    destruct (Hgroup rk' rs' Hrs') as (l' & locs' & bi0' & _ & _ & _ & Hbi' & Hi0').
    assert (bi0 = bi) as -> by congruence. assert (bi0' = bi') as -> by congruence.
    destruct (mapM_lookup _ _ _ Hbi) as [Hlen Hval].
    destruct (mapM_lookup _ _ _ Hbi') as [_ Hval'].
    destruct (lookup_lt_is_Some_2 (adapter_indices meta) t) as [idx Hidx].
    { rewrite <- Hlen. by eapply lookup_lt_Some. }
    destruct (Hval t idx Hidx) as [Hf _]. destruct (Hval' t idx Hidx) as [Hf' _].
    rewrite Hv in Hf. rewrite Hv' in Hf'. cbv beta in Hf, Hf'.
    destruct (l_adapter_weights L !! idx) as [w|]; [|simplify_eq; lia].
    repeat case_bool_decide; simplify_eq; lia || done.
Qed.

Lemma X19_indices_in_bounds_witness :
  ∃ b st,
    @BatchLoraWeights_load bump_torch sample_punica sample_adapter_weights
      sample_decode_meta "q_proj" false None 0%nat = (Some (Some b), st) ∧
    (∀ rk rs, rank_data b !! rk = Some rs →
       ∃ bi, indices rs = Some bi ∧ length bi = length (adapter_indices sample_decode_meta) ∧
         ∀ t v, bi !! t = Some v →
           v = -1 ∨ (0 ≤ v < Z.of_nat (length (lora_a_ptr rs)) ∧
                     v < Z.of_nat (length (lora_b_ptr rs)))) ∧
    (∀ rk rk' rs rs' bi bi' t v v',
       rank_data b !! rk = Some rs → rank_data b !! rk' = Some rs' →
       indices rs = Some bi → indices rs' = Some bi' →
       bi !! t = Some v → bi' !! t = Some v' → 0 ≤ v → 0 ≤ v' → rk = rk').
Proof.
  eexists _, _. split.
  - vm_compute. reflexivity.
  - eapply (@X19_indices_in_bounds bump_torch sample_punica sample_adapter_weights
              sample_decode_meta "q_proj" false None 0%nat).
    + vm_compute. reflexivity.
    + vm_compute. reflexivity.
Defined.

(** ** Calls that transpose nothing *)

Section Untouched.
Context `{Torch}.
Variable property : LoraWeights → Heap → Tensor3 * LoraWeights * Heap.
Variables target is_a : bool.
Hypothesis property_spec : accessor_spec property target is_a.

Lemma access_in_state idx (st : gmap Z LoraWeights * Heap) w :
  st.1 !! idx = Some w → _is_transposed w = target →
  access property idx st = Some (selected is_a w, st).
Proof.
  intros Hw Ht. unfold access. rewrite Hw. simpl.
  pose proof (property_spec w st.2) as Hp.
  destruct (property w st.2) as [[t w'] h'].
  destruct Hp as (-> & _ & _ & _ & _ & Hid). destruct (Hid Ht) as [-> ->].
  rewrite insert_id by done. by destruct st.
Qed.

Lemma tensor_dict_in_state segs acc (st : gmap Z LoraWeights * Heap) :
  (∀ idx w, idx ∈ segs → st.1 !! idx = Some w → _is_transposed w = target) →
  (tensor_dict property segs acc st).2 = st.
Proof.
  revert acc. induction segs as [|idx0 rest IH]; intros acc Hall; simpl; [done|].
  destruct (st.1 !! idx0) as [w|] eqn:Hw.
  - rewrite (access_in_state idx0 st w Hw) by (eapply Hall; [by left|done]).
    apply IH. intros idx w' Hin. apply Hall. by right.
  - rewrite (proj2 (access_None property idx0 st) Hw).
    apply IH. intros idx w' Hin. apply Hall. by right.
Qed.

Lemma ptr_table_in_state segs (st : gmap Z LoraWeights * Heap) :
  (∀ idx w, idx ∈ segs → st.1 !! idx = Some w → _is_transposed w = target) →
  (ptr_table property segs st).2 = st.
Proof.
  induction segs as [|idx0 rest IH]; intros Hall; simpl; [done|].
  assert (Hrest : (ptr_table property rest st).2 = st).
  { apply IH. intros idx w' Hin. apply Hall. by right. }
  destruct (st.1 !! idx0) as [w|] eqn:Hw.
  - rewrite (access_in_state idx0 st w Hw) by (eapply Hall; [by left|done]).
    by destruct (ptr_table property rest st).
  - rewrite (proj2 (access_None property idx0 st) Hw).
    by destruct (ptr_table property rest st).
Qed.

End Untouched.

(** A call that only reads weights in the orientation they are in changes
    no adapter object and creates no block. *)
Lemma load_in_state `{Torch} `{Punica}
    (adapter_weights : list (Z * AdapterWeights)) (meta : AdapterBatchMetadata)
    (name : string) (head_indices : option (list Z)) (h : Heap) :
  (∀ idx w, lora_adapters adapter_weights !! idx = Some w → _is_transposed w = false) →
  (BatchLoraWeights_load adapter_weights meta name true head_indices h).2
    = (lora_adapters adapter_weights, h).
Proof.
  intros Hall.
  assert (Htab : match load_tables adapter_weights meta true h with
                 | inl st => st
                 | inr L => (l_adapter_weights L, l_heap L)
                 end = (lora_adapters adapter_weights, h)).
  { unfold load_tables.
    destruct (lora_adapter_items adapter_weights) as [|[first_key w0] items] eqn:Hitems.
    { unfold lora_adapters. by rewrite Hitems. }
    set (st0 := (lora_adapters adapter_weights, h)).
    assert (Hst0 : ∀ (segs : list Z) idx w, idx ∈ segs → st0.1 !! idx = Some w →
              _is_transposed w = false).
    { intros segs idx w _ Hw. apply (Hall idx). exact Hw. }
    assert (Hfirst : match access weights_a first_key st0 with
                     | Some (_, st') => st'
                     | None => st0
                     end = st0).
    { destruct (st0.1 !! first_key) as [w|] eqn:Hw.
      - rewrite (access_in_state _ _ _ weights_a_spec first_key st0 w Hw); [done|].
        apply (Hall first_key). exact Hw.
      - by rewrite (proj2 (access_None weights_a first_key st0) Hw). }
    rewrite Hfirst.
    pose proof (tensor_dict_in_state _ _ _ weights_a_spec (segment_indices meta) ∅ st0
                  (Hst0 _)) as Ha.
    destruct (tensor_dict weights_a (segment_indices meta) ∅ st0) as [la st2].
    simpl in Ha. subst st2.
    pose proof (tensor_dict_in_state _ _ _ weights_b_spec (segment_indices meta) ∅ st0
                  (Hst0 _)) as Hb.
    destruct (tensor_dict weights_b (segment_indices meta) ∅ st0) as [lb st3].
    simpl in Hb. subst st3.
    destruct (segment_ranks_of st0.1 (segment_indices meta)) as [|r0 rs]; [done|].
    simpl.
    pose proof (ptr_table_in_state _ _ _ weights_a_spec (segment_indices meta) st0
                  (Hst0 _)) as Hpa.
    destruct (ptr_table weights_a (segment_indices meta) st0) as [pa st4].
    simpl in Hpa. subst st4.
    pose proof (ptr_table_in_state _ _ _ weights_b_spec (segment_indices meta) st0
                  (Hst0 _)) as Hpb.
    destruct (ptr_table weights_b (segment_indices meta) st0) as [pb st5].
    simpl in Hpb. by subst st5. }
  unfold BatchLoraWeights_load.
  by destruct (load_tables adapter_weights meta true h).
Qed.

(** X20. A prefill call on adapters that are all in load-time orientation,
    as [LoraWeights.load] creates them, transposes nothing: whatever its
    outcome, every adapter object is exactly as before the call, with the
    same blocks at the same addresses and the same flags. *)
Theorem X20_prefill_call_transposes_nothing `{Torch} `{Punica}
    (adapter_weights : list (Z * AdapterWeights)) (meta : AdapterBatchMetadata)
    (name : string) (head_indices : option (list Z)) (h : Heap) :
  (∀ idx w, lora_adapters adapter_weights !! idx = Some w → _is_transposed w = false) →
  (BatchLoraWeights_load adapter_weights meta name true head_indices h).2.1
    = lora_adapters adapter_weights.
Proof.
  intros Hall. by rewrite (load_in_state adapter_weights meta name head_indices h Hall).
Qed.

Lemma X20_prefill_call_transposes_nothing_witness :
  (@BatchLoraWeights_load bump_torch sample_punica sample_adapter_weights
     sample_prefill_meta "q_proj" true None 0%nat).2.1
    = lora_adapters sample_adapter_weights.
Proof.
  apply (@X20_prefill_call_transposes_nothing bump_torch sample_punica
           sample_adapter_weights sample_prefill_meta "q_proj" None 0%nat).
  intros idx w Hw. apply elem_of_list_to_map_2, lora_adapter_items_elem in Hw.
  unfold sample_adapter_weights in Hw. rewrite !elem_of_cons, !elem_of_nil in Hw.
  destruct Hw as [Hw|Hw]; repeat (destruct Hw as [Hw|Hw]); try done;
    by simplify_eq.
Defined.

(** ** Vectorisation *)

(** X21. For a returned aggregation and a process group of positive size,
    [can_vectorize] depends only on the largest rank among the adapters of
    the segments and on the layer name: it holds exactly when that rank,
    divided by the size of the group, is at most [MAX_RANK_CUSTOM] and the
    layer is not [LM_HEAD]. With a group of size zero the division
    raises. *)
Theorem X21_can_vectorize `{Torch} `{Punica}
    (adapter_weights : list (Z * AdapterWeights)) (meta : AdapterBatchMetadata)
    (name : string) (prefill : bool) (head_indices : option (list Z)) (h : Heap)
    (b : BatchLoraWeights) (st : gmap Z LoraWeights * Heap)
    (MAX_RANK_CUSTOM : Z) (LM_HEAD : string) (pg_size : Z) :
  BatchLoraWeights_load adapter_weights meta name prefill head_indices h
    = (Some (Some b), st) →
  let max_rank :=
    max_list (segment_ranks_of (lora_adapters adapter_weights) (segment_indices meta)) in
  (pg_size = 0 → can_vectorize MAX_RANK_CUSTOM LM_HEAD b pg_size = None) ∧
  (0 < pg_size →
     can_vectorize MAX_RANK_CUSTOM LM_HEAD b pg_size =
       Some (bool_decide (Z.of_nat max_rank `div` pg_size ≤ MAX_RANK_CUSTOM)
             && negb (bool_decide (name = LM_HEAD)))).
Proof.
  intros Hload. cbv zeta.
  destruct (load_Some _ _ _ _ _ _ _ _ Hload)
    as (L & hs & Htab & _ & _ & Hrd & _ & _ & _ & _ & Hname & _).
  destruct (load_tables_inr _ _ _ _ _ Htab)
    as (_ & _ & _ & _ & Hranks & Hne & Hmax & _).
  pose proof (rank_data_of_lookup _ _ _ _ _ Hrd) as Hlook.
  pose proof (rank_data_keys _ _ _ _ _ _ _ _ Hload) as Hkeys.
  rewrite Hranks in Hne.
  set (ranks := segment_ranks_of (lora_adapters adapter_weights) (segment_indices meta))
    in *.
  assert (Hgroup : ∀ rk, is_Some (rank_data b !! rk) ↔ rk ∈ ranks).
  { intros rk. rewrite Hkeys. unfold ranks. rewrite segment_ranks_of_elem. split.
    - intros [l [-> Hlne]%rank_indices_of_lookup].
      destruct (group_positions _ _ 0 rk) as [|p0 rest] eqn:Hgp; [done|].
      assert (Hp0 : p0 ∈ group_positions (lora_adapters adapter_weights)
                      (segment_indices meta) 0 rk) by (rewrite Hgp; left).
      apply group_positions_elem in Hp0 as (i & idx & w & -> & Hi & Hw & Hr).
      by exists i, idx, w.
    - intros (i & idx & w & Hi & Hw & Hr).
      exists (group_positions (lora_adapters adapter_weights) (segment_indices meta) 0 rk).
      apply rank_indices_of_lookup. split; [done|].
      assert (Hin : i ∈ group_positions (lora_adapters adapter_weights)
                      (segment_indices meta) 0 rk).
      { apply group_positions_elem. exists i, idx, w. split_and!; [lia|done..]. }
      intros Hnil. rewrite Hnil in Hin. by apply elem_of_nil in Hin. }
  assert (Hrank : ∀ rk rs, rank_data b !! rk = Some rs → rank rs = rk).
  { intros rk rs Hrs. apply Hlook in Hrs as (l & _ & Hrs).
    by destruct (rank_segments_of_Some _ _ _ _ _ _ Hrs). }
  assert (Hnonempty : rank_data b ≠ ∅).
  { intros Hempty. destruct (proj2 (Hgroup (max_list ranks))) as [rs Hrs].
    - by apply max_list_elem_of.
    - rewrite Hempty in Hrs. by rewrite lookup_empty in Hrs. }
  unfold can_vectorize. split.
  - intros ->. rewrite bool_decide_eq_true_2 by done.
    by rewrite (bool_decide_eq_false_2 (rank_data b = ∅)).
  - intros Hpos. rewrite (bool_decide_eq_false_2 (pg_size = 0)) by lia. simpl.
    rewrite Hname. f_equal. f_equal. apply bool_decide_ext. split.
    + intros Hall. destruct (proj2 (Hgroup (max_list ranks))) as [rs Hrs].
      { by apply max_list_elem_of. }
      specialize (Hall _ _ Hrs). simpl in Hall. by rewrite (Hrank _ _ Hrs) in Hall.
    + intros Hle rk rs Hrs. simpl. rewrite (Hrank _ _ Hrs).
      assert (Hin : rk ∈ ranks) by (apply Hgroup; by exists rs).
      apply max_list_elem_of_le in Hin.
      etrans; [|exact Hle]. apply Z.div_le_mono; lia.
Qed.

Lemma X21_can_vectorize_witness :
  ∃ b st,
    @BatchLoraWeights_load bump_torch sample_punica sample_adapter_weights
      sample_prefill_meta "q_proj" true None 0%nat = (Some (Some b), st) ∧
    let max_rank :=
      max_list (segment_ranks_of (lora_adapters sample_adapter_weights)
                  (segment_indices sample_prefill_meta)) in
    (2 = 0 → can_vectorize 128 "lm_head" b 2 = None) ∧
    (0 < 2 →
       can_vectorize 128 "lm_head" b 2 =
         Some (bool_decide (Z.of_nat max_rank `div` 2 ≤ 128)
               && negb (bool_decide ("q_proj" = "lm_head")))).
Proof.
  eexists _, _. split.
  - vm_compute. reflexivity.
  - eapply (@X21_can_vectorize bump_torch sample_punica sample_adapter_weights
              sample_prefill_meta "q_proj" true None 0%nat _ _ 128 "lm_head" 2).
    vm_compute. reflexivity.
Defined.

(** ** The loop over the selected positions *)

Lemma prefill_head_loop_tiles (segs pos : list Z) (j : nat) (starts ends : list Z)
    (m : Z) (starts' ends' : list Z) :
  prefill_head_loop segs pos j starts ends = Some (starts', ends') →
  length starts = j → length ends = j → (0 < j)%nat →
  starts !! 0%nat = Some 0 →
  (∀ k, (S k < j)%nat → ends !! k = starts !! S k) →
  last ends = Some m →
  (∀ k s e, starts !! k = Some s → ends !! k = Some e → 0 ≤ s ≤ e) →
  (∀ k s e, (0 < k)%nat → starts !! k = Some s → ends !! k = Some e → s < e) →
  length starts' = length ends' ∧
  (j ≤ length starts' ≤ j + length pos)%nat ∧
  (pos ≠ [] → (length starts' ≤ length segs)%nat) ∧
  starts' !! 0%nat = Some 0 ∧
  (∀ k, (S k < length starts')%nat → ends' !! k = starts' !! S k) ∧
  last ends' = Some (m + Z.of_nat (length pos)) ∧
  (∀ k s e, starts' !! k = Some s → ends' !! k = Some e → 0 ≤ s ≤ e) ∧
  (∀ k s e, (0 < k)%nat → starts' !! k = Some s → ends' !! k = Some e → s < e).
Proof.
  revert j starts ends m.
  induction pos as [|p rest IH]; intros j starts ends m Hloop Hls Hle Hj H0 Hchain Hlast
    Hbound Hstrict; simpl in Hloop.
  - simplify_eq. rewrite Z.add_0_r. split_and!; try done; try lia.
  - destruct (segs !! j) as [bd|] eqn:Hbd; simpl in Hloop; [|done].
    rewrite Hlast in Hloop. simpl in Hloop.
    pose proof (lookup_lt_Some _ _ _ Hbd) as Hjlt.
    rewrite last_lookup in Hlast.
    case_bool_decide.
    + eapply (IH j _ _ (m + 1)) in Hloop; try done.
      * destruct Hloop as (H1 & H2 & H3 & H4 & H5 & H6 & H7 & H8).
        split_and!; try done; [lia|simpl; lia|intros _|].
        -- destruct rest; [|by apply H3]. simpl in H2. lia.
        -- rewrite H6. f_equal. simpl length. lia.
      * by rewrite length_insert.
      * intros k Hk. rewrite list_lookup_insert_ne by lia. by apply Hchain.
      * rewrite last_lookup, length_insert. apply list_lookup_insert_eq. lia.
      * intros k s e Hs He. destruct (decide (k = pred (length ends))) as [->|Hne].
        -- rewrite list_lookup_insert_eq in He by lia. simplify_eq.
           destruct (Hbound _ _ _ Hs Hlast). lia.
        -- rewrite list_lookup_insert_ne in He by done. by eapply Hbound.
      * intros k s e Hk Hs He. destruct (decide (k = pred (length ends))) as [->|Hne].
        -- rewrite list_lookup_insert_eq in He by lia. simplify_eq.
           destruct (Hbound _ _ _ Hs Hlast). lia.
        -- rewrite list_lookup_insert_ne in He by done. by eapply Hstrict.
    + assert (Hm : 0 ≤ m).
      { destruct (lookup_lt_is_Some_2 starts (pred (length ends))) as [s Hs]; [lia|].
        destruct (Hbound _ _ _ Hs Hlast). lia. }
      eapply (IH (S j) _ _ (m + 1)) in Hloop; try done.
      * destruct Hloop as (H1 & H2 & H3 & H4 & H5 & H6 & H7 & H8).
        split_and!; try done; [lia|simpl; lia|intros _|].
        -- destruct rest; [|by apply H3]. simpl in H2. lia.
        -- rewrite H6. f_equal. simpl length. lia.
      * rewrite length_app. simpl. lia.
      * rewrite length_app. simpl. lia.
      * lia.
      * rewrite lookup_app_l by lia. done.
      * intros k Hk. destruct (decide (S k = j)) as [Heq|Hne].
        -- rewrite lookup_app_l by lia. rewrite lookup_app_r by lia.
           replace (S k - length starts)%nat with 0%nat by lia. simpl.
           rewrite <- Hlast. f_equal. lia.
        -- rewrite !lookup_app_l by lia. apply Hchain. lia.
      * rewrite last_snoc. done.
      * intros k s e Hs He. destruct (decide (k < j)%nat) as [Hlt|Hge].
        -- rewrite lookup_app_l in Hs by lia. rewrite lookup_app_l in He by lia.
           by eapply Hbound.
        -- rewrite lookup_app_r in Hs by lia. rewrite lookup_app_r in He by lia.
           apply list_lookup_singleton_Some in Hs as [_ <-].
           apply list_lookup_singleton_Some in He as [_ <-]. lia.
      * intros k s e Hk Hs He. destruct (decide (k < j)%nat) as [Hlt|Hge].
        -- rewrite lookup_app_l in Hs by lia. rewrite lookup_app_l in He by lia.
           by eapply Hstrict.
        -- rewrite lookup_app_r in Hs by lia. rewrite lookup_app_r in He by lia.
           apply list_lookup_singleton_Some in Hs as [_ <-].
           apply list_lookup_singleton_Some in He as [_ <-]. lia.
Qed.

(** X22. Whenever the loop over the selected positions returns, the filtered
    segments tile the selected positions: the two lists have the same
    length, the first segment starts at 0, each segment starts where the
    previous one ends, the last one ends at the number of selected
    positions, and every segment but the first is non-empty. A position at
    or above the current boundary opens exactly one new segment, so there
    are at most as many filtered segments as boundaries in the metadata.
    With fewer than two boundaries and a selected position the loop
    raises. *)
Theorem X22_filtered_segments_tile (adapter_segments prefill_head_indices : list Z) :
  (∀ starts ends,
     prefill_head_segments adapter_segments prefill_head_indices = Some (starts, ends) →
     length starts = length ends ∧
     (1 ≤ length starts ≤ 1 + length prefill_head_indices)%nat ∧
     (prefill_head_indices ≠ [] → (length starts ≤ length adapter_segments)%nat) ∧
     starts !! 0%nat = Some 0 ∧
     (∀ k, (S k < length starts)%nat → ends !! k = starts !! S k) ∧
     last ends = Some (Z.of_nat (length prefill_head_indices)) ∧
     (∀ k s e, starts !! k = Some s → ends !! k = Some e → 0 ≤ s ≤ e) ∧
     (∀ k s e, (0 < k)%nat → starts !! k = Some s → ends !! k = Some e → s < e)) ∧
  ((length adapter_segments ≤ 1)%nat → prefill_head_indices ≠ [] →
     prefill_head_segments adapter_segments prefill_head_indices = None).
Proof.
  split.
  - intros starts ends Hloop. unfold prefill_head_segments in Hloop.
    eapply (prefill_head_loop_tiles _ _ 1 [0] [0] 0) in Hloop; try done.
    + lia.
    + intros k Hk. lia.
    + intros [|k] s e Hs He; simplify_eq/=. lia.
    + intros [|k] s e Hk Hs He; simplify_eq/=. lia.
  - intros Hlen Hne. unfold prefill_head_segments.
    destruct prefill_head_indices as [|p rest]; [done|]. simpl.
    rewrite (proj2 (lookup_ge_None adapter_segments 1)) by lia. done.
Qed.

(** ** When the variable-length path raises *)

Section PrefillRaises.
Context `{Torch} `{Punica}.

Lemma rank_segments_of_sgmv_None L meta rk l :
  l_use_sgmv L = true →
  length (l_lora_a_ptr L) = length (segment_indices meta) →
  length (l_lora_b_ptr L) = length (segment_indices meta) →
  (∀ p, p ∈ l → (p < length (segment_indices meta))%nat) →
  rank_segments_of L meta None rk l = None →
  ∃ p, p ∈ l ∧ (length (adapter_segments meta) ≤ p + 1)%nat.
Proof.
  intros Hsg Hla Hlb Hpos. unfold rank_segments_of. rewrite Hsg.
  destruct (mapM (λ i, l_lora_a_ptr L !! i) l) as [pa|] eqn:Hpa; simpl.
  2:{ apply mapM_None in Hpa as (p & Hp & Hnone).
      apply lookup_ge_None in Hnone. specialize (Hpos p Hp). lia. }
  destruct (mapM (λ i, l_lora_b_ptr L !! i) l) as [pb|] eqn:Hpb; simpl.
  2:{ apply mapM_None in Hpb as (p & Hp & Hnone).
      apply lookup_ge_None in Hnone. specialize (Hpos p Hp). lia. }
  destruct (get_tmp_tensors (length pa) rk) as [ts te].
  destruct (mapM (λ i, adapter_segments meta !! i) l) as [ss0|] eqn:Hss0; simpl.
  2:{ apply mapM_None in Hss0 as (p & Hp & Hnone).
      apply lookup_ge_None in Hnone. intros _. exists p. split; [done|lia]. }
  destruct (mapM (λ i, adapter_segments meta !! (i + 1)%nat) l) as [se0|] eqn:Hse0; simpl.
  2:{ apply mapM_None in Hse0 as (p & Hp & Hnone).
      apply lookup_ge_None in Hnone. intros _. exists p. split; [done|lia]. }
  done.
Qed.

End PrefillRaises.

(** X23. A prefill call without selected positions raises exactly when the
    metadata has no end boundary for some segment whose adapter has LoRA
    weights: a segment at position [p] needs [adapter_segments[p + 1]]. In
    every other case the call returns. *)
Theorem X23_prefill_raises `{Torch} `{Punica}
    (adapter_weights : list (Z * AdapterWeights)) (meta : AdapterBatchMetadata)
    (name : string) (h : Heap) :
  (BatchLoraWeights_load adapter_weights meta name true None h).1 = None ↔
  ∃ p idx,
    segment_indices meta !! p = Some idx ∧
    is_Some (lora_adapters adapter_weights !! idx) ∧
    (length (adapter_segments meta) ≤ p + 1)%nat.
Proof.
  rewrite load_raises. split.
  - intros (L & Htab & Hnone).
    destruct (load_tables_inr _ _ _ _ _ Htab)
      as (_ & _ & _ & _ & _ & _ & _ & Hsgmv & Hla & Hlb & _).
    simpl in Hsgmv.
    unfold rank_data_of in Hnone. apply fmap_None, mapM_None in Hnone
      as ([rk l] & Hin%elem_of_map_to_list & Hrs). simpl in Hrs. apply fmap_None in Hrs.
    apply rank_indices_of_lookup in Hin as [-> _].
    apply rank_segments_of_sgmv_None in Hrs as (p & Hp & Hlen); [|done..|].
    2:{ intros p (i & idx & w & -> & Hi & _)%group_positions_elem.
        apply lookup_lt_Some in Hi. lia. }
    apply group_positions_elem in Hp as (i & idx & w & -> & Hi & Hw & _).
    exists i, idx. rewrite Hw. split_and!; [done|done|lia].
  - intros (p & idx & Hp & [w Hw] & Hlen).
    destruct (load_tables adapter_weights meta true h) as [st|L] eqn:Htab.
    { exfalso. apply load_tables_inl in Htab as [Hnil|Hnil].
      - unfold lora_adapters in Hw. by rewrite Hnil in Hw.
      - rewrite segment_ranks_of_nil in Hnil.
        rewrite (Hnil idx) in Hw; [done|]. by eapply list_elem_of_lookup_2. }
    exists L. split; [done|].
    destruct (load_tables_inr _ _ _ _ _ Htab)
      as (_ & _ & _ & _ & _ & _ & _ & Hsgmv & _).
    simpl in Hsgmv.
    set (rk := lora_a_r w).
    set (l := group_positions (lora_adapters adapter_weights) (segment_indices meta) 0 rk).
    assert (Hpin : p ∈ l).
    { apply group_positions_elem. exists p, idx, w. split_and!; [lia|done..]. }
    assert (Hl : rank_indices_of (lora_adapters adapter_weights) (segment_indices meta) !! rk
                   = Some l).
    { apply rank_indices_of_lookup. split; [done|].
      intros Hnil. rewrite Hnil in Hpin. by apply elem_of_nil in Hpin. }
    destruct (rank_data_of L meta None _) as [rd|] eqn:Hrd; [|done]. exfalso.
    destruct (rank_data_of_Some_all _ _ _ _ _ Hrd rk l Hl) as [rs Hrs].
    destruct (rank_segments_of_Some _ _ _ _ _ _ Hrs) as (_ & _ & _ & Hrest).
    rewrite Hsgmv in Hrest.
    destruct Hrest as (_ & _ & _ & ss & se & ss0 & se0 & _ & _ & _ & Hse0 & _).
    apply list_elem_of_lookup in Hpin as [j Hj].
    destruct (mapM_lookup _ _ _ Hse0) as [_ Hlook].
    destruct (Hlook j p Hj) as [Heq Hsome]. rewrite <- Heq in Hsome.
    apply lookup_lt_is_Some in Hsome. lia.
Qed.

(** ** The configuration of each adapter of the batch *)

(** X24. [adapter_index_configs] of a returned aggregation maps every
    adapter that occurs in a segment and has LoRA weights to the
    configuration stored in that adapter's own weights object. *)
Theorem X24_adapter_configs `{Torch} `{Punica}
    (adapter_weights : list (Z * AdapterWeights)) (meta : AdapterBatchMetadata)
    (name : string) (prefill : bool) (head_indices : option (list Z)) (h : Heap)
    (b : BatchLoraWeights) (st : gmap Z LoraWeights * Heap) :
  BatchLoraWeights_load adapter_weights meta name prefill head_indices h
    = (Some (Some b), st) →
  ∀ idx w, idx ∈ segment_indices meta →
    lora_adapters adapter_weights !! idx = Some w →
    adapter_index_configs b !! idx = Some (adapter_config w) ∧
    adapter_config <$> st.1 !! idx = Some (adapter_config w).
Proof.
  intros Hload idx w Hin Hw.
  destruct (load_Some _ _ _ _ _ _ _ _ Hload)
    as (L & hs & Htab & -> & _ & _ & -> & _).
  destruct (load_tables_inr _ _ _ _ _ Htab) as (_ & Hev & _).
  apply evolved_store_sim in Hev. split.
  - unfold adapter_index_configs_of. rewrite adapter_index_configs_loop_lookup, Hw.
    by rewrite decide_True.
  - simpl. rewrite <- (store_sim_config _ _ idx Hev), Hw. done.
Qed.

Lemma X24_adapter_configs_witness :
  ∃ b st,
    @BatchLoraWeights_load bump_torch sample_punica sample_adapter_weights
      sample_prefill_meta "q_proj" true None 0%nat = (Some (Some b), st) ∧
    ∀ idx w, idx ∈ segment_indices sample_prefill_meta →
      lora_adapters sample_adapter_weights !! idx = Some w →
      adapter_index_configs b !! idx = Some (adapter_config w) ∧
      adapter_config <$> st.1 !! idx = Some (adapter_config w).
Proof.
  eexists _, _. split.
  - vm_compute. reflexivity.
  - eapply (@X24_adapter_configs bump_torch sample_punica sample_adapter_weights
              sample_prefill_meta "q_proj" true None 0%nat).
    vm_compute. reflexivity.
Defined.

(** ** Building a weights object *)

(** X25. [LoraWeights.__init__] raises when either list is empty, so the
    default rank 1 of an empty A list is never seen on an object. An object
    that is built has its two rank fields read off the first A and the first
    B matrix, starts in load-time orientation, holds the B matrices as given
    and the A matrices as [orient_for_rank] lays them out, and all matrices
    of a block have one shape. *)
Theorem X25_init_needs_layers `{Torch} `{Punica}
    (weights_a weights_b : list Tensor2) (adapter_config0 : LoraConfig) (h : Heap) :
  (weights_a = [] ∨ weights_b = [] →
     LoraWeights_init weights_a weights_b adapter_config0 h = None) ∧
  (∀ w h', LoraWeights_init weights_a weights_b adapter_config0 h = Some (w, h') →
     ∃ a0 b0,
       head weights_a = Some a0 ∧ head weights_b = Some b0 ∧
       lora_a_r w = size1 a0 ∧ lora_b_r w = size0 b0 ∧
       _use_cutlass_shrink w = use_cutlass_shrink (size1 a0) ∧
       _is_transposed w = false ∧
       layers (_weights_a w) = map (λ t, orient_for_rank t (size1 t)) weights_a ∧
       layers (_weights_b w) = weights_b ∧
       (∀ t, t ∈ weights_b → size0 t = size0 b0 ∧ size1 t = size1 b0) ∧
       (∀ t, t ∈ layers (_weights_a w) →
          same_shape (orient_for_rank a0 (size1 a0)) t = true)).
Proof.
  assert (Hstack : ∀ ts h0 t h1, torch_stack ts h0 = Some (t, h1) →
            layers t = ts ∧
            ∃ t0, head ts = Some t0 ∧ ∀ u, u ∈ ts → same_shape t0 u = true).
  { intros ts h0 t h1 Hst. unfold torch_stack in Hst.
    destruct ts as [|t0 rest]; [done|].
    destruct (forallb (same_shape t0) rest) eqn:Hall; [|done].
    destruct (stack_ptr h0) as [p h2]. simplify_eq/=. split; [done|].
    exists t0. split; [done|]. intros u [->|Hin]%elem_of_cons.
    - unfold same_shape. by rewrite !bool_decide_eq_true_2.
    - rewrite forallb_forall in Hall. apply Hall. by apply list_elem_of_In. }
  split.
  - intros [-> | ->]; unfold LoraWeights_init; [done|].
    destruct weights_a as [|a0 rest]; [done|]. done.
  - intros w h' Hinit. unfold LoraWeights_init in Hinit.
    destruct weights_a as [|a0 rest]; [done|].
    apply bind_Some in Hinit as (rb & Hrb & Hinit).
    apply bind_Some in Hinit as ([a h1] & Ha & Hinit).
    apply bind_Some in Hinit as ([b h2] & Hb & Hinit).
    apply fmap_Some in Hrb as (b0 & Hb0 & ->).
    destruct (Hstack _ _ _ _ Ha) as (Hla & ta & Hta & Hsa).
    destruct (Hstack _ _ _ _ Hb) as (Hlb & tb & Htb & Hsb).
    simplify_eq/=. exists a0, b0. split_and!; try done.
    + intros t Ht. specialize (Hsb t Ht). unfold same_shape in Hsb.
      apply andb_true_iff in Hsb as [H1%bool_decide_eq_true H2%bool_decide_eq_true].
      by split.
    + intros t Ht. apply Hsa. by rewrite <- Hla.
Qed.
